(** * Monte Carlo tree search for Gomoku: the engine of [mcts.h] and the
      game of [gomoku.h], embedded as Rocq functions.

    Conventions of the embedding.
    - [int] and [long long] values are integers of [Z], with the arithmetic
      of [Z].  C++ leaves signed overflow undefined, so the embedding is the
      code only as long as every [int] stays within [INT_MAX].  Three [int]s
      grow with a search: the loop counter of [compute_tree], which ends one
      above the number of iterations when the loop condition stops the
      loop; the visits of a node, at most the number of iterations; and the
      merged visits of a move, at most the iterations of all the workers
      together.  The theorems that put a number on the iterations of a
      worker or on the merged counts take the bound that keeps these within
      [int] as a hypothesis.
    - [double] is the kernel's binary64 type [float]; [std::sqrt] is
      [PrimFloat.sqrt]; [std::log] belongs to the C library and is a
      parameter of the platform.
    - A [Node*] is an index into an arena of nodes ([nullptr] is [None]); the
      arena holds exactly the nodes reachable from one root, the root first.
    - A loop that the C++ text does not bound runs on a step budget; the
      outcome [OutOfFuel] tells an exhausted budget apart from completion.
    - Undefined behaviour (dereferencing a dangling pointer, indexing a
      vector out of range, erasing at [end()]) is the outcome [Fault].
    - What is written to [std::cerr] is left out; the clock readings made
      for it are kept.

    The file has three parts: the embedding of the two headers, the
    vocabulary in which the properties are stated, and the properties. *)

From Stdlib Require Import ZArith List Bool Lia Floats String Ascii Uint63.
From stdpp Require Import base list.

Local Open Scope Z_scope.

(** ** Outcomes of running a piece of C++ *)

Inductive outcome (A : Type) : Type :=
| Done (a : A)
| Throw (what : string)
| Fault
| OutOfFuel.
Arguments Done {A} a.
Arguments Throw {A} what.
Arguments Fault {A}.
Arguments OutOfFuel {A}.

#[export] Instance outcome_ret : MRet outcome := fun _ a => Done a.
#[export] Instance outcome_bind : MBind outcome := fun _ _ f m =>
  match m with
  | Done a => f a
  | Throw w => Throw w
  | Fault => Fault
  | OutOfFuel => OutOfFuel
  end.

(** The greatest [int]: [INT_MAX] of [<climits>] for the 32-bit [int] of
    the platforms the program is built on.  An [int] that is at [INT_MAX]
    and is incremented, or a sum of [int]s above it, is undefined in C++. *)
Definition INT_MAX : Z := 2147483647.

(** [v[i]] on a [std::vector]. *)
Definition at_index {A} (v : list A) (i : nat) : outcome A :=
  match v !! i with Some x => Done x | None => Fault end.

(** Left-to-right traversal of a vector by a fallible function. *)
Fixpoint for_each {A B} (f : A → outcome B) (l : list A) : outcome (list B) :=
  match l with
  | [] => Done []
  | x :: l' => y ← f x; ys ← for_each f l'; Done (y :: ys)
  end.

(** ** The platform: random engine, wall clock, build flags, libm *)

(** [std::mt19937_64] together with [std::uniform_int_distribution]:
    [uniform_index e n] is one draw from the range [0 .. n-1]. *)
Class RandomEngine (E : Type) := {
  seed_engine : Z → E;
  uniform_index : E → nat → nat * E;
  uniform_index_lt : ∀ e n, (0 < n)%nat → ((uniform_index e n).1 < n)%nat
}.

(** [::omp_get_wtime()]: each reading also advances the world. *)
Class WallClock (C : Type) := {
  omp_get_wtime : C → float * C
}.

(** Whether [USE_OPENMP] is defined when [mcts.h] is compiled, and the
    C library's [log]. *)
Class Platform := {
  USE_OPENMP : bool;
  std_log : float → float
}.

(** [double(i)] for an [int] [i]: exact, an [int] having fewer than 53
    bits. *)
Definition double_of_int (i : Z) : float :=
  if i <? 0 then PrimFloat.opp (PrimFloat.of_uint63 (Uint63.of_Z (- i)))
  else PrimFloat.of_uint63 (Uint63.of_Z i).

(** ** [std::max_element] *)

Fixpoint max_element_from {A} (comp : A → A → bool) (largest : A) (l : list A) : A :=
  match l with
  | [] => largest
  | x :: l' => max_element_from comp (if comp largest x then x else largest) l'
  end.

(** [None] is the past-the-end iterator of an empty range. *)
Definition max_element {A} (comp : A → A → bool) (l : list A) : option A :=
  match l with
  | [] => None
  | x :: l' => Some (max_element_from comp x l')
  end.

(** ** [std::map] with [operator[]] *)

(** Entries in iteration order. *)
Abbreviation std_map K V := (list (K * V)).

Section StdMap.
Context {K V : Type} (lt : K → K → bool).

(** [m[k] = f (m[k])], where [operator[]] first inserts [dflt] for a
    missing key. *)
Fixpoint map_modify (m : std_map K V) (k : K) (dflt : V) (f : V → V) : std_map K V :=
  match m with
  | [] => [(k, f dflt)]
  | (k', v) :: m' =>
      if lt k k' then (k, f dflt) :: m
      else if lt k' k then (k', v) :: map_modify m' k dflt f
      else (k', f v) :: m'
  end.

Fixpoint map_find (m : std_map K V) (k : K) : option V :=
  match m with
  | [] => None
  | (k', v) :: m' => if lt k k' || lt k' k then map_find m' k else Some v
  end.

(** The value read by [m[k]]. *)
Definition map_get (m : std_map K V) (k : K) (dflt : V) : V :=
  match map_find m k with Some v => v | None => dflt end.
End StdMap.

(** ** [MCTS::ComputeOptions] *)

Record ComputeOptions := {
  number_of_threads : Z;
  number_of_repeat : Z;
  iterations_param1 : Z;
  iterations_param2 : Z;
  max_iterations : Z;
  top_n : Z;
  board_size : Z;
  max_time : float;
  verbose : bool;
  best_wins : float;
  best_visits : Z;
  quit : bool
}.

Definition default_options : ComputeOptions := {|
  number_of_threads := 8;
  number_of_repeat := 100;
  iterations_param1 := 10;
  iterations_param2 := 1000;
  max_iterations := 10000;
  top_n := 1;
  board_size := 15;
  max_time := (-1)%float;
  verbose := false;
  best_wins := 0%float;
  best_visits := 0;
  quit := false
|}.

Definition set_verbose (o : ComputeOptions) (b : bool) : ComputeOptions := {|
  number_of_threads := number_of_threads o;
  number_of_repeat := number_of_repeat o;
  iterations_param1 := iterations_param1 o;
  iterations_param2 := iterations_param2 o;
  max_iterations := max_iterations o;
  top_n := top_n o;
  board_size := board_size o;
  max_time := max_time o;
  verbose := b;
  best_wins := best_wins o;
  best_visits := best_visits o;
  quit := quit o
|}.

(** ** The game-state capability the engine is written against *)

Class GameState (State Move : Type) := {
  no_move : Move;
  (** [typename State::Move()] *)
  Move_default : Move;
  Move_eq_dec :: EqDecision Move;
  (** [operator<] on moves, the key order of [std::map]. *)
  Move_lt : Move → Move → bool;
  player_to_move : State → Z;
  get_moves : State → list Move;
  do_move : State → Move → State;
  has_moves : State → bool;
  do_random_move : ∀ {E} `{RandomEngine E}, State → E → outcome (State * E);
  get_result : State → Z → float;
  (** The key order is a strict total order. *)
  Move_lt_irrefl : ∀ a, Move_lt a a = false;
  Move_lt_trans : ∀ a b c, Move_lt a b = true → Move_lt b c = true → Move_lt a c = true;
  Move_lt_total : ∀ a b, Move_lt a b = false → Move_lt b a = false → a = b;
  (** Games end: a bound on the number of moves still to be played. *)
  moves_left : State → nat;
  do_move_left : ∀ s m, (moves_left (do_move s m) ≤ moves_left s)%nat;
  do_random_move_left : ∀ E (RE : RandomEngine E) s (e : E),
    has_moves s = true →
    ∃ s' e', do_random_move s e = Done (s', e') ∧ (moves_left s' < moves_left s)%nat
}.

(** ** [MCTS::Node] *)

Module Node.
Record t (Move : Type) := mk {
  move : Move;
  parent : option nat;
  player_to_move : Z;
  wins : float;
  visits : Z;
  moves : list Move;
  children : list nat
}.
Arguments mk {Move}.
Arguments move {Move}.
Arguments parent {Move}.
Arguments player_to_move {Move}.
Arguments wins {Move}.
Arguments visits {Move}.
Arguments moves {Move}.
Arguments children {Move}.
End Node.

(** ** The search engine *)

(** The nodes of one tree; [children] and [parent] index into it. *)
Abbreviation Arena Move := (list (Node.t Move)).

Section MCTS.
Context {E C State Move : Type}.
Context `{RandomEngine E} `{WallClock C} `{Platform} `{GameState State Move}.

(** [*p] for a node pointer [p]. *)
Definition deref (a : Arena Move) (p : nat) : outcome (Node.t Move) :=
  at_index a p.

(** [Node(const State& state)], the root constructor. *)
Definition Node_root (state : State) : Node.t Move :=
  Node.mk no_move None (player_to_move state) 0%float 0 (get_moves state) [].

(** [Node(const State& state, const Move& move_, Node* parent_)]. *)
Definition Node_child (state : State) (move_ : Move) (parent_ : nat) : Node.t Move :=
  Node.mk move_ (Some parent_) (player_to_move state) 0%float 0 (get_moves state) [].

(** [! moves.empty()] and [! children.empty()]. *)
Definition has_untried_moves (this : Node.t Move) : bool :=
  negb (bool_decide (Node.moves this = [])).

Definition has_children (this : Node.t Move) : bool :=
  negb (bool_decide (Node.children this = [])).

(** [moves[i]] for a draw [i] of the engine, uniform on
    [0 .. moves.size() - 1]. *)
Definition get_untried_move (this : Node.t Move) (engine : E) : outcome (Move * E) :=
  let '(i, engine) := uniform_index engine (length (Node.moves this)) in
  m ← at_index (Node.moves this) i;
  Done (m, engine).

(** [best_child]: the first child with the greatest visit count. *)
Definition best_child (a : Arena Move) (this : Node.t Move) : outcome nat :=
  cs ← for_each (λ c, n ← deref a c; Done (c, Node.visits n)) (Node.children this);
  match max_element (λ x y, x.2 <? y.2) cs with
  | Some (c, _) => Done c
  | None => Fault
  end.

(** The value stored in [child->UCT_score].  That field is scratch space:
    it is written for every child and read by the comparison of
    [select_child_UCT] only, so the embedding keeps the value and not the
    field. *)
Definition UCT_score (this child : Node.t Move) : float :=
  (Node.wins child / double_of_int (Node.visits child)
   + PrimFloat.sqrt (2 * std_log (double_of_int (Node.visits this))
                     / double_of_int (Node.visits child)))%float.

(** [std::max_element] over the children by [UCT_score]; dereferencing the
    end iterator of an empty range is undefined. *)
Definition select_child_UCT (a : Arena Move) (this : Node.t Move) : outcome nat :=
  cs ← for_each (λ c, n ← deref a c; Done (c, UCT_score this n)) (Node.children this);
  match max_element (λ x y, (x.2 <? y.2)%float) cs with
  | Some (c, _) => Done c
  | None => Fault
  end.

(** [std::find] followed by [erase]: the first occurrence goes; [None]
    stands for [erase(end())]. *)
Fixpoint erase_first (m : Move) (l : list Move) : option (list Move) :=
  match l with
  | [] => None
  | x :: l' => if decide (x = m) then Some l'
               else l'' ← erase_first m l'; Some (x :: l'')
  end.

(** [add_child] on the node at [this]: the new node is allocated at the
    end of the arena. *)
Definition add_child (a : Arena Move) (this : nat) (move : Move) (state : State)
  : outcome (Arena Move * nat) :=
  n ← deref a this;
  let node := length a in
  match erase_first move (Node.moves n) with
  | None => Fault
  | Some moves' =>
      let n' := Node.mk (Node.move n) (Node.parent n) (Node.player_to_move n)
                  (Node.wins n) (Node.visits n) moves' (Node.children n ++ [node]) in
      Done (<[this := n']> a ++ [Node_child state move this], node)
  end.

(** [visits++; wins += result]. *)
Definition update_node (this : Node.t Move) (result : float) : Node.t Move :=
  Node.mk (Node.move this) (Node.parent this) (Node.player_to_move this)
    (Node.wins this + result)%float (Node.visits this + 1)
    (Node.moves this) (Node.children this).

(** [update] on the node at [this]. *)
Definition update (a : Arena Move) (this : nat) (result : float) : outcome (Arena Move) :=
  n ← deref a this;
  Done (<[this := update_node n result]> a).

(** *** One iteration of [compute_tree] *)

(** Select a path through the tree to a leaf node. *)
Fixpoint select_leaf (fuel : nat) (a : Arena Move) (node : nat) (state : State)
  : outcome (nat * State) :=
  n ← deref a node;
  if negb (has_untried_moves n) && has_children n then
    match fuel with
    | O => OutOfFuel
    | S fuel =>
        node ← select_child_UCT a n;
        n ← deref a node;
        select_leaf fuel a node (do_move state (Node.move n))
    end
  else Done (node, state).

(** Expand the tree with a new node and move there, unless the node has
    no untried move. *)
Definition expand (a : Arena Move) (node : nat) (state : State) (engine : E)
  : outcome (Arena Move * nat * State * E) :=
  n ← deref a node;
  if has_untried_moves n then
    '(move, engine) ← get_untried_move n engine;
    let state := do_move state move in
    '(a, node) ← add_child a node move state;
    Done (a, node, state, engine)
  else Done (a, node, state, engine).

(** Play randomly until the game ends. *)
Fixpoint playout (fuel : nat) (state : State) (engine : E) : outcome (State * E) :=
  if has_moves state then
    match fuel with
    | O => OutOfFuel
    | S fuel =>
        '(state, engine) ← do_random_move state engine;
        playout fuel state engine
    end
  else Done (state, engine).

(** Backpropagate the result up the tree to the root node. *)
Fixpoint backpropagate (fuel : nat) (a : Arena Move) (node : option nat) (state : State)
  : outcome (Arena Move) :=
  match node with
  | None => Done a
  | Some p =>
      match fuel with
      | O => OutOfFuel
      | S fuel =>
          n ← deref a p;
          a ← update a p (get_result state (Node.player_to_move n));
          backpropagate fuel a (Node.parent n) state
      end
  end.

(** The body of the [for] loop up to the backpropagation: [node] starts at
    the root and [state] as a copy of [root_state]. *)
Definition iteration (fuel : nat) (root_state : State) (a : Arena Move) (engine : E)
  : outcome (Arena Move * E) :=
  '(node, state) ← select_leaf fuel a 0%nat root_state;
  '(a, node, state, engine) ← expand a node state engine;
  '(state, engine) ← playout fuel state engine;
  a ← backpropagate fuel a (Some node) state;
  Done (a, engine).

(** *** [compute_tree] *)

Section ComputeTree.
Variables (fuel : nat) (root_state : State) (options : ComputeOptions).
Variable start_time : float.

(** The [for] loop, entered with the value of [iter]; the result pairs
    the tree with the number of iterations completed ([iter] at a [break],
    [iter - 1] when the loop condition fails).  [budget] is the step budget
    of this loop, [fuel] that of each inner loop.

    [iter] and [max_iterations] are [int]s in the source and integers
    here.  The two agree as long as [iter] stays within [INT_MAX]: for a
    loop that its condition stops, when [max_iterations < INT_MAX]; for a
    loop left by [break], when the [break] comes within [INT_MAX]
    iterations.  With [max_iterations = INT_MAX] the condition of the
    source never fails and [++iter] overflows, where this loop would count
    on to [INT_MAX + 1] and stop; the theorems on the number of iterations
    exclude that case. *)
Fixpoint tree_loop (budget : nat) (iter : Z) (a : Arena Move) (engine : E) (clock : C)
    (print_time : float) : outcome (Arena Move * Z) :=
  if (iter <=? max_iterations options) || (max_iterations options <? 0) then
    match budget with
    | O => OutOfFuel
    | S budget =>
        '(a, engine) ← iteration fuel root_state a engine;
        if USE_OPENMP && (verbose options || (0 <=? max_time options)%float) then
          let '(time, clock) := omp_get_wtime clock in
          let print_time :=
            if verbose options
               && ((1 <=? time - print_time)%float || (iter =? max_iterations options))
            then time else print_time in
          if (max_time options <=? time - start_time)%float then Done (a, iter)
          else tree_loop budget (iter + 1) a engine clock print_time
        else tree_loop budget (iter + 1) a engine clock print_time
    end
  else Done (a, iter - 1).
End ComputeTree.

(** [compute_tree], with the number of iterations it completed. *)
Definition compute_tree_run (fuel : nat) (root_state : State) (options : ComputeOptions)
    (initial_seed : Z) (clock : C) : outcome (Arena Move * Z) :=
  let random_engine := seed_engine initial_seed in
  if (0 <=? max_time options)%float && negb USE_OPENMP then
    Throw "ComputeOptions::max_time requires OpenMP."
  else
    let root := [Node_root root_state] in
    let '(start_time, clock) :=
      if USE_OPENMP then omp_get_wtime clock else (0%float, clock) in
    tree_loop fuel root_state options start_time fuel 1 root random_engine clock start_time.

(** [compute_tree] returns the tree alone. *)
Definition compute_tree (fuel : nat) (root_state : State) (options : ComputeOptions)
    (initial_seed : Z) (clock : C) : outcome (Arena Move) :=
  r ← compute_tree_run fuel root_state options initial_seed clock; Done r.1.
End MCTS.

(** ** [compute_move]: parallel searches, merge, final selection *)

Section Coordinator.
Context {E C State Move : Type}.
Context `{RandomEngine E} `{WallClock C} `{Platform} `{GameState State Move}.

(** The locals [visits], [wins] and [games_played] of [compute_move]. *)
Record Merged := {
  m_visits : std_map Move Z;
  m_wins : std_map Move float;
  m_games_played : Z
}.

(** The three locals before the merge loop. *)
Definition Merged_empty : Merged :=
  {| m_visits := []; m_wins := []; m_games_played := 0 |}.

(** [visits[child->move] += child->visits; wins[child->move] += child->wins].
    The counts of [visits] are [int]s in the source and integers here: the
    sums are those of the source as long as they stay within [INT_MAX],
    which the theorems on the merged counts assume of the iterations of all
    the workers together. *)
Definition merge_child (acc : std_map Move Z * std_map Move float) (child : Node.t Move)
  : std_map Move Z * std_map Move float :=
  (map_modify Move_lt acc.1 (Node.move child) 0 (λ v, v + Node.visits child),
   map_modify Move_lt acc.2 (Node.move child) 0%float (λ w, (w + Node.wins child)%float)).

(** The body of the merge loop for one root. *)
Definition merge_root (acc : Merged) (tree : Arena Move) : outcome Merged :=
  root ← deref tree 0%nat;
  let games_played := m_games_played acc + Node.visits root in
  children ← for_each (deref tree) (Node.children root);
  let vw := fold_left merge_child children (m_visits acc, m_wins acc) in
  Done {| m_visits := vw.1; m_wins := vw.2; m_games_played := games_played |}.

(** The merge loop over the roots. *)
Fixpoint merge_roots (acc : Merged) (roots : list (Arena Move)) : outcome Merged :=
  match roots with
  | [] => Done acc
  | tree :: roots => acc ← merge_root acc tree; merge_roots acc roots
  end.

(** Expected success rate assuming a uniform prior. *)
Definition expected_success_rate (w v : float) : float := ((w + 1) / (v + 2))%float.

(** The body of the selection loop: [best] is [(best_move, best_score)]. *)
Definition select_step (wins : std_map Move float) (best : Move * float) (itr : Move * Z)
  : Move * float :=
  let move := itr.1 in
  let v := double_of_int itr.2 in
  let w := map_get Move_lt wins move 0%float in
  if (best.2 <? expected_success_rate w v)%float
  then (move, expected_success_rate w v) else best.

(** The selection loop over the entries of [visits], from
    [best_score = -1] and [best_move = Move()]. *)
Definition select_best (visits : std_map Move Z) (wins : std_map Move float) : Move :=
  (fold_left (select_step wins) visits (Move_default, (-1)%float)).1.

(** What a call of [compute_move] did: it returned at once, or it built
    [roots], merged them and chose [best_move]. *)
Inductive Search :=
| ShortCircuit (m : Move)
| Searched (roots : list (Arena Move)) (merged : Merged) (best_move : Move).

(** The value [compute_move] returns. *)
Definition returned_move (s : Search) : Move :=
  match s with ShortCircuit m => m | Searched _ _ best_move => best_move end.

(** [compute_move], with what it did.  The workers share nothing, so
    running them one after the other is exact, and an exception of a worker
    comes out of [get()] when the results are collected; [clocks t] is the
    clock as worker [t] reads it and [seed] the value drawn from
    [std::random_device]. *)
Definition compute_move_run (fuel : nat) (root_state : State) (options : ComputeOptions)
    (seed : Z) (clocks : nat → C) : outcome Search :=
  let moves := get_moves root_state in
  if decide (length moves = 1%nat) then
    m ← at_index moves 0; Done (ShortCircuit m)
  else
    let job_options := set_verbose options false in
    roots ← for_each (λ t, compute_tree fuel root_state job_options seed (clocks t))
              (seq 0 (Z.to_nat (number_of_threads options)));
    merged ← merge_roots Merged_empty roots;
    Done (Searched roots merged (select_best (m_visits merged) (m_wins merged))).

(** [compute_move]. *)
Definition compute_move (fuel : nat) (root_state : State) (options : ComputeOptions)
    (seed : Z) (clocks : nat → C) : outcome Move :=
  r ← compute_move_run fuel root_state options seed clocks; Done (returned_move r).
End Coordinator.

(** ** [GomokuState] *)

Module Gomoku.

(** [std::pair<int, int>], row first. *)
Definition Move : Type := Z * Z.

(** [GomokuState::no_move]. *)
Definition no_move : Move := (-1, -1).

(** [player_markers]; the array has three entries and reading past them is
    undefined, here the marker of the empty cell. *)
Definition player_markers (i : Z) : ascii :=
  if i =? 1 then "X"%char else if i =? 2 then "O"%char else "."%char.

Record State := {
  player_to_move : Z;
  num_rows : Z;
  num_cols : Z;
  board_size : Z;
  board : list (list ascii);
  last_col : Z;
  last_row : Z;
  empty_places : list Move
}.

(** The cells [(i, 0) .. (i, n-1)]. *)
Definition row_places (i : Z) (n : nat) : list Move :=
  map (λ j, (i, Z.of_nat j)) (seq 0 n).

(** [GomokuState(int side_len_)]. *)
Definition init (side_len : Z) : State := {|
  player_to_move := 1;
  num_rows := side_len;
  num_cols := side_len;
  board_size := side_len * side_len;
  board := replicate (Z.to_nat side_len) (replicate (Z.to_nat side_len) (player_markers 0));
  last_col := -1;
  last_row := -1;
  empty_places :=
    concat (map (λ i, row_places (Z.of_nat i) (Z.to_nat side_len)) (seq 0 (Z.to_nat side_len)))
|}.

(** [board[row][col]]; outside the board the C++ read is undefined, here an
    empty cell. *)
Definition cell (b : list (list ascii)) (row col : Z) : ascii :=
  if (row <? 0) || (col <? 0) then player_markers 0
  else match b !! Z.to_nat row with
       | Some r => default (player_markers 0) (r !! Z.to_nat col)
       | None => player_markers 0
       end.

(** [board[row][col] = x]; outside the board the C++ write is undefined,
    here nothing is written. *)
Definition set_cell (b : list (list ascii)) (row col : Z) (x : ascii) : list (list ascii) :=
  if (row <? 0) || (col <? 0) then b
  else alter (λ r, <[Z.to_nat col := x]> r) (Z.to_nat row) b.

(** [do_move]: mark the cell, take the move out of [empty_places], remember
    it as the last one, and pass the turn. *)
Definition do_move (s : State) (move : Move) : State := {|
  player_to_move := 3 - player_to_move s;
  num_rows := num_rows s;
  num_cols := num_cols s;
  board_size := board_size s;
  board := set_cell (board s) move.1 move.2 (player_markers (player_to_move s));
  last_col := move.2;
  last_row := move.1;
  empty_places := filter (λ m, m ≠ move) (empty_places s)
|}.

(** [do_random_move]: the move at a uniformly drawn position of
    [empty_places]. *)
Definition do_random_move {E} `{RandomEngine E} (s : State) (engine : E)
  : outcome (State * E) :=
  let '(idx, engine) := uniform_index engine (length (empty_places s)) in
  m ← at_index (empty_places s) idx;
  Done (do_move s m, engine).

(** One counting loop of [get_winner]: from [(row, col)], step by
    [(drow, dcol)] while [in_range] holds and the cell holds [piece]. *)
Fixpoint count_run (fuel : nat) (b : list (list ascii)) (piece : ascii)
    (in_range : Z → Z → bool) (drow dcol row col : Z) : Z :=
  match fuel with
  | O => 0
  | S fuel =>
      if in_range row col && Ascii.eqb (cell b row col) piece
      then 1 + count_run fuel b piece in_range drow dcol (row + drow) (col + dcol)
      else 0
  end.

(** [get_winner] with each of its counting loops cut after [n] steps. *)
Definition get_winner_within (n : nat) (s : State) : ascii :=
  if last_col s <? 0 then player_markers 0 else
  let b := board s in
  (* We only need to check around the last piece played. *)
  let piece := cell b (last_row s) (last_col s) in
  (* five in a column *)
  let left := count_run n b piece (λ _ col, 0 <=? col) 0 (-1) (last_row s) (last_col s - 1) in
  let right := count_run n b piece (λ _ col, col <? num_cols s) 0 1 (last_row s) (last_col s + 1) in
  if 5 <=? left + 1 + right then piece else
  (* five in a row *)
  let up := count_run n b piece (λ row _, 0 <=? row) (-1) 0 (last_row s - 1) (last_col s) in
  let down := count_run n b piece (λ row _, row <? num_rows s) 1 0 (last_row s + 1) (last_col s) in
  if 5 <=? up + 1 + down then piece else
  (* five in a diagonal *)
  let up := count_run n b piece (λ row col, (0 <=? row) && (0 <=? col)) (-1) (-1)
              (last_row s - 1) (last_col s - 1) in
  let down := count_run n b piece (λ row col, (row <? num_rows s) && (col <? num_cols s)) 1 1
                (last_row s + 1) (last_col s + 1) in
  if 5 <=? up + 1 + down then piece else
  (* five in an antidiagonal *)
  let up := count_run n b piece (λ row col, (row <? num_rows s) && (0 <=? col)) 1 (-1)
              (last_row s + 1) (last_col s - 1) in
  let down := count_run n b piece (λ row col, (0 <=? row) && (col <? num_cols s)) (-1) 1
                (last_row s - 1) (last_col s + 1) in
  if 5 <=? up + 1 + down then piece else
  player_markers 0.

(** No loop of [get_winner] makes more steps than the board is wide or
    high (lemma [get_winner_within_enough]). *)
Definition get_winner (s : State) : ascii :=
  get_winner_within (Z.to_nat (Z.max (num_rows s) (num_cols s))) s.

(** [has_moves], [get_moves] and [get_result]. *)
Definition has_moves (s : State) : bool :=
  if negb (Ascii.eqb (get_winner s) (player_markers 0)) then false
  else negb (bool_decide (empty_places s = [])).

Definition get_moves (s : State) : list Move :=
  if negb (Ascii.eqb (get_winner s) (player_markers 0)) then []
  else empty_places s.

Definition get_result (s : State) (current_player_to_move : Z) : float :=
  let winner := get_winner s in
  if Ascii.eqb winner (player_markers 0) then 0.5%float
  else if Ascii.eqb winner (player_markers current_player_to_move) then 0%float
  else 1%float.

(** [operator<] of [std::pair]. *)
Definition Move_lt (a b : Move) : bool :=
  (a.1 <? b.1) || (negb (b.1 <? a.1) && (a.2 <? b.2)).

(** The number [str] writes for a cell. *)
Definition marker_number (ch : ascii) : Z :=
  if Ascii.eqb ch (player_markers 1) then 1
  else if Ascii.eqb ch (player_markers 2) then 2
  else 0.

(** [ss << n] for a number of one decimal digit. *)
Definition digit (n : Z) : ascii := ascii_of_nat (48 + Z.to_nat n).

(** [str]: the cells row by row, each as its number followed by a comma. *)
Definition str (s : State) : string :=
  string_of_list_ascii
    (concat
       (map (λ row,
          concat
            (map (λ col,
               [digit (marker_number (cell (board s) (Z.of_nat row) (Z.of_nat col)));
                ","%char])
               (seq 0 (Z.to_nat (num_cols s)))))
          (seq 0 (Z.to_nat (num_rows s))))).

End Gomoku.

(** *** Gomoku meets the capability *)

Lemma Gomoku_Move_lt_irrefl (a : Gomoku.Move) : Gomoku.Move_lt a a = false.
Proof. destruct a as [r c]. unfold Gomoku.Move_lt. simpl. lia. Qed.

Lemma Gomoku_Move_lt_trans (a b c : Gomoku.Move) :
  Gomoku.Move_lt a b = true → Gomoku.Move_lt b c = true → Gomoku.Move_lt a c = true.
Proof.
  destruct a as [r1 c1], b as [r2 c2], c as [r3 c3]. unfold Gomoku.Move_lt. simpl. lia.
Qed.

Lemma Gomoku_Move_lt_total (a b : Gomoku.Move) :
  Gomoku.Move_lt a b = false → Gomoku.Move_lt b a = false → a = b.
Proof.
  destruct a as [r1 c1], b as [r2 c2]. unfold Gomoku.Move_lt. simpl.
  intros Hab Hba. assert (r1 = r2 ∧ c1 = c2) as [-> ->] by lia. reflexivity.
Qed.

Lemma Gomoku_do_move_left (s : Gomoku.State) (m : Gomoku.Move) :
  (length (Gomoku.empty_places (Gomoku.do_move s m)) ≤ length (Gomoku.empty_places s))%nat.
Proof. simpl. apply length_filter. Qed.

Lemma filter_ne_shorter (m : Gomoku.Move) (l : list Gomoku.Move) :
  m ∈ l → (length (filter (λ x, x ≠ m) l) < length l)%nat.
Proof.
  induction l as [|x l IH]; intros Hin.
  - inversion Hin.
  - destruct (decide (x = m)) as [->|Hne].
    + rewrite filter_cons_False by (intros Hc; apply Hc; reflexivity).
      simpl. pose proof (length_filter (λ x, x ≠ m) l). lia.
    + rewrite filter_cons_True by assumption. simpl.
      apply elem_of_cons in Hin as [Heq|Hin]; [congruence|].
      specialize (IH Hin). lia.
Qed.

Lemma Gomoku_has_moves_places (s : Gomoku.State) :
  Gomoku.has_moves s = true → Gomoku.empty_places s ≠ [].
Proof.
  unfold Gomoku.has_moves.
  destruct (negb _); [discriminate|].
  intros Hb Hnil. rewrite bool_decide_true in Hb by assumption. discriminate.
Qed.

Lemma Gomoku_do_random_move_left E (RE : RandomEngine E) (s : Gomoku.State) (e : E) :
  Gomoku.has_moves s = true →
  ∃ s' e', Gomoku.do_random_move s e = Done (s', e')
           ∧ (length (Gomoku.empty_places s') < length (Gomoku.empty_places s))%nat.
Proof.
  intros Hm. apply Gomoku_has_moves_places in Hm.
  unfold Gomoku.do_random_move.
  pose proof (uniform_index_lt e (length (Gomoku.empty_places s))) as Hlt.
  destruct (uniform_index e (length (Gomoku.empty_places s))) as [idx e'] eqn:Hu.
  simpl in Hlt.
  assert (0 < length (Gomoku.empty_places s))%nat as Hpos.
  { destruct (Gomoku.empty_places s); [congruence|simpl; lia]. }
  specialize (Hlt Hpos).
  destruct (lookup_lt_is_Some_2 _ _ Hlt) as [m Hlk].
  unfold at_index. rewrite Hlk. simpl.
  exists (Gomoku.do_move s m), e'. split; [reflexivity|].
  simpl. apply filter_ne_shorter. eapply list_elem_of_lookup_2; eassumption.
Qed.

#[export] Instance Gomoku_GameState : GameState Gomoku.State Gomoku.Move := {|
  no_move := Gomoku.no_move;
  Move_default := (0, 0);
  Move_lt := Gomoku.Move_lt;
  player_to_move := Gomoku.player_to_move;
  get_moves := Gomoku.get_moves;
  do_move := Gomoku.do_move;
  has_moves := Gomoku.has_moves;
  do_random_move := @Gomoku.do_random_move;
  get_result := Gomoku.get_result;
  Move_lt_irrefl := Gomoku_Move_lt_irrefl;
  Move_lt_trans := Gomoku_Move_lt_trans;
  Move_lt_total := Gomoku_Move_lt_total;
  moves_left := λ s, length (Gomoku.empty_places s);
  do_move_left := Gomoku_do_move_left;
  do_random_move_left := Gomoku_do_random_move_left
|}.

(** ** A concrete platform, to run the engine on examples *)

(** A linear congruential engine standing for [std::mt19937_64]. *)
Definition lcg_next (x : Z) : Z := (6364136223846793005 * x + 1442695040888963407) mod 2 ^ 64.

Lemma lcg_index_lt (e : Z) (n : nat) :
  (0 < n)%nat → (Z.to_nat ((lcg_next e / 2 ^ 33) mod Z.of_nat n) < n)%nat.
Proof.
  intros Hn. pose proof (Z.mod_pos_bound (lcg_next e / 2 ^ 33) (Z.of_nat n)). lia.
Qed.

#[export] Instance Lcg_engine : RandomEngine Z := {|
  seed_engine := λ seed, seed mod 2 ^ 64;
  uniform_index := λ e n, (Z.to_nat ((lcg_next e / 2 ^ 33) mod Z.of_nat n), lcg_next e);
  uniform_index_lt := lcg_index_lt
|}.

(** A clock that advances a quarter of a second at every reading. *)
#[export] Instance Tick_clock : WallClock float := {|
  omp_get_wtime := λ t, (t, (t + 0.25)%float)
|}.

(** A natural logarithm on binary64, by range reduction and the series of
    the inverse hyperbolic tangent; it stands for the C library's [log] in
    examples. *)
Fixpoint atanh_series (n : nat) (y2 term : float) (k : float) : float :=
  match n with
  | O => 0%float
  | S n => (term / k + atanh_series n y2 (term * y2) (k + 2))%float
  end.

Definition approx_log (x : float) : float :=
  if (x <? 0)%float then PrimFloat.nan
  else if (x =? 0)%float then PrimFloat.neg_infinity
  else if (x =? PrimFloat.infinity)%float then PrimFloat.infinity
  else if (x =? x)%float then
    let '(m, e) := PrimFloat.frshiftexp x in
    let y := ((m - 1) / (m + 1))%float in
    (double_of_int (Uint63.to_Z e - FloatOps.shift) * 0x1.62e42fefa39efp-1
     + 2 * atanh_series 40 (y * y) y 1)%float
  else x.

Definition openmp_build : Platform := {| USE_OPENMP := true; std_log := approx_log |}.
Definition plain_build : Platform := {| USE_OPENMP := false; std_log := approx_log |}.

(** * The vocabulary of the properties *)

(** [x] is a number: not a NaN. *)
Definition is_number (x : float) : bool := (x =? x)%float.

(** The comparison of [std::max_element] on the scores [key]. *)
Definition by_key {A} (key : A → float) (x y : A) : bool := (key x <? key y)%float.

(** [r], found at position [i] of [l], is greatest in [l]: no element has a
    greater score; and it is the first such: no element before it has an
    equal score. *)
Definition first_greatest {A} (key : A → float) (l : list A) (i : nat) (r : A) : Prop :=
  l !! i = Some r
  ∧ (∀ j y, l !! j = Some y → (key r <? key y)%float = false)
  ∧ (∀ j y, l !! j = Some y → (j < i)%nat → (key y =? key r)%float = false).

(** Keys strictly increase along the iteration order. *)
Inductive keys_sorted {K V : Type} (lt : K → K → bool) : std_map K V → Prop :=
| keys_sorted_nil : keys_sorted lt []
| keys_sorted_cons k v m :
    keys_sorted lt m → (∀ e, e ∈ m → lt k e.1 = true) → keys_sorted lt ((k, v) :: m).

(** [o] completed with a result satisfying [P], or it ran out of its
    budget, and then only because [short] holds. *)
Definition done_or_short {A} (o : outcome A) (P : A → Prop) (short : Prop) : Prop :=
  (∃ r, o = Done r ∧ P r) ∨ (o = OutOfFuel ∧ short).

(** The sum of a list of integers. *)
Definition total (l : list Z) : Z := foldr Z.add 0 l.

Section Vocabulary.
Context {E C State Move : Type}.
Context `{RandomEngine E} `{WallClock C} `{Platform} `{GameState State Move}.

(** The expected success rate of one entry of the [visits] map. *)
Definition entry_rate (wins : std_map Move float) (itr : Move * Z) : float :=
  expected_success_rate (map_get Move_lt wins itr.1 0%float) (double_of_int itr.2).

(** The direct children of the root of a tree, in insertion order. *)
Definition root_children (tree : Arena Move) : list (Node.t Move) :=
  match tree !! 0%nat with
  | Some root => omap (λ c, tree !! c) (Node.children root)
  | None => []
  end.

(** [root->visits]. *)
Definition root_visits (tree : Arena Move) : Z :=
  match tree !! 0%nat with Some root => Node.visits root | None => 0 end.

(** The root and the children it points to are in the tree. *)
Definition root_readable (tree : Arena Move) : Prop :=
  ∃ root, tree !! 0%nat = Some root ∧ ∀ c, c ∈ Node.children root → is_Some (tree !! c).

(** The nodes of [ns] reached by the move [m]. *)
Definition with_move (m : Move) (ns : list (Node.t Move)) : list (Node.t Move) :=
  filter (λ n, Node.move n = m) ns.

(** Sums of visit counts, and of win totals in [double] arithmetic, taken
    from left to right. *)
Definition sum_visits (ns : list (Node.t Move)) : Z :=
  fold_left (λ s n, s + Node.visits n) ns 0.

Definition sum_wins_from (s : float) (ns : list (Node.t Move)) : float :=
  fold_left (λ s n, (s + Node.wins n)%float) ns s.

Definition sum_wins (ns : list (Node.t Move)) : float := sum_wins_from 0%float ns.

(** The children with move [m] of all the roots, tree after tree. *)
Definition all_with_move (m : Move) (roots : list (Arena Move)) : list (Node.t Move) :=
  with_move m (concat (map root_children roots)).

(** Every pointer of the arena points into it: the root is first and has no
    parent; every other node is, once, among the children of its parent,
    which was allocated before it. *)
Record wf_tree (a : Arena Move) : Prop := {
  wf_root : ∃ r, a !! 0%nat = Some r ∧ Node.parent r = None;
  wf_parent : ∀ i n, a !! i = Some n → (0 < i)%nat →
    ∃ p pn, Node.parent n = Some p ∧ (p < i)%nat ∧ a !! p = Some pn ∧ i ∈ Node.children pn;
  wf_children : ∀ p pn c, a !! p = Some pn → c ∈ Node.children pn →
    (p < c)%nat ∧ ∃ cn, a !! c = Some cn ∧ Node.parent cn = Some p;
  wf_nodup : ∀ p pn, a !! p = Some pn → NoDup (Node.children pn)
}.

(** [node->parent] read through the arena. *)
Definition parent_of (a : Arena Move) (i : nat) : option nat :=
  match a !! i with Some n => Node.parent n | None => None end.

(** [i] lies on the walk from [x] up the parent pointers. *)
Inductive on_path (a : Arena Move) : nat → nat → Prop :=
| on_path_here x : on_path a x x
| on_path_up x p i : parent_of a x = Some p → on_path a p i → on_path a x i.

(** Parents are allocated before their children. *)
Definition parents_below (a : Arena Move) : Prop :=
  ∀ i p, parent_of a i = Some p → (p < i)%nat.

(** Two arenas with the same pointers. *)
Definition same_shape (a a' : Arena Move) : Prop :=
  ∀ i, (λ n, (Node.parent n, Node.children n)) <$> a' !! i
       = (λ n, (Node.parent n, Node.children n)) <$> a !! i.

(** The node [this] once [move] has gone from its frontier to its children. *)
Definition with_child (n : Node.t Move) (moves' : list Move) (node : nat) : Node.t Move :=
  Node.mk (Node.move n) (Node.parent n) (Node.player_to_move n)
    (Node.wins n) (Node.visits n) moves' (Node.children n ++ [node]).

(** What [expand] returns: the same tree at a node without untried move; or
    the tree grown by one node, whose state is the working state after the
    move. *)
Definition expanded (a : Arena Move) (node : nat) (n : Node.t Move) (state : State)
    (r : Arena Move * nat * State * E) : Prop :=
  let '(a', node', state', _) := r in
  if has_untried_moves n then
    ∃ move moves',
      move ∈ Node.moves n
      ∧ erase_first move (Node.moves n) = Some moves'
      ∧ state' = do_move state move
      ∧ node' = length a
      ∧ a' = <[node := with_child n moves' (length a)]> a ++ [Node_child state' move node]
  else a' = a ∧ node' = node ∧ state' = state.

(** The value [update] receives at node [n] when the playout ended in
    [state]. *)
Definition result_at (state : State) (n : Node.t Move) : float :=
  get_result state (Node.player_to_move n).

(** After backpropagation from [x]: every node on the walk from [x] to the
    root has been updated once, with the result seen from its own
    [player_to_move], and every other node is as it was. *)
Definition backpropagated (a : Arena Move) (x : nat) (state : State) (a' : Arena Move)
  : Prop :=
  length a' = length a
  ∧ ∀ i n, a !! i = Some n →
      (on_path a x i → a' !! i = Some (update_node n (result_at state n)))
      ∧ (¬ on_path a x i → a' !! i = Some n).

(** [c->visits], and 0 for a pointer out of the arena. *)
Definition visits_at (a : Arena Move) (c : nat) : Z :=
  match a !! c with Some n => Node.visits n | None => 0 end.

(** The root has neither an untried move nor a child: its position is
    final. *)
Definition root_stuck (a : Arena Move) : Prop :=
  ∃ root, a !! 0%nat = Some root ∧ Node.moves root = [] ∧ Node.children root = [].

(** The root has an untried move or a child. *)
Definition root_open (a : Arena Move) : Prop :=
  ∃ root, a !! 0%nat = Some root ∧ (Node.moves root ≠ [] ∨ Node.children root ≠ []).

(** What one iteration makes of the tree [a]. *)
Record iterated (a : Arena Move) (r : Arena Move * E) : Prop := {
  it_wf : wf_tree r.1;
  it_length : (length a ≤ length r.1 ≤ length a + 1)%nat;
  it_root_visits : root_visits r.1 = root_visits a + 1;
  it_open : root_open a →
    root_open r.1 ∧ sum_visits (root_children r.1) = sum_visits (root_children a) + 1;
  it_stuck : root_stuck a → root_stuck r.1 ∧ length r.1 = length a
}.

(** The visits of the root's children add up to the visits of the root. *)
Definition children_account (a : Arena Move) : Prop :=
  sum_visits (root_children a) = root_visits a.

(** What holds of the tree [r.1] and the iteration count [r.2] when the loop
    entered at [iter] with the tree [a] is left. *)
Record looped (a : Arena Move) (iter : Z) (r : Arena Move * Z) : Prop := {
  lp_wf : wf_tree r.1;
  lp_visits : root_visits r.1 = r.2;
  lp_open : root_open a → children_account a → root_open r.1 ∧ children_account r.1;
  lp_stuck : root_stuck a → root_stuck r.1 ∧ length r.1 = length a
}.

(** The loop never reads the clock: the build has no OpenMP, or the run is
    neither verbose nor limited in time. *)
Definition no_clock (options : ComputeOptions) : Prop :=
  USE_OPENMP && (verbose options || (0 <=? max_time options)%float) = false.

End Vocabulary.

(** ** Vocabulary for the tree, the merge and the game *)

(** [r], found at position [i] of [l], has the greatest count in [l], and
    is the first with that count. *)
Definition first_most {A} (key : A → Z) (l : list A) (i : nat) (r : A) : Prop :=
  l !! i = Some r
  ∧ (∀ j y, l !! j = Some y → key y ≤ key r)
  ∧ (∀ j y, l !! j = Some y → (j < i)%nat → key y < key r).

Section TreeVocabulary.
Context {State Move : Type} `{GameState State Move}.

(** The visits of the children of [n], added up. *)
Definition children_visits (a : Arena Move) (n : Node.t Move) : Z :=
  total (map (visits_at a) (Node.children n)).

(** The visit that made a node stopped there; the root was not made by a
    visit. *)
Definition own_visits (i : nat) : Z := if decide (i = 0%nat) then 0 else 1.

(** Every node has the visits that made it, and at a node with an untried
    move or a child every later visit went on into exactly one child. *)
Definition visits_accounted (a : Arena Move) : Prop :=
  ∀ i n, a !! i = Some n →
    own_visits i ≤ Node.visits n
    ∧ (Node.moves n ≠ [] ∨ Node.children n ≠ [] →
       Node.visits n = own_visits i + children_visits a n).

(** The moves of [root_state] are shared out between the untried moves of
    the root and its children, each move as often as [get_moves] lists
    it. *)
Definition root_moves_split (root_state : State) (a : Arena Move) : Prop :=
  ∃ root, a !! 0%nat = Some root
    ∧ Node.moves root ++ map Node.move (root_children a) ≡ₚ get_moves root_state.

(** [c->move] read through the arena. *)
Definition move_at (a : Arena Move) (c : nat) : option Move := Node.move <$> a !! c.

(** The moves that lead from the root to a node, in the order played. *)
Inductive path_moves (a : Arena Move) : nat → list Move → Prop :=
| path_root : path_moves a 0%nat []
| path_child x n p ms :
    a !! x = Some n → Node.parent n = Some p → path_moves a p ms →
    path_moves a x (ms ++ [Node.move n]).

(** The position [ms] leads to. *)
Definition state_after (root_state : State) (ms : list Move) : State :=
  fold_left do_move ms root_state.

(** The tree is a part of the game tree of [root_state]: every node
    stores the player to move in the position its moves lead to, and the
    moves of that position are shared out between its untried moves and
    its children. *)
Definition game_tree (root_state : State) (a : Arena Move) : Prop :=
  ∀ x n ms, a !! x = Some n → path_moves a x ms →
    Node.player_to_move n = player_to_move (state_after root_state ms)
    ∧ Node.moves n ++ omap (move_at a) (Node.children n)
      ≡ₚ get_moves (state_after root_state ms).
End TreeVocabulary.

Section ClockVocabulary.
Context {C : Type} `{WallClock C}.

(** The clock after [j] readings, and what reading number [j] shows, the
    first being number 0. *)
Fixpoint clock_after (clock : C) (j : nat) : C :=
  match j with
  | O => clock
  | S j => (omp_get_wtime (clock_after clock j)).2
  end.

Definition reading (clock : C) (j : nat) : float :=
  (omp_get_wtime (clock_after clock j)).1.
End ClockVocabulary.

(** *** Gomoku positions *)

(** The cell [m] lies on a board of [rows] by [cols]. *)
Definition on_board (rows cols : Z) (m : Gomoku.Move) : Prop :=
  0 ≤ m.1 < rows ∧ 0 ≤ m.2 < cols.

(** What legal play keeps true of a position on a board of side [n]. *)
Record Gomoku_valid (n : Z) (s : Gomoku.State) : Prop := {
  gv_rows : Gomoku.num_rows s = n;
  gv_cols : Gomoku.num_cols s = n;
  gv_size : Gomoku.board_size s = n * n;
  gv_height : length (Gomoku.board s) = Z.to_nat n;
  gv_width : Forall (λ row, length row = Z.to_nat n) (Gomoku.board s);
  gv_player : Gomoku.player_to_move s = 1 ∨ Gomoku.player_to_move s = 2;
  gv_marks : ∀ r c, Gomoku.cell (Gomoku.board s) r c = Gomoku.player_markers 0
                    ∨ Gomoku.cell (Gomoku.board s) r c = Gomoku.player_markers 1
                    ∨ Gomoku.cell (Gomoku.board s) r c = Gomoku.player_markers 2;
  gv_nodup : NoDup (Gomoku.empty_places s);
  gv_empty : ∀ m, m ∈ Gomoku.empty_places s ↔
               on_board n n m ∧ Gomoku.cell (Gomoku.board s) m.1 m.2 = Gomoku.player_markers 0;
  gv_last : (Gomoku.last_row s = -1 ∧ Gomoku.last_col s = -1)
            ∨ (on_board n n (Gomoku.last_row s, Gomoku.last_col s)
               ∧ Gomoku.cell (Gomoku.board s) (Gomoku.last_row s) (Gomoku.last_col s)
                 = Gomoku.player_markers (3 - Gomoku.player_to_move s))
}.

(** [s] is reached from the empty board of side [n] by [k] legal moves. *)
Inductive played (n : Z) : nat → Gomoku.State → Prop :=
| played_init : played n 0%nat (Gomoku.init n)
| played_move k s m :
    played n k s → m ∈ Gomoku.get_moves s → played n (S k) (Gomoku.do_move s m).

(** The piece last played. *)
Definition last_piece (s : Gomoku.State) : ascii :=
  Gomoku.cell (Gomoku.board s) (Gomoku.last_row s) (Gomoku.last_col s).

(** The cell [t] steps from the last move in the direction [d] is on the
    board and holds the piece last played. *)
Definition in_line (s : Gomoku.State) (d : Z * Z) (t : Z) : Prop :=
  on_board (Gomoku.num_rows s) (Gomoku.num_cols s)
    (Gomoku.last_row s + t * d.1, Gomoku.last_col s + t * d.2)
  ∧ Gomoku.cell (Gomoku.board s) (Gomoku.last_row s + t * d.1) (Gomoku.last_col s + t * d.2)
    = last_piece s.

(** Five cells in a row in the direction [d], the last move among them. *)
Definition five_in_line (s : Gomoku.State) (d : Z * Z) : Prop :=
  ∃ k, 0 ≤ k < 5 ∧ ∀ j, 0 ≤ j < 5 → in_line s d (j - k).

(** Along a row, along a column, and along the two diagonals. *)
Definition directions : list (Z * Z) := [(0, 1); (1, 0); (1, 1); (1, -1)].

Definition five_through_last (s : Gomoku.State) : Prop :=
  ∃ d, d ∈ directions ∧ five_in_line s d.

(** ** Positions and runs for the examples *)

(** The default options with the four fields the search reads set. *)
Definition options_with (threads iterations : Z) (time : float) (talk : bool)
  : ComputeOptions := {|
  number_of_threads := threads;
  number_of_repeat := number_of_repeat default_options;
  iterations_param1 := iterations_param1 default_options;
  iterations_param2 := iterations_param2 default_options;
  max_iterations := iterations;
  top_n := top_n default_options;
  board_size := board_size default_options;
  max_time := time;
  verbose := talk;
  best_wins := best_wins default_options;
  best_visits := best_visits default_options;
  quit := quit default_options
|}.

(** A board of one cell, played: the game is over. *)
Definition full_board : Gomoku.State := Gomoku.do_move (Gomoku.init 1) (0, 0).

(** Five in the top row for player 1 on a board of side 5. *)
Definition top_row_won : Gomoku.State :=
  fold_left Gomoku.do_move
    [(0, 0); (1, 0); (0, 1); (1, 1); (0, 2); (1, 2); (0, 3); (1, 3); (0, 4)]
    (Gomoku.init 5).

(** The tree of six iterations on the empty board of side 2. *)
Definition six_iterations : outcome (Arena Gomoku.Move) :=
  compute_tree (H1 := openmp_build) 50 (Gomoku.init 2)
    (options_with 1 6 (-1)%float false) 42 0%float.

(** That tree, its root, and the merge of two such trees. *)
Definition six_tree : Arena Gomoku.Move :=
  Eval vm_compute in match six_iterations with Done a => a | _ => [] end.

Definition six_merged : Merged (Move := Gomoku.Move) :=
  Eval vm_compute in
    match merge_roots (State := Gomoku.State) Merged_empty [six_tree; six_tree] with
    | Done m => m
    | _ => Merged_empty
    end.

Definition six_root : Node.t Gomoku.Move :=
  Eval vm_compute in default (Node_root (Gomoku.init 2)) (six_tree !! 0%nat).

(** Two small maps as the merge could leave them. *)
Definition sample_visits : std_map Gomoku.Move Z := [((0, 0), 3); ((0, 1), 5); ((1, 1), 3)].
Definition sample_wins : std_map Gomoku.Move float :=
  [((0, 0), 2%float); ((0, 1), 2.5%float); ((1, 1), 2%float)].

(** The options of the run that built [six_tree], and the first child of
    its root. *)
Definition six_options : ComputeOptions := options_with 1 6 (-1)%float false.

Definition six_child : Node.t Gomoku.Move :=
  Eval vm_compute in default (Node_root (Gomoku.init 2)) (six_tree !! 1%nat).

(** The empty board of side 2 after two moves. *)
Definition two_moves : Gomoku.State :=
  Gomoku.do_move (Gomoku.do_move (Gomoku.init 2) (0, 0)) (1, 1).

(** * Properties *)

(** ** Outcomes *)

Lemma bind_Done {A B} (m : outcome A) (f : A → outcome B) (b : B) :
  m ≫= f = Done b ↔ ∃ a, m = Done a ∧ f a = Done b.
Proof.
  destruct m as [a| | |]; simpl; split.
  - intros Hf. exists a. split; [reflexivity|assumption].
  - intros (a' & Ha & Hf). injection Ha as <-. assumption.
  - discriminate.
  - intros (a' & Ha & _). discriminate.
  - discriminate.
  - intros (a' & Ha & _). discriminate.
  - discriminate.
  - intros (a' & Ha & _). discriminate.
Qed.

Lemma for_each_Done {A B} (f : A → outcome B) (g : A → B) (l : list A) :
  (∀ x, x ∈ l → f x = Done (g x)) → for_each f l = Done (map g l).
Proof.
  induction l as [|x l IH]; intros Hf; [reflexivity|].
  simpl. rewrite Hf by apply list_elem_of_here. simpl.
  rewrite IH; [reflexivity|]. intros y Hy. apply Hf. apply list_elem_of_further, Hy.
Qed.

(** ** The order of binary64 comparison *)

Ltac sf_compare_cases :=
  repeat match goal with
  | H : context [Z.compare ?a ?b] |- _ =>
      let H' := fresh in destruct (Z.compare_spec a b) as [H'|H'|H']
  | H : context [Pos.compare_cont Eq ?a ?b] |- _ =>
      let H' := fresh in
      change (Pos.compare_cont Eq a b) with (Pos.compare a b) in H;
      destruct (Pos.compare_spec a b) as [H'|H'|H']
  | |- context [Z.compare ?a ?b] =>
      let H' := fresh in destruct (Z.compare_spec a b) as [H'|H'|H']
  | |- context [Pos.compare_cont Eq ?a ?b] =>
      let H' := fresh in
      change (Pos.compare_cont Eq a b) with (Pos.compare a b);
      destruct (Pos.compare_spec a b) as [H'|H'|H']
  end.

Ltac sf_order x y z :=
  unfold SFltb, SFeqb, SFcompare;
  destruct x as [[]|[]| |[] ? ?], y as [[]|[]| |[] ? ?], z as [[]|[]| |[] ? ?];
  simpl; try congruence; intros; sf_compare_cases; simpl in *; subst;
  try congruence; try lia.

Lemma SFltb_trans (x y z : spec_float) :
  SFltb x y = true → SFltb y z = true → SFltb x z = true.
Proof. sf_order x y z. Qed.

Lemma SFltb_eqb_right (x y z : spec_float) :
  SFltb x z = true → SFeqb y z = true → SFltb x y = true.
Proof.
  unfold SFltb, SFeqb, SFcompare.
  destruct x as [[]|[]| |[] ? ?], y as [[]|[]| |[] ? ?], z as [[]|[]| |[] ? ?];
    simpl; try congruence; intros Hxz Hyz; sf_compare_cases; simpl in *; subst;
    try congruence; try lia.
Qed.

Lemma SFltb_irrefl (x : spec_float) : SFltb x x = false.
Proof.
  unfold SFltb, SFcompare.
  destruct x as [[]|[]| |[] ? ?]; try reflexivity;
    rewrite Z.compare_refl, Pos.compare_cont_refl; reflexivity.
Qed.

(** Two numbers are equal or one is less than the other. *)
Lemma SFcompare_numbers (x y : spec_float) :
  SFeqb x x = true → SFeqb y y = true →
  SFltb x y = true ∨ SFeqb x y = true ∨ SFltb y x = true.
Proof.
  unfold SFltb, SFeqb, SFcompare.
  destruct x as [[]|[]| |[] ? ?], y as [[]|[]| |[] ? ?];
    simpl; try congruence; intros _ _; sf_compare_cases; simpl in *; subst;
    auto; try lia.
Qed.

Lemma ltb_irrefl (x : float) : (x <? x)%float = false.
Proof. rewrite FloatAxioms.ltb_spec. apply SFltb_irrefl. Qed.

Lemma ltb_trans (x y z : float) :
  (x <? y)%float = true → (y <? z)%float = true → (x <? z)%float = true.
Proof. rewrite !FloatAxioms.ltb_spec. apply SFltb_trans. Qed.

Lemma ltb_eqb_right (x y z : float) :
  (x <? z)%float = true → (y =? z)%float = true → (x <? y)%float = true.
Proof. rewrite !FloatAxioms.ltb_spec, FloatAxioms.eqb_spec. apply SFltb_eqb_right. Qed.

Lemma compare_numbers (x y : float) :
  is_number x = true → is_number y = true →
  (x <? y)%float = true ∨ (x =? y)%float = true ∨ (y <? x)%float = true.
Proof.
  unfold is_number. rewrite !FloatAxioms.ltb_spec, !FloatAxioms.eqb_spec.
  apply SFcompare_numbers.
Qed.

Lemma SFltb_not_leb (x y : spec_float) : SFltb x y = true → SFleb y x = false.
Proof.
  unfold SFltb, SFleb, SFcompare.
  destruct x as [[]|[]| |[] ? ?], y as [[]|[]| |[] ? ?]; simpl; try congruence;
    intros; sf_compare_cases; simpl in *; subst; try congruence; try lia.
Qed.

Lemma ltb_not_leb (x y : float) : (x <? y)%float = true → (y <=? x)%float = false.
Proof. rewrite FloatAxioms.ltb_spec, FloatAxioms.leb_spec. apply SFltb_not_leb. Qed.

(** ** [std::max_element] returns the first greatest element *)

Section MaxElement.
Context {A : Type} (key : A → float).

Lemma max_element_from_first_greatest (l pre : list A) (i : nat) (cur : A) :
  first_greatest key pre i cur →
  ∃ i', first_greatest key (pre ++ l) i' (max_element_from (by_key key) cur l).
Proof.
  revert pre i cur. induction l as [|x l IH]; intros pre i cur Hcur.
  - exists i. rewrite app_nil_r. exact Hcur.
  - simpl. replace (pre ++ x :: l) with ((pre ++ [x]) ++ l)
      by (rewrite <- app_assoc; reflexivity).
    destruct Hcur as (Hi & Hmax & Hfirst).
    unfold by_key at 2. destruct (key cur <? key x)%float eqn:Hlt.
    + apply (IH (pre ++ [x]) (length pre)).
      split; [|split].
      * rewrite lookup_app_r by lia. rewrite Nat.sub_diag. reflexivity.
      * intros j y Hy. apply lookup_app_Some in Hy as [Hy|[_ Hy]].
        -- destruct (key x <? key y)%float eqn:Hxy; [|reflexivity].
           rewrite <- (Hmax j y Hy). symmetry. apply (ltb_trans _ _ _ Hlt Hxy).
        -- apply list_lookup_singleton_Some in Hy as [_ <-]. apply ltb_irrefl.
      * intros j y Hy Hj. rewrite lookup_app_l in Hy by lia.
        destruct (key y =? key x)%float eqn:Hyx; [|reflexivity].
        rewrite <- (Hmax j y Hy). symmetry. apply (ltb_eqb_right _ _ _ Hlt Hyx).
    + apply (IH (pre ++ [x]) i).
      split; [|split].
      * apply lookup_app_l_Some, Hi.
      * intros j y Hy. apply lookup_app_Some in Hy as [Hy|[_ Hy]]; [eauto|].
        apply list_lookup_singleton_Some in Hy as [_ <-]. exact Hlt.
      * intros j y Hy Hj. apply Hfirst with j; [|assumption].
        rewrite lookup_app_l in Hy; [assumption|].
        apply lookup_lt_Some in Hi. lia.
Qed.

Lemma max_element_first_greatest (x : A) (l : list A) :
  ∃ i, first_greatest key (x :: l) i (max_element_from (by_key key) x l).
Proof.
  apply (max_element_from_first_greatest l [x] 0%nat x).
  split; [reflexivity|split].
  - intros j y Hy. apply list_lookup_singleton_Some in Hy as [_ <-]. apply ltb_irrefl.
  - intros j y _ Hj. lia.
Qed.

(** Among numbers, the elements before the first greatest are strictly
    smaller. *)
Lemma first_greatest_numbers (l : list A) (i j : nat) (r y : A) :
  first_greatest key l i r → l !! j = Some y → (j < i)%nat →
  is_number (key y) = true → is_number (key r) = true →
  (key y <? key r)%float = true.
Proof.
  intros (_ & Hmax & Hfirst) Hy Hj Hny Hnr.
  destruct (compare_numbers (key y) (key r) Hny Hnr) as [Hlt|[Heq|Hgt]].
  - exact Hlt.
  - rewrite (Hfirst j y Hy Hj) in Heq. discriminate.
  - rewrite (Hmax j y Hy) in Hgt. discriminate.
Qed.
End MaxElement.

(** ** UCT selection *)

Section UCTSelection.
Context `{Platform} {Move : Type}.

Lemma select_child_UCT_scores (a : Arena Move) (this : Node.t Move) :
  (∀ c, c ∈ Node.children this → is_Some (a !! c)) →
  for_each (λ c, n ← deref a c; Done (c, UCT_score this n)) (Node.children this)
  = Done (map (λ c, (c, UCT_score this (default this (a !! c)))) (Node.children this)).
Proof.
  intros Hok. apply for_each_Done. intros c Hc.
  destruct (Hok c Hc) as [n Hn]. unfold deref, at_index. rewrite Hn. reflexivity.
Qed.

(** C8.  On a node with at least one child, all its children visited,
    [select_child_UCT] returns a child whose score
    [wins / visits + sqrt (2 * log (this.visits) / visits)] is greatest, and
    the first such in insertion order: no child has a greater score, and no
    child before it has an equal score, so that every child before it whose
    score is a number scores strictly less. *)
Theorem select_child_UCT_first_greatest (a : Arena Move) (this : Node.t Move) :
  Node.children this ≠ [] →
  (∀ c, c ∈ Node.children this → ∃ n, a !! c = Some n ∧ 0 < Node.visits n) →
  (∀ child : Node.t Move,
      UCT_score this child
      = (Node.wins child / double_of_int (Node.visits child)
         + PrimFloat.sqrt (2 * std_log (double_of_int (Node.visits this))
                           / double_of_int (Node.visits child)))%float)
  ∧ ∃ i c n,
      select_child_UCT a this = Done c
      ∧ Node.children this !! i = Some c
      ∧ a !! c = Some n
      ∧ ∀ j c' n', Node.children this !! j = Some c' → a !! c' = Some n' →
          (UCT_score this n <? UCT_score this n')%float = false
          ∧ ((j < i)%nat →
             (UCT_score this n' =? UCT_score this n)%float = false
             ∧ (is_number (UCT_score this n') = true →
                is_number (UCT_score this n) = true →
                (UCT_score this n' <? UCT_score this n)%float = true)).
Proof.
  intros Hne Hch. split; [reflexivity|].
  unfold select_child_UCT.
  rewrite select_child_UCT_scores
    by (intros c Hc; destruct (Hch c Hc) as (n & Hn & _); eauto).
  set (g := λ c : nat, (c, UCT_score this (default this (a !! c)))).
  destruct (Node.children this) as [|c0 cs] eqn:Hcs; [congruence|].
  simpl.
  destruct (max_element_first_greatest snd (g c0) (map g cs)) as (i & Hfg).
  change (max_element_from (λ x y, (x.2 <? y.2)%float) (g c0) (map g cs))
    with (max_element_from (by_key snd) (g c0) (map g cs)).
  change (g c0 :: map g cs) with (map g (c0 :: cs)) in Hfg.
  destruct (max_element_from (by_key snd) (g c0) (map g cs)) as [c s] eqn:Hr.
  pose proof Hfg as (Hi & Hmax & Hfirst).
  rewrite list_lookup_fmap in Hi.
  destruct ((c0 :: cs) !! i) as [c1|] eqn:Hci; [|discriminate].
  simpl in Hi. injection Hi as <- Hs.
  destruct (Hch c1 (list_elem_of_lookup_2 _ _ _ Hci)) as (n & Hn & _).
  rewrite Hn in Hs. simpl in Hs. subst s.
  exists i, c1, n. split; [reflexivity|]. split; [assumption|]. split; [assumption|].
  intros j c' n' Hj Hn'.
  assert (map g (c0 :: cs) !! j = Some (c', UCT_score this n')) as Hgj.
  { rewrite list_lookup_fmap, Hj. simpl. unfold g. rewrite Hn'. reflexivity. }
  split; [apply (Hmax j _ Hgj)|].
  intros Hlt. split; [apply (Hfirst j _ Hgj Hlt)|].
  intros Hny Hnr. apply (first_greatest_numbers snd _ _ _ _ _ Hfg Hgj Hlt Hny Hnr).
Qed.
End UCTSelection.

(** ** Final selection *)

Section FinalSelection.
Context {State Move : Type} `{GameState State Move}.

Lemma select_loop_max_element (wins : std_map Move float) (visits : std_map Move Z)
    (best : Move * float) :
  fold_left (select_step wins) visits best
  = max_element_from (by_key snd) best (map (λ itr, (itr.1, entry_rate wins itr)) visits).
Proof.
  revert best. induction visits as [|itr visits IH]; intros best; [reflexivity|].
  simpl. rewrite IH. reflexivity.
Qed.

(** While no rate exceeds [best_score], the loop keeps its first choice. *)
Lemma select_loop_keeps (wins : std_map Move float) (visits : std_map Move Z)
    (best : Move * float) :
  (∀ itr, itr ∈ visits → (best.2 <? entry_rate wins itr)%float = false) →
  fold_left (select_step wins) visits best = best.
Proof.
  induction visits as [|itr visits IH]; intros Hall; [reflexivity|].
  simpl. unfold select_step at 2. fold (entry_rate wins itr).
  rewrite (Hall itr) by apply list_elem_of_here.
  apply IH. intros itr' Hitr'. apply Hall, list_elem_of_further, Hitr'.
Qed.

(** With no rate above the initial [-1], and so on an empty map, the
    selection returns the default-constructed move. *)
Lemma select_best_default (visits : std_map Move Z) (wins : std_map Move float) :
  (∀ itr, itr ∈ visits → ((-1) <? entry_rate wins itr)%float = false) →
  select_best visits wins = Move_default.
Proof.
  intros Hall. unfold select_best. rewrite select_loop_keeps; [reflexivity|exact Hall].
Qed.

(** C7.  As soon as one entry of the [visits] map has an expected success
    rate [(wins + 1) / (visits + 2)] above the initial [-1] (all have, for
    counts that are not negative), the selection returns the move of an
    entry with the greatest rate, the first such in the iteration order of
    the map: no entry has a greater rate and no entry before it has an equal
    rate.  The choice is a function of the two maps alone. *)
Theorem select_best_first_greatest (visits : std_map Move Z) (wins : std_map Move float)
    (itr0 : Move * Z) :
  itr0 ∈ visits → ((-1) <? entry_rate wins itr0)%float = true →
  (∀ w v, expected_success_rate w v = ((w + 1) / (v + 2))%float)
  ∧ (∀ visits' wins', visits' = visits → wins' = wins →
       select_best visits' wins' = select_best visits wins)
  ∧ ∃ i itr,
      visits !! i = Some itr
      ∧ select_best visits wins = itr.1
      ∧ ∀ j itr', visits !! j = Some itr' →
          (entry_rate wins itr <? entry_rate wins itr')%float = false
          ∧ ((j < i)%nat → (entry_rate wins itr' =? entry_rate wins itr)%float = false).
Proof.
  intros Hin0 Hrate0. split; [reflexivity|]. split; [intros ? ? -> ->; reflexivity|].
  unfold select_best. rewrite select_loop_max_element.
  set (g := λ itr : Move * Z, (itr.1, entry_rate wins itr)).
  set (init := (Move_default, (-1)%float)).
  destruct (max_element_first_greatest snd init (map g visits)) as (i & Hi & Hmax & Hfirst).
  destruct i as [|i].
  - exfalso.
    apply list_elem_of_lookup_1 in Hin0 as [k Hk].
    assert ((init :: map g visits) !! S k = Some (g itr0)) as Hg.
    { change (map g visits !! k = Some (g itr0)).
      rewrite list_lookup_fmap, Hk. reflexivity. }
    specialize (Hmax _ _ Hg). simpl in Hi. injection Hi as Hi. rewrite <- Hi in Hmax.
    simpl in Hmax. rewrite Hrate0 in Hmax. discriminate.
  - simpl in Hi. rewrite list_lookup_fmap in Hi.
    destruct (visits !! i) as [itr|] eqn:Hitr; [|discriminate].
    simpl in Hi. injection Hi as Hi.
    exists i, itr. split; [exact Hitr|]. rewrite <- Hi in *. split; [reflexivity|].
    intros j itr' Hj.
    assert ((init :: map g visits) !! S j = Some (g itr')) as Hgj.
    { change (map g visits !! j = Some (g itr')).
      rewrite list_lookup_fmap, Hj. reflexivity. }
    split.
    + apply (Hmax _ _ Hgj).
    + intros Hlt. apply (Hfirst _ _ Hgj). lia.
Qed.
End FinalSelection.

(** ** [std::map]: reading after [operator[]] updates *)

Section StdMapFacts.
Context {K V : Type} (lt : K → K → bool).
Hypothesis lt_irrefl : ∀ a, lt a a = false.
Hypothesis lt_trans : ∀ a b c, lt a b = true → lt b c = true → lt a c = true.
Hypothesis lt_total : ∀ a b, lt a b = false → lt b a = false → a = b.

Lemma map_find_below (m : std_map K V) (k : K) :
  (∀ e, e ∈ m → lt k e.1 = true) → map_find lt m k = None.
Proof.
  induction m as [|[k' v] m IH]; intros Hall; [reflexivity|].
  pose proof (Hall (k', v) (list_elem_of_here _ _)) as Hk. simpl in Hk.
  simpl. rewrite Hk. simpl.
  apply IH. intros e He. apply Hall. apply list_elem_of_further, He.
Qed.

Lemma map_modify_keys (m : std_map K V) (k : K) (dflt : V) (f : V → V) (e : K * V) :
  e ∈ map_modify lt m k dflt f → e.1 = k ∨ ∃ e', e' ∈ m ∧ e'.1 = e.1.
Proof.
  revert e. induction m as [|[k' v] m IH]; intros e; simpl.
  - intros He. apply list_elem_of_singleton in He as ->. left. reflexivity.
  - destruct (lt k k') eqn:Hkk'; [|destruct (lt k' k) eqn:Hk'k].
    + intros He. apply elem_of_cons in He as [->|He]; [left; reflexivity|].
      right. exists e. split; [assumption|reflexivity].
    + intros He. apply elem_of_cons in He as [->|He].
      * right. exists (k', v). split; [apply list_elem_of_here|reflexivity].
      * destruct (IH e He) as [Hk|(e' & He' & Hk)]; [left; assumption|].
        right. exists e'. split; [apply list_elem_of_further, He'|assumption].
    + intros He. apply elem_of_cons in He as [->|He].
      * right. exists (k', v). split; [apply list_elem_of_here|reflexivity].
      * right. exists e. split; [apply list_elem_of_further, He|reflexivity].
Qed.

Lemma map_modify_sorted (m : std_map K V) (k : K) (dflt : V) (f : V → V) :
  keys_sorted lt m → keys_sorted lt (map_modify lt m k dflt f).
Proof.
  induction 1 as [|k' v m Hm IH Hall]; simpl.
  - constructor; [constructor|]. intros e He. inversion He.
  - destruct (lt k k') eqn:Hkk'; [|destruct (lt k' k) eqn:Hk'k].
    + constructor; [constructor; assumption|].
      intros e He. apply elem_of_cons in He as [->|He]; [assumption|].
      apply lt_trans with k'; [assumption|]. apply Hall, He.
    + constructor; [assumption|].
      intros e He. apply map_modify_keys in He as [->|(e' & He' & <-)]; [assumption|].
      apply Hall, He'.
    + constructor; assumption.
Qed.

Lemma map_find_modify_same (m : std_map K V) (k : K) (dflt : V) (f : V → V) :
  keys_sorted lt m →
  map_find lt (map_modify lt m k dflt f) k = Some (f (map_get lt m k dflt)).
Proof.
  unfold map_get. induction 1 as [|k' v m Hm IH Hall]; simpl.
  - rewrite lt_irrefl. reflexivity.
  - destruct (lt k k') eqn:Hkk'; [|destruct (lt k' k) eqn:Hk'k]; simpl.
    + rewrite lt_irrefl. simpl.
      rewrite map_find_below; [reflexivity|].
      intros e He. apply lt_trans with k'; [assumption|]. apply Hall, He.
    + rewrite Hkk', Hk'k. simpl. exact IH.
    + rewrite Hkk', Hk'k. reflexivity.
Qed.

Lemma map_find_modify_other (m : std_map K V) (k k2 : K) (dflt : V) (f : V → V) :
  k2 ≠ k → map_find lt (map_modify lt m k dflt f) k2 = map_find lt m k2.
Proof.
  intros Hne.
  assert (lt k2 k || lt k k2 = true) as Hor.
  { destruct (lt k2 k) eqn:H1; [reflexivity|]. destruct (lt k k2) eqn:H2; [reflexivity|].
    exfalso. apply Hne. apply lt_total; assumption. }
  induction m as [|[k' v] m IH]; simpl.
  - rewrite Hor. reflexivity.
  - destruct (lt k k') eqn:Hkk'; [|destruct (lt k' k) eqn:Hk'k]; simpl.
    + rewrite Hor. reflexivity.
    + rewrite IH. reflexivity.
    + assert (k = k') as <- by (apply lt_total; assumption).
      rewrite Hor. reflexivity.
Qed.

Lemma map_get_modify `{EqDecision K} (m : std_map K V) (k k2 : K) (dflt : V) (f : V → V) :
  keys_sorted lt m →
  map_get lt (map_modify lt m k dflt f) k2 dflt
  = if decide (k = k2) then f (map_get lt m k dflt) else map_get lt m k2 dflt.
Proof.
  intros Hm. destruct (decide (k = k2)) as [<-|Hne].
  - unfold map_get at 1. rewrite map_find_modify_same by assumption. reflexivity.
  - unfold map_get. rewrite map_find_modify_other by congruence. reflexivity.
Qed.
End StdMapFacts.

(** ** Merging the roots *)

Section Merge.
Context {State Move : Type} `{GameState State Move}.

Lemma fold_visits_from (ns : list (Node.t Move)) (s : Z) :
  fold_left (λ s n, s + Node.visits n) ns s = s + sum_visits ns.
Proof.
  unfold sum_visits. revert s. induction ns as [|n ns IH]; intros s; simpl; [lia|].
  rewrite IH. rewrite (IH (0 + Node.visits n)). lia.
Qed.

Lemma fold_root_visits_from (roots : list (Arena Move)) (y : Z) :
  fold_left (λ s tree, s + root_visits tree) roots y
  = y + fold_left (λ s tree, s + root_visits tree) roots 0.
Proof.
  revert y. induction roots as [|t roots IH]; intros y; simpl; [lia|].
  rewrite IH, (IH (0 + root_visits t)). lia.
Qed.

Lemma deref_Some (a : Arena Move) (p : nat) (n : Node.t Move) :
  a !! p = Some n → deref a p = Done n.
Proof. intros Hp. unfold deref, at_index. rewrite Hp. reflexivity. Qed.

Lemma for_each_deref (tree : Arena Move) (cs : list nat) :
  (∀ c, c ∈ cs → is_Some (tree !! c)) →
  for_each (deref tree) cs = Done (omap (λ c, tree !! c) cs).
Proof.
  induction cs as [|c cs IH]; intros Hok; [reflexivity|].
  destruct (Hok c (list_elem_of_here _ _)) as [n Hn].
  cbn [for_each].
  rewrite IH by (intros c' Hc'; apply Hok, list_elem_of_further, Hc').
  rewrite (deref_Some _ _ _ Hn). simpl. rewrite Hn. reflexivity.
Qed.

Lemma merge_children_sums (ns : list (Node.t Move))
    (v : std_map Move Z) (w : std_map Move float) :
  keys_sorted Move_lt v → keys_sorted Move_lt w →
  keys_sorted Move_lt (fold_left merge_child ns (v, w)).1
  ∧ keys_sorted Move_lt (fold_left merge_child ns (v, w)).2
  ∧ ∀ m,
      map_get Move_lt (fold_left merge_child ns (v, w)).1 m 0
      = map_get Move_lt v m 0 + sum_visits (with_move m ns)
      ∧ map_get Move_lt (fold_left merge_child ns (v, w)).2 m 0%float
        = sum_wins_from (map_get Move_lt w m 0%float) (with_move m ns).
Proof.
  revert v w. induction ns as [|n ns IH]; intros v w Hv Hw.
  - simpl. split; [assumption|]. split; [assumption|]. intros m.
    unfold sum_visits. simpl. split; [lia|reflexivity].
  - simpl. unfold merge_child at 2 4 6 8. simpl.
    pose proof (map_modify_sorted Move_lt Move_lt_trans v (Node.move n) 0
                  (λ x, x + Node.visits n) Hv) as Hv'.
    pose proof (map_modify_sorted Move_lt Move_lt_trans w (Node.move n) 0%float
                  (λ x, (x + Node.wins n)%float) Hw) as Hw'.
    destruct (IH _ _ Hv' Hw') as (Hsv & Hsw & Hsum).
    split; [assumption|]. split; [assumption|]. intros m.
    destruct (Hsum m) as [Hvm Hwm]. rewrite Hvm, Hwm.
    rewrite !(map_get_modify Move_lt Move_lt_irrefl Move_lt_trans Move_lt_total)
      by assumption.
    unfold with_move.
    destruct (decide (Node.move n = m)) as [Heq|Hne].
    + rewrite filter_cons_True by assumption. subst m.
      split; [|reflexivity].
      unfold sum_visits at 2. simpl. rewrite fold_visits_from. lia.
    + rewrite filter_cons_False by assumption. split; reflexivity.
Qed.

Lemma merge_roots_sums_from (roots : list (Arena Move)) (acc : Merged) :
  Forall root_readable roots →
  keys_sorted Move_lt (m_visits acc) → keys_sorted Move_lt (m_wins acc) →
  ∃ merged,
    merge_roots acc roots = Done merged
    ∧ (∀ m, map_get Move_lt (m_visits merged) m 0
            = map_get Move_lt (m_visits acc) m 0 + sum_visits (all_with_move m roots))
    ∧ (∀ m, map_get Move_lt (m_wins merged) m 0%float
            = sum_wins_from (map_get Move_lt (m_wins acc) m 0%float) (all_with_move m roots))
    ∧ m_games_played merged
      = m_games_played acc + fold_left (λ s tree, s + root_visits tree) roots 0.
Proof.
  intros Hroots. revert acc.
  induction Hroots as [|tree roots (root & Hroot & Hch) Hrest IH]; intros acc Hv Hw.
  - exists acc. split; [reflexivity|]. unfold all_with_move, with_move, sum_visits. simpl.
    split; [intros m; lia|]. split; [intros m; reflexivity|lia].
  - cbn [merge_roots]. unfold merge_root. rewrite (deref_Some _ _ _ Hroot).
    cbn [mbind outcome_bind]. rewrite for_each_deref by assumption.
    cbn [mbind outcome_bind fst snd].
    set (ns := omap (λ c, tree !! c) (Node.children root)).
    destruct (merge_children_sums ns _ _ Hv Hw) as (Hv' & Hw' & Hsum).
    destruct (IH {| m_visits := (fold_left merge_child ns (m_visits acc, m_wins acc)).1;
                    m_wins := (fold_left merge_child ns (m_visits acc, m_wins acc)).2;
                    m_games_played := m_games_played acc + Node.visits root |} Hv' Hw')
      as (merged & Hrun & Hmv & Hmw & Hg).
    exists merged. split; [exact Hrun|]. simpl in Hmv, Hmw, Hg.
    assert (root_children tree = ns) as Hrc by (unfold root_children; rewrite Hroot; reflexivity).
    assert (∀ m, all_with_move m (tree :: roots) = with_move m ns ++ all_with_move m roots) as Happ.
    { intros m. unfold all_with_move, with_move. simpl. rewrite Hrc. apply filter_app. }
    split; [|split].
    + intros m. rewrite Hmv, Happ. destruct (Hsum m) as [-> _].
      unfold sum_visits at 3. rewrite fold_left_app. rewrite fold_visits_from.
      fold (sum_visits (with_move m ns)). lia.
    + intros m. rewrite Hmw, Happ. destruct (Hsum m) as [_ ->].
      unfold sum_wins_from. rewrite fold_left_app. reflexivity.
    + rewrite Hg. cbn [fold_left]. rewrite (fold_root_visits_from roots (0 + _)).
      assert (root_visits tree = Node.visits root) as ->
        by (unfold root_visits; rewrite Hroot; reflexivity).
      lia.
Qed.

(** After the merge of readable trees, the entry of each move in [visits]
    is the sum over all roots of the visit counts of the root's children
    with that move, its entry in [wins] is the sum of their win totals (no
    child, no contribution), and [games_played] is the sum of the roots'
    visit counts. *)
Lemma merge_roots_readable_sums (roots : list (Arena Move)) :
  Forall root_readable roots →
  ∃ merged,
    merge_roots Merged_empty roots = Done merged
    ∧ (∀ m, map_get Move_lt (m_visits merged) m 0
            = fold_left (λ s tree, s + sum_visits (with_move m (root_children tree))) roots 0)
    ∧ (∀ m, map_get Move_lt (m_wins merged) m 0%float = sum_wins (all_with_move m roots))
    ∧ m_games_played merged = fold_left (λ s tree, s + root_visits tree) roots 0.
Proof.
  intros Hroots.
  destruct (merge_roots_sums_from roots Merged_empty Hroots) as (merged & Hrun & Hv & Hw & Hg);
    [constructor|constructor|].
  exists merged. split; [exact Hrun|]. split; [|split].
  - intros m. rewrite Hv. unfold map_get. simpl. clear.
    unfold all_with_move.
    assert (∀ y, y + sum_visits (with_move m (concat (map root_children roots)))
                 = fold_left (λ s tree, s + sum_visits (with_move m (root_children tree))) roots y)
      as Hgen; [|apply (Hgen 0)].
    induction roots as [|t roots IH]; intros y; simpl.
    + unfold with_move, sum_visits. simpl. lia.
    + rewrite <- IH. unfold with_move. rewrite filter_app.
      unfold sum_visits at 1. rewrite fold_left_app, fold_visits_from.
      fold (sum_visits (filter (λ n, Node.move n = m) (root_children t))). lia.
  - intros m. rewrite Hw. reflexivity.
  - rewrite Hg. simpl. lia.
Qed.
End Merge.

(** ** The shape of a search tree *)

Section TreeShape.
Context {Move : Type}.

Lemma wf_parents_below (a : Arena Move) : wf_tree a → parents_below a.
Proof.
  intros Hwf i p. unfold parent_of.
  destruct (a !! i) as [n|] eqn:Hi; [|discriminate].
  intros Hp. destruct i as [|i].
  - destruct (wf_root a Hwf) as (r & Hr & Hnone). congruence.
  - destruct (wf_parent a Hwf (S i) n Hi) as (p' & pn & Hp' & Hlt & _); [lia|].
    congruence.
Qed.

Lemma on_path_le (a : Arena Move) (x i : nat) :
  parents_below a → on_path a x i → (i ≤ x)%nat.
Proof.
  intros Hpb. induction 1 as [x|x p i Hp _ IH]; [lia|].
  specialize (Hpb x p Hp). lia.
Qed.

Lemma on_path_inv (a : Arena Move) (x i : nat) :
  on_path a x i → i = x ∨ ∃ p, parent_of a x = Some p ∧ on_path a p i.
Proof. destruct 1 as [x|x p i Hp Hi]; [left; reflexivity|right; eauto]. Qed.

Lemma on_path_root (a : Arena Move) (x : nat) :
  wf_tree a → (x < length a)%nat → on_path a x 0%nat.
Proof.
  intros Hwf. induction x as [x IH] using lt_wf_ind. intros Hx.
  destruct x as [|x]; [constructor|].
  destruct (lookup_lt_is_Some_2 _ _ Hx) as [n Hn].
  destruct (wf_parent a Hwf (S x) n Hn) as (p & pn & Hp & Hlt & Hpn & _); [lia|].
  apply on_path_up with p.
  - unfold parent_of. rewrite Hn. exact Hp.
  - apply IH; [assumption|]. apply lookup_lt_Some in Hpn. exact Hpn.
Qed.

(** A walk from a node other than the root passes through exactly one child
    of the root. *)
Lemma on_path_root_child (a : Arena Move) (root : Node.t Move) (x : nat) :
  wf_tree a → a !! 0%nat = Some root → (x < length a)%nat → (0 < x)%nat →
  ∃ c, c ∈ Node.children root ∧ on_path a x c
       ∧ ∀ c', c' ∈ Node.children root → on_path a x c' → c' = c.
Proof.
  intros Hwf Hroot. induction x as [x IH] using lt_wf_ind. intros Hx Hpos.
  destruct (lookup_lt_is_Some_2 _ _ Hx) as [n Hn].
  destruct (wf_parent a Hwf x n Hn Hpos) as (p & pn & Hp & Hlt & Hpn & Hin).
  assert (parent_of a x = Some p) as Hpx by (unfold parent_of; rewrite Hn; exact Hp).
  destruct p as [|p].
  - assert (pn = root) as -> by congruence.
    exists x. split; [assumption|]. split; [constructor|].
    intros c' Hc' Hpath. apply on_path_inv in Hpath as [->|(p' & Hp' & Hpath)]; [reflexivity|].
    rewrite Hpx in Hp'. injection Hp' as <-.
    apply (on_path_le _ _ _ (wf_parents_below a Hwf)) in Hpath.
    destruct (wf_children a Hwf 0%nat root c' Hroot Hc') as [Hlt' _]. lia.
  - destruct (IH (S p) Hlt) as (c & Hc & Hpath & Huniq); [|lia|].
    { apply lookup_lt_Some in Hpn. exact Hpn. }
    exists c. split; [assumption|]. split; [apply on_path_up with (S p); assumption|].
    intros c' Hc' Hpath'. apply on_path_inv in Hpath' as [->|(p' & Hp' & Hpath')].
    + destruct (wf_children a Hwf 0%nat root x Hroot Hc') as [_ (cn & Hcn & Hpar)].
      congruence.
    + rewrite Hpx in Hp'. injection Hp' as <-. apply Huniq; assumption.
Qed.
End TreeShape.

(** ** The steps of one iteration *)

Lemma done_or_short_Done {A} (o : outcome A) (P : A → Prop) (short : Prop) (r : A) :
  done_or_short o P short → o = Done r → P r.
Proof. intros [(r' & -> & Hr)|[-> _]] Heq; [congruence|discriminate]. Qed.

Lemma done_or_short_enough {A} (o : outcome A) (P : A → Prop) (short : Prop) :
  done_or_short o P short → ¬ short → ∃ r, o = Done r ∧ P r.
Proof. intros [Hdone|[_ Hs]] Hns; [exact Hdone|contradiction]. Qed.

Lemma max_element_from_in {A} (comp : A → A → bool) (x : A) (l : list A) :
  max_element_from comp x l ∈ x :: l.
Proof.
  revert x. induction l as [|y l IH]; intros x; simpl; [apply list_elem_of_here|].
  specialize (IH (if comp x y then y else x)).
  apply elem_of_cons in IH as [->|IH].
  - destruct (comp x y); [apply list_elem_of_further|]; apply list_elem_of_here.
  - do 2 apply list_elem_of_further. exact IH.
Qed.

Lemma same_shape_lookup {Move} (a a' : Arena Move) (i : nat) (n' : Node.t Move) :
  same_shape a a' → a' !! i = Some n' →
  ∃ n, a !! i = Some n ∧ Node.parent n = Node.parent n' ∧ Node.children n = Node.children n'.
Proof.
  intros Hs Hi. specialize (Hs i). rewrite Hi in Hs. simpl in Hs.
  destruct (a !! i) as [n|]; [|discriminate].
  simpl in Hs. injection Hs as Hp Hc. exists n. split; [reflexivity|split; congruence].
Qed.

Lemma same_shape_sym {Move} (a a' : Arena Move) : same_shape a a' → same_shape a' a.
Proof. intros Hs i. symmetry. apply Hs. Qed.

Lemma wf_same_shape {Move} (a a' : Arena Move) : same_shape a a' → wf_tree a → wf_tree a'.
Proof.
  intros Hs Hwf.
  pose proof (same_shape_sym _ _ Hs) as Hs'.
  split.
  - destruct (wf_root a Hwf) as (r & Hr & Hnone).
    destruct (same_shape_lookup _ _ _ _ Hs' Hr) as (r' & Hr' & Hp & _).
    exists r'. split; [assumption|congruence].
  - intros i n' Hi Hpos.
    destruct (same_shape_lookup _ _ _ _ Hs Hi) as (n & Hn & Hp & _).
    destruct (wf_parent a Hwf i n Hn Hpos) as (p & pn & Hpar & Hlt & Hpn & Hin).
    destruct (same_shape_lookup _ _ _ _ Hs' Hpn) as (pn' & Hpn' & _ & Hc).
    exists p, pn'. split; [congruence|]. split; [assumption|]. split; [assumption|].
    rewrite Hc. exact Hin.
  - intros p pn' c Hp Hc.
    destruct (same_shape_lookup _ _ _ _ Hs Hp) as (pn & Hpn & _ & Hch).
    rewrite <- Hch in Hc.
    destruct (wf_children a Hwf p pn c Hpn Hc) as (Hlt & cn & Hcn & Hpar).
    destruct (same_shape_lookup _ _ _ _ Hs' Hcn) as (cn' & Hcn' & Hpar' & _).
    split; [assumption|]. exists cn'. split; [assumption|congruence].
  - intros p pn' Hp.
    destruct (same_shape_lookup _ _ _ _ Hs Hp) as (pn & Hpn & _ & Hch).
    rewrite <- Hch. apply (wf_nodup a Hwf p pn Hpn).
Qed.

Lemma same_shape_parent_of {Move} (a a' : Arena Move) (i : nat) :
  same_shape a a' → parent_of a' i = parent_of a i.
Proof.
  intros Hs. specialize (Hs i). unfold parent_of.
  destruct (a' !! i), (a !! i); simpl in Hs; congruence.
Qed.

Lemma same_shape_on_path {Move} (a a' : Arena Move) (x i : nat) :
  same_shape a a' → on_path a x i → on_path a' x i.
Proof.
  intros Hs. induction 1 as [x|x p i Hp _ IH]; [constructor|].
  apply on_path_up with p; [|exact IH]. rewrite (same_shape_parent_of _ _ _ Hs). exact Hp.
Qed.

Section TreeSteps.
Context {E C State Move : Type}.
Context `{RandomEngine E} `{WallClock C} `{Platform} `{GameState State Move}.

Lemma wf_tree_root (state : State) : wf_tree [Node_root state].
Proof.
  split.
  - exists (Node_root state). split; reflexivity.
  - intros [|i] n Hi Hpos; [lia|]. discriminate.
  - intros [|p] pn c Hp Hc; [|discriminate].
    injection Hp as <-. simpl in Hc. inversion Hc.
  - intros [|p] pn Hp; [|discriminate]. injection Hp as <-. simpl. constructor.
Qed.

Lemma select_child_UCT_in (a : Arena Move) (p : nat) (n : Node.t Move) :
  wf_tree a → a !! p = Some n → has_children n = true →
  ∃ c cn, select_child_UCT a n = Done c ∧ c ∈ Node.children n
          ∧ (p < c)%nat ∧ a !! c = Some cn.
Proof.
  intros Hwf Hp Hch.
  assert (∀ c, c ∈ Node.children n → is_Some (a !! c)) as Hok.
  { intros c Hc. destruct (wf_children a Hwf p n c Hp Hc) as (_ & cn & Hcn & _). eauto. }
  unfold select_child_UCT. rewrite select_child_UCT_scores by assumption.
  unfold has_children in Hch.
  destruct (Node.children n) as [|c0 cs] eqn:Hcs; [discriminate|].
  set (g := λ c : nat, (c, UCT_score n (default n (a !! c)))).
  simpl.
  pose proof (max_element_from_in (λ x y, (x.2 <? y.2)%float) (g c0) (map g cs)) as Hin.
  destruct (max_element_from _ (g c0) (map g cs)) as [c s].
  change (g c0 :: map g cs) with (map g (c0 :: cs)) in Hin.
  apply list_elem_of_fmap in Hin as (c' & Heq & Hc').
  injection Heq as -> _.
  rewrite <- Hcs in Hc'.
  destruct (wf_children a Hwf p n c' Hp Hc') as (Hlt & cn & Hcn & _).
  exists c', cn. rewrite Hcs in Hc'. repeat split; assumption.
Qed.

(** The descent stops at a node of the tree, at or after its start, that
    has an untried move or no child; the budget is short only when it is
    less than the nodes left. *)
Lemma select_leaf_spec (fuel : nat) (a : Arena Move) (node : nat) (state : State) :
  wf_tree a → (node < length a)%nat →
  done_or_short (select_leaf fuel a node state)
    (λ r, (node ≤ r.1)%nat
          ∧ (∃ n, a !! r.1 = Some n ∧ (has_untried_moves n = true ∨ has_children n = false))
          ∧ (moves_left r.2 ≤ moves_left state)%nat)
    (fuel + node < length a)%nat.
Proof.
  intros Hwf. revert node state.
  induction fuel as [|fuel IH]; intros node state Hnode;
    destruct (lookup_lt_is_Some_2 _ _ Hnode) as [n Hn]; simpl;
    rewrite (deref_Some _ _ _ Hn); simpl;
    destruct (negb (has_untried_moves n) && has_children n) eqn:Hcond.
  - right. split; [reflexivity|lia].
  - left. exists (node, state). split; [reflexivity|]. simpl.
    split; [lia|]. split; [|lia]. exists n. split; [assumption|].
    destruct (has_untried_moves n); [left; reflexivity|simpl in Hcond; right; exact Hcond].
  - apply andb_true_iff in Hcond as [_ Hch].
    destruct (select_child_UCT_in a node n Hwf Hn Hch) as (c & cn & -> & _ & Hlt & Hcn).
    simpl. rewrite (deref_Some _ _ _ Hcn). simpl.
    destruct (IH c (do_move state (Node.move cn)) (lookup_lt_Some _ _ _ Hcn))
      as [(r & -> & Hge & Hex & Hleft)|[-> Hshort]].
    + left. exists r. split; [reflexivity|]. split; [lia|]. split; [assumption|].
      pose proof (do_move_left state (Node.move cn)). lia.
    + right. split; [reflexivity|lia].
  - left. exists (node, state). split; [reflexivity|]. simpl.
    split; [lia|]. split; [|lia]. exists n. split; [assumption|].
    destruct (has_untried_moves n); [left; reflexivity|simpl in Hcond; right; exact Hcond].
Qed.
Lemma erase_first_in (m : Move) (l : list Move) :
  m ∈ l → ∃ l', erase_first m l = Some l'.
Proof.
  induction l as [|x l IH]; intros Hin; [inversion Hin|].
  simpl. destruct (decide (x = m)) as [_|Hne]; [eauto|].
  apply elem_of_cons in Hin as [Heq|Hin]; [congruence|].
  destruct (IH Hin) as [l' ->]. simpl. eauto.
Qed.

Lemma add_child_Done (a : Arena Move) (this : nat) (n : Node.t Move) (move : Move)
    (state : State) :
  a !! this = Some n → move ∈ Node.moves n →
  ∃ moves', erase_first move (Node.moves n) = Some moves'
    ∧ add_child a this move state
      = Done (<[this := with_child n moves' (length a)]> a ++ [Node_child state move this],
              length a).
Proof.
  intros Hn Hin. destruct (erase_first_in _ _ Hin) as [moves' Hmoves].
  exists moves'. split; [assumption|].
  unfold add_child. rewrite (deref_Some _ _ _ Hn). simpl. rewrite Hmoves. reflexivity.
Qed.

Lemma lookup_grown (a : Arena Move) (this : nat) (n' child : Node.t Move) (i : nat)
    (x : Node.t Move) :
  (this < length a)%nat →
  (<[this := n']> a ++ [child]) !! i = Some x ↔
  (i = this ∧ x = n') ∨ (i ≠ this ∧ a !! i = Some x) ∨ (i = length a ∧ x = child).
Proof.
  intros Hthis. rewrite lookup_app_Some, length_insert.
  destruct (decide (i = this)) as [->|Hne].
  - rewrite list_lookup_insert_eq by assumption. split.
    + intros [Hx|[Hge _]]; [left; split; congruence|lia].
    + intros [[_ ->]|[[Hc _]|[Hc _]]]; [left; reflexivity|congruence|lia].
  - rewrite list_lookup_insert_ne by congruence. split.
    + intros [Hx|[Hge Hx]]; [right; left; split; assumption|].
      apply list_lookup_singleton_Some in Hx as [Hi ->].
      right; right. split; [lia|reflexivity].
    + intros [[Hc _]|[[_ Hx]|[-> ->]]]; [congruence|left; assumption|].
      right. split; [lia|]. rewrite Nat.sub_diag. reflexivity.
Qed.

Lemma wf_add_child (a : Arena Move) (this : nat) (n : Node.t Move) (moves' : list Move)
    (child : Node.t Move) :
  wf_tree a → a !! this = Some n →
  Node.parent child = Some this → Node.children child = [] →
  wf_tree (<[this := with_child n moves' (length a)]> a ++ [child]).
Proof.
  intros Hwf Hn Hcp Hcc.
  pose proof (lookup_lt_Some _ _ _ Hn) as Hthis.
  set (n' := with_child n moves' (length a)).
  assert (∀ i x, (<[this := n']> a ++ [child]) !! i = Some x ↔
            (i = this ∧ x = n') ∨ (i ≠ this ∧ a !! i = Some x) ∨ (i = length a ∧ x = child))
    as Hlk by (intros; apply lookup_grown; assumption).
  assert (∀ i x, a !! i = Some x →
            ∃ x', (<[this := n']> a ++ [child]) !! i = Some x'
                  ∧ Node.parent x' = Node.parent x
                  ∧ (∀ c, c ∈ Node.children x → c ∈ Node.children x')) as Hkeep.
  { intros i x Hx. destruct (decide (i = this)) as [->|Hne].
    - exists n'. split; [apply Hlk; left; split; reflexivity|].
      assert (x = n) as -> by congruence. split; [reflexivity|].
      intros c Hc. simpl. apply elem_of_app. left. exact Hc.
    - exists x. split; [apply Hlk; right; left; split; assumption|]. split; [reflexivity|auto]. }
  split.
  - destruct (wf_root a Hwf) as (r & Hr & Hnone).
    destruct (Hkeep _ _ Hr) as (r' & Hr' & Hp & _). exists r'. split; [assumption|congruence].
  - intros i x Hi Hpos. apply Hlk in Hi as [[-> ->]|[[Hne Hx]|[-> ->]]].
    + destruct (wf_parent a Hwf this n Hn Hpos) as (p & pn & Hp & Hlt & Hpn & Hin).
      destruct (Hkeep _ _ Hpn) as (pn' & Hpn' & _ & Hsub).
      exists p, pn'. repeat split; auto.
    + destruct (wf_parent a Hwf i x Hx Hpos) as (p & pn & Hp & Hlt & Hpn & Hin).
      destruct (Hkeep _ _ Hpn) as (pn' & Hpn' & _ & Hsub).
      exists p, pn'. repeat split; auto.
    + exists this, n'. split; [assumption|]. split; [assumption|].
      split; [apply Hlk; left; split; reflexivity|].
      simpl. apply elem_of_app. right. apply list_elem_of_here.
  - intros p pn c Hp Hc. apply Hlk in Hp as [[-> ->]|[[Hne Hpn]|[-> ->]]].
    + simpl in Hc. apply elem_of_app in Hc as [Hc|Hc].
      * destruct (wf_children a Hwf this n c Hn Hc) as (Hlt & cn & Hcn & Hpar).
        split; [assumption|]. exists cn. split; [|assumption].
        apply Hlk. right; left. split; [lia|assumption].
      * apply list_elem_of_singleton in Hc as ->. split; [assumption|].
        exists child. split; [|assumption]. apply Hlk. right; right. split; reflexivity.
    + destruct (wf_children a Hwf p pn c Hpn Hc) as (Hlt & cn & Hcn & Hpar).
      split; [assumption|].
      destruct (Hkeep _ _ Hcn) as (cn' & Hcn' & Hpar' & _).
      exists cn'. split; [assumption|congruence].
    + rewrite Hcc in Hc. inversion Hc.
  - intros p pn Hp. apply Hlk in Hp as [[-> ->]|[[Hne Hpn]|[-> ->]]].
    + simpl. apply NoDup_app. split; [apply (wf_nodup a Hwf this n Hn)|].
      split; [|apply NoDup_singleton].
      intros c Hc Hc'. apply list_elem_of_singleton in Hc' as ->.
      destruct (wf_children a Hwf this n _ Hn Hc) as (_ & cn & Hcn & _).
      apply lookup_lt_Some in Hcn. lia.
    + apply (wf_nodup a Hwf p pn Hpn).
    + rewrite Hcc. constructor.
Qed.

Lemma expand_spec (a : Arena Move) (node : nat) (n : Node.t Move) (state : State)
    (engine : E) :
  a !! node = Some n →
  ∃ r, expand a node state engine = Done r ∧ expanded a node n state r.
Proof.
  intros Hn. unfold expand, expanded. rewrite (deref_Some _ _ _ Hn). simpl.
  destruct (has_untried_moves n) eqn:Hun.
  - unfold get_untried_move.
    pose proof (uniform_index_lt engine (length (Node.moves n))) as Hlt.
    destruct (uniform_index engine (length (Node.moves n))) as [i engine'].
    simpl in Hlt.
    assert (0 < length (Node.moves n))%nat as Hpos.
    { unfold has_untried_moves in Hun. destruct (Node.moves n); [discriminate|simpl; lia]. }
    destruct (lookup_lt_is_Some_2 _ _ (Hlt Hpos)) as [move Hmove].
    unfold at_index. rewrite Hmove. simpl.
    pose proof (list_elem_of_lookup_2 _ _ _ Hmove) as Hin.
    destruct (add_child_Done a node n move (do_move state move) Hn Hin) as (moves' & Her & ->).
    simpl. eexists. split; [reflexivity|]. simpl.
    exists move, moves'. repeat split; assumption.
  - eexists. split; [reflexivity|]. simpl. repeat split.
Qed.
(** The playout ends in a state without moves; the budget is short only
    when it does not exceed the moves left. *)
Lemma playout_spec (fuel : nat) (state : State) (engine : E) :
  done_or_short (playout fuel state engine)
    (λ r, has_moves r.1 = false) (fuel ≤ moves_left state)%nat.
Proof.
  revert state engine. induction fuel as [|fuel IH]; intros state engine; simpl;
    destruct (has_moves state) eqn:Hm.
  - right. split; [reflexivity|lia].
  - left. exists (state, engine). split; [reflexivity|assumption].
  - destruct (do_random_move_left E _ state engine Hm) as (s' & e' & -> & Hlt). simpl.
    destruct (IH s' e') as [(r & -> & Hr)|[-> Hshort]].
    + left. exists r. split; [reflexivity|assumption].
    + right. split; [reflexivity|lia].
  - left. exists (state, engine). split; [reflexivity|assumption].
Qed.

Lemma same_shape_update (a : Arena Move) (x : nat) (n : Node.t Move) (result : float) :
  a !! x = Some n → same_shape a (<[x := update_node n result]> a).
Proof.
  intros Hn i. destruct (decide (i = x)) as [->|Hne].
  - rewrite list_lookup_insert_eq by (eapply lookup_lt_Some, Hn). rewrite Hn. reflexivity.
  - rewrite list_lookup_insert_ne by congruence. reflexivity.
Qed.

Lemma parents_below_same_shape (a a' : Arena Move) :
  same_shape a a' → parents_below a → parents_below a'.
Proof.
  intros Hs Hpb i p Hp. rewrite (same_shape_parent_of _ _ _ Hs) in Hp. apply Hpb, Hp.
Qed.

Lemma backpropagate_spec (fuel : nat) (a : Arena Move) (x : nat) (state : State) :
  parents_below a → (x < length a)%nat →
  done_or_short (backpropagate fuel a (Some x) state) (backpropagated a x state)
    (fuel ≤ x)%nat.
Proof.
  revert a x. induction fuel as [|fuel IH]; intros a x Hpb Hx.
  - right. split; [reflexivity|lia].
  - destruct (lookup_lt_is_Some_2 _ _ Hx) as [n Hn].
    simpl. rewrite (deref_Some _ _ _ Hn). simpl.
    unfold update. rewrite (deref_Some _ _ _ Hn). simpl.
    fold (result_at state n).
    set (a1 := <[x := update_node n (result_at state n)]> a).
    pose proof (same_shape_update a x n (result_at state n) Hn) as Hshape.
    fold a1 in Hshape.
    assert (a1 !! x = Some (update_node n (result_at state n))) as Hx1
      by (apply list_lookup_insert_eq; assumption).
    assert (∀ i, i ≠ x → a1 !! i = a !! i) as Hother
      by (intros i Hi; apply list_lookup_insert_ne; congruence).
    assert (length a1 = length a) as Hlen by apply length_insert.
    assert (parent_of a x = Node.parent n) as Hpx by (unfold parent_of; rewrite Hn; reflexivity).
    destruct (Node.parent n) as [p|] eqn:Hp.
    + pose proof (Hpb x p Hpx) as Hlt.
      destruct (IH a1 p (parents_below_same_shape _ _ Hshape Hpb) ltac:(lia))
        as [(a' & -> & Hlen' & Hspec)|[-> Hshort]].
      * left. exists a'. split; [reflexivity|]. split; [lia|].
        intros i ni Hi. destruct (decide (i = x)) as [->|Hne].
        -- assert (ni = n) as -> by congruence.
           split; [|intros Hc; exfalso; apply Hc; constructor].
           intros _. apply (Hspec x _ Hx1). intros Hpath.
           apply (on_path_le _ _ _ (parents_below_same_shape _ _ Hshape Hpb)) in Hpath. lia.
        -- rewrite <- (Hother i Hne) in Hi. destruct (Hspec i ni Hi) as [Hon Hoff].
           split.
           ++ intros Hpath. apply Hon.
              apply on_path_inv in Hpath as [->|(p' & Hp' & Hpath)]; [congruence|].
              assert (p' = p) as -> by congruence.
              apply (same_shape_on_path _ _ _ _ Hshape Hpath).
           ++ intros Hpath. apply Hoff. intros Hpath1. apply Hpath.
              apply on_path_up with p; [assumption|].
              apply (same_shape_on_path _ _ _ _ (same_shape_sym _ _ Hshape) Hpath1).
      * right. split; [reflexivity|lia].
    + left. exists a1. split; [destruct fuel; reflexivity|]. split; [assumption|].
      intros i ni Hi. destruct (decide (i = x)) as [->|Hne].
      * assert (ni = n) as -> by congruence.
        split; [intros _; assumption|intros Hc; exfalso; apply Hc; constructor].
      * split.
        -- intros Hpath. apply on_path_inv in Hpath as [->|(p' & Hp' & _)]; congruence.
        -- intros _. rewrite Hother by assumption. exact Hi.
Qed.

Lemma backpropagated_same_shape (a a' : Arena Move) (x : nat) (state : State) :
  backpropagated a x state a' → same_shape a a'.
Proof.
  intros [Hlen Hspec] i.
  destruct (a !! i) as [n|] eqn:Hi.
  - destruct (Hspec i n Hi) as [Hon Hoff].
    destruct (a' !! i) as [n'|] eqn:Hi'.
    + simpl.
      destruct (decide ((Node.parent n', Node.children n')
                        = (Node.parent n, Node.children n))) as [->|Hne]; [reflexivity|].
      exfalso.
      assert (¬ on_path a x i) as Hno.
      { intros Hpath. apply Hne. specialize (Hon Hpath). injection Hon as ->. reflexivity. }
      apply Hne. specialize (Hoff Hno). injection Hoff as ->. reflexivity.
    + exfalso.
      assert (i < length a')%nat as Hlt by (rewrite Hlen; eapply lookup_lt_Some, Hi).
      apply lookup_lt_is_Some_2 in Hlt as [? ?]. congruence.
  - assert (a' !! i = None) as ->; [|reflexivity].
    apply lookup_ge_None. rewrite Hlen. apply lookup_ge_None. exact Hi.
Qed.
(** *** Visit counts of the children of the root *)

Lemma sum_visits_total (ns : list (Node.t Move)) :
  sum_visits ns = total (map Node.visits ns).
Proof.
  induction ns as [|n ns IH]; [reflexivity|].
  unfold sum_visits. simpl. rewrite fold_visits_from, IH. lia.
Qed.

Lemma root_children_total (a : Arena Move) (root : Node.t Move) :
  a !! 0%nat = Some root →
  sum_visits (root_children a) = total (map (visits_at a) (Node.children root)).
Proof.
  intros Hroot. unfold root_children. rewrite Hroot, sum_visits_total.
  induction (Node.children root) as [|c cs IH]; [reflexivity|].
  simpl. unfold visits_at at 1. destruct (a !! c); simpl; [f_equal|]; exact IH.
Qed.

Lemma total_ext (f g : nat → Z) (cs : list nat) :
  (∀ c, c ∈ cs → f c = g c) → total (map f cs) = total (map g cs).
Proof.
  induction cs as [|c cs IH]; intros Hfg; [reflexivity|].
  simpl. rewrite (Hfg c) by apply list_elem_of_here.
  rewrite IH; [reflexivity|]. intros c' Hc'. apply Hfg, list_elem_of_further, Hc'.
Qed.

Lemma total_one_more (f f' : nat → Z) (cs : list nat) (c0 : nat) :
  NoDup cs → c0 ∈ cs → f' c0 = f c0 + 1 → (∀ c, c ∈ cs → c ≠ c0 → f' c = f c) →
  total (map f' cs) = total (map f cs) + 1.
Proof.
  induction 1 as [|c cs Hnotin Hnd IH]; intros Hin Hc0 Hother; [inversion Hin|].
  simpl. destruct (decide (c = c0)) as [->|Hne].
  - rewrite Hc0. rewrite (total_ext f' f); [lia|].
    intros c Hc. apply Hother; [apply list_elem_of_further, Hc|]. intros ->. contradiction.
  - rewrite (Hother c) by (apply list_elem_of_here || assumption).
    apply elem_of_cons in Hin as [Heq|Hin]; [congruence|].
    rewrite IH; [lia|assumption|assumption|].
    intros c' Hc' Hne'. apply Hother; [apply list_elem_of_further, Hc'|assumption].
Qed.

(** *** One iteration *)

Lemma select_leaf_stay (fuel : nat) (a : Arena Move) (node : nat) (n : Node.t Move)
    (state : State) :
  a !! node = Some n → negb (has_untried_moves n) && has_children n = false →
  select_leaf fuel a node state = Done (node, state).
Proof.
  intros Hn Hcond. destruct fuel; simpl; rewrite (deref_Some _ _ _ Hn); simpl;
    rewrite Hcond; reflexivity.
Qed.

(** After selection and expansion from an open root the current node is
    not the root; the visit counts are those of the tree before. *)
Lemma expanded_facts (a : Arena Move) (x : nat) (n : Node.t Move) (state : State)
    (r : Arena Move * nat * State * E) :
  wf_tree a → a !! x = Some n →
  has_untried_moves n = true ∨ has_children n = false →
  expanded a x n state r →
  wf_tree r.1.1.1
  ∧ (r.1.1.2 < length r.1.1.1)%nat
  ∧ (length a ≤ length r.1.1.1 ≤ length a + 1)%nat
  ∧ (moves_left r.1.2 ≤ moves_left state)%nat
  ∧ root_visits r.1.1.1 = root_visits a
  ∧ (root_open a → root_open r.1.1.1 ∧ (0 < r.1.1.2)%nat
       ∧ sum_visits (root_children r.1.1.1) = sum_visits (root_children a))
  ∧ (root_stuck a → x = 0%nat → r.1.1.1 = a ∧ r.1.1.2 = 0%nat).
Proof.
  intros Hwf Hn Hexit Hexp.
  destruct r as [[[a' x'] state'] engine']. simpl. unfold expanded in Hexp.
  pose proof (lookup_lt_Some _ _ _ Hn) as Hx.
  destruct (has_untried_moves n) eqn:Hun.
  - destruct Hexp as (move & moves' & Hin & Her & -> & -> & ->).
    set (n' := with_child n moves' (length a)).
    set (child := Node_child (do_move state move) move x).
    assert (∀ i y, (<[x := n']> a ++ [child]) !! i = Some y ↔
              (i = x ∧ y = n') ∨ (i ≠ x ∧ a !! i = Some y) ∨ (i = length a ∧ y = child))
      as Hlk by (intros; apply lookup_grown; assumption).
    assert (length (<[x := n']> a ++ [child]) = S (length a)) as Hlen
      by (rewrite length_app, length_insert; simpl; lia).
    destruct (wf_root a Hwf) as (root & Hroot & _).
    split; [apply wf_add_child; [assumption|assumption|reflexivity|reflexivity]|].
    split; [lia|]. split; [lia|].
    split; [apply do_move_left|].
    assert (∃ root', (<[x := n']> a ++ [child]) !! 0%nat = Some root'
              ∧ Node.visits root' = Node.visits root
              ∧ (x ≠ 0%nat ∧ root' = root
                 ∨ x = 0%nat ∧ Node.children root' = Node.children root ++ [length a]))
      as (root' & Hroot' & Hv & Hc).
    { destruct (decide (x = 0%nat)) as [->|Hne].
      - exists n'. assert (n = root) as -> by congruence.
        split; [apply Hlk; left; split; reflexivity|]. split; [reflexivity|].
        right. split; reflexivity.
      - exists root. split; [apply Hlk; right; left; split; [lia|assumption]|].
        split; [reflexivity|left; split; [assumption|reflexivity]]. }
    split; [unfold root_visits; rewrite Hroot', Hroot; exact Hv|].
    split.
    + intros (root0 & Hroot0 & Hopen). assert (root0 = root) as -> by congruence.
      split; [|split; [lia|]].
      * exists root'. split; [assumption|].
        destruct Hc as [[_ ->]|[_ Hc]]; [assumption|].
        right. rewrite Hc. intros Hnil. apply (f_equal length) in Hnil.
        rewrite length_app in Hnil. simpl in Hnil. lia.
      * rewrite (root_children_total _ _ Hroot'), (root_children_total _ _ Hroot).
        assert (∀ c, c ∈ Node.children root →
                  visits_at (<[x := n']> a ++ [child]) c = visits_at a c) as Hsame.
        { intros c Hc'. destruct (wf_children a Hwf 0%nat root c Hroot Hc')
            as (_ & cn & Hcn & _).
          unfold visits_at. rewrite Hcn.
          destruct (decide (c = x)) as [->|Hne].
          - assert (cn = n) as -> by congruence.
            rewrite (proj2 (Hlk x n') (or_introl (conj eq_refl eq_refl))). reflexivity.
          - rewrite (proj2 (Hlk c cn) (or_intror (or_introl (conj Hne Hcn)))). reflexivity. }
        destruct Hc as [[_ ->]|[-> Hc]]; [apply total_ext, Hsame|].
        rewrite Hc, map_app. unfold total. rewrite foldr_app. simpl.
        unfold visits_at at 1.
        rewrite (proj2 (Hlk (length a) child) (or_intror (or_intror (conj eq_refl eq_refl)))).
        simpl. apply (total_ext _ _ _ Hsame).
    + intros (root0 & Hroot0 & Hm & _) ->.
      assert (n = root0) as -> by congruence.
      unfold has_untried_moves in Hun. rewrite Hm in Hun. discriminate.
  - destruct Hexp as (-> & -> & ->).
    split; [assumption|]. split; [assumption|]. split; [lia|]. split; [lia|].
    split; [reflexivity|]. split.
    + intros (root & Hroot & Hopen). split; [exists root; split; assumption|].
      split; [|reflexivity].
      destruct x as [|x]; [|lia]. exfalso.
      assert (n = root) as -> by congruence.
      destruct Hexit as [Hc|Hc]; [discriminate|].
      unfold has_untried_moves in Hun. unfold has_children in Hc.
      destruct Hopen as [Ho|Ho].
      * rewrite bool_decide_false in Hun by assumption. discriminate.
      * rewrite bool_decide_false in Hc by assumption. discriminate.
    + intros _ ->. split; reflexivity.
Qed.
Lemma backpropagated_facts (a a' : Arena Move) (x : nat) (state : State) :
  wf_tree a → (x < length a)%nat → backpropagated a x state a' →
  wf_tree a'
  ∧ length a' = length a
  ∧ root_visits a' = root_visits a + 1
  ∧ ((0 < x)%nat → sum_visits (root_children a') = sum_visits (root_children a) + 1)
  ∧ (root_open a → root_open a')
  ∧ (root_stuck a → root_stuck a').
Proof.
  intros Hwf Hx Hback.
  pose proof (backpropagated_same_shape _ _ _ _ Hback) as Hshape.
  destruct Hback as [Hlen Hspec].
  destruct (wf_root a Hwf) as (root & Hroot & _).
  assert (a' !! 0%nat = Some (update_node root (result_at state root))) as Hroot'.
  { apply (Hspec 0%nat root Hroot). apply on_path_root; assumption. }
  split; [apply (wf_same_shape _ _ Hshape Hwf)|]. split; [assumption|].
  split; [unfold root_visits; rewrite Hroot', Hroot; reflexivity|].
  split; [|split].
  - intros Hpos.
    rewrite (root_children_total _ _ Hroot'), (root_children_total _ _ Hroot). simpl.
    destruct (on_path_root_child a root x Hwf Hroot Hx Hpos) as (c0 & Hc0 & Hpath & Huniq).
    apply (total_one_more _ _ _ c0); [apply (wf_nodup a Hwf 0%nat root Hroot)|assumption| |].
    + destruct (wf_children a Hwf 0%nat root c0 Hroot Hc0) as (_ & cn & Hcn & _).
      unfold visits_at. rewrite Hcn.
      rewrite (proj1 (Hspec c0 cn Hcn) Hpath). reflexivity.
    + intros c Hc Hne.
      destruct (wf_children a Hwf 0%nat root c Hroot Hc) as (_ & cn & Hcn & _).
      unfold visits_at. rewrite Hcn.
      rewrite (proj2 (Hspec c cn Hcn)); [reflexivity|].
      intros Hp. apply Hne. apply Huniq; assumption.
  - intros (root0 & Hroot0 & Hopen). assert (root0 = root) as -> by congruence.
    eexists. split; [exact Hroot'|]. exact Hopen.
  - intros (root0 & Hroot0 & Hm & Hc). assert (root0 = root) as -> by congruence.
    eexists. split; [exact Hroot'|]. split; assumption.
Qed.

(** One iteration keeps the tree well formed, adds at most one node and one
    visit to the root; from an open root it adds one visit to exactly one
    child of the root.  The budget is short only when it does not exceed
    the size of the tree or the moves left in the game. *)
Lemma iteration_spec (fuel : nat) (root_state : State) (a : Arena Move) (engine : E) :
  wf_tree a →
  done_or_short (iteration fuel root_state a engine) (iterated a)
    (fuel ≤ length a ∨ fuel ≤ moves_left root_state)%nat.
Proof.
  intros Hwf. unfold iteration.
  destruct (wf_root a Hwf) as (root & Hroot & _).
  pose proof (lookup_lt_Some _ _ _ Hroot) as Hlen0.
  destruct (select_leaf_spec fuel a 0%nat root_state Hwf Hlen0)
    as [([x st] & Hsel & _ & (n & Hn & Hexit) & Hleft)|[-> Hshort]];
    [|right; split; [reflexivity|lia]].
  rewrite Hsel. simpl in Hn, Hleft |- *.
  destruct (expand_spec a x n st engine Hn) as ([[[a2 x2] st2] e2] & -> & Hexp).
  destruct (expanded_facts a x n st _ Hwf Hn Hexit Hexp)
    as (Hwf2 & Hx2 & Hlen2 & Hleft2 & Hrv2 & Hopen2 & Hstuck2).
  simpl in Hwf2, Hx2, Hlen2, Hleft2, Hrv2, Hopen2, Hstuck2 |- *.
  destruct (playout_spec fuel st2 e2) as [([st3 e3] & -> & _)|[-> Hshort]];
    [|right; split; [reflexivity|lia]].
  simpl.
  destruct (backpropagate_spec fuel a2 x2 st3 (wf_parents_below _ Hwf2) Hx2)
    as [(a3 & -> & Hback)|[-> Hshort]]; [|right; split; [reflexivity|lia]].
  simpl. left. eexists. split; [reflexivity|].
  destruct (backpropagated_facts a2 a3 x2 st3 Hwf2 Hx2 Hback)
    as (Hwf3 & Hlen3 & Hrv3 & Hsum3 & Hopen3 & Hstuck3).
  split; simpl.
  - assumption.
  - lia.
  - lia.
  - intros Hopen. destruct (Hopen2 Hopen) as (Ho & Hpos & Hsum).
    split; [apply Hopen3, Ho|]. rewrite (Hsum3 Hpos). lia.
  - intros Hstuck.
    assert (x = 0%nat) as ->.
    { destruct Hstuck as (root0 & Hroot0 & Hm & Hc).
      assert (select_leaf fuel a 0%nat root_state = Done (0%nat, root_state)) as Hstay.
      { apply (select_leaf_stay fuel a 0%nat root0); [assumption|].
        unfold has_children. rewrite Hc. apply andb_false_r. }
      congruence. }
    destruct (Hstuck2 Hstuck eq_refl) as [-> ->].
    split; [apply Hstuck3, Hstuck|assumption].
Qed.
(** *** The loop of [compute_tree] *)

Lemma tree_loop_spec (fuel : nat) (root_state : State) (options : ComputeOptions)
    (start_time : float) (budget : nat) (iter : Z) (a : Arena Move) (engine : E) (clock : C)
    (print_time : float) :
  wf_tree a → root_visits a = iter - 1 →
  done_or_short
    (tree_loop fuel root_state options start_time budget iter a engine clock print_time)
    (looped a iter) True.
Proof.
  revert iter a engine clock print_time.
  induction budget as [|budget IH]; intros iter a engine clock print_time Hwf Hrv; simpl;
    destruct ((iter <=? max_iterations options) || (max_iterations options <? 0)).
  - right. split; [reflexivity|exact I].
  - left. eexists. split; [reflexivity|]. split; simpl; auto.
  - destruct (iteration_spec fuel root_state a engine Hwf)
      as [([a1 e1] & -> & Hit)|[-> _]]; [|right; split; [reflexivity|exact I]].
    simpl. destruct Hit as [Hwf1 Hlen1 Hrv1 Hopen1 Hstuck1]. simpl in *.
    assert (looped a iter (a1, iter)) as Hbreak.
    { split; simpl; [assumption|lia| |assumption].
      intros Ho Hacc. destruct (Hopen1 Ho) as [Ho1 Hsum]. split; [assumption|].
      unfold children_account in *. lia. }
    assert (∀ clock' print_time',
              done_or_short
                (tree_loop fuel root_state options start_time budget (iter + 1) a1 e1 clock'
                   print_time') (looped a iter) True) as Hnext.
    { intros clock' print_time'.
      destruct (IH (iter + 1) a1 e1 clock' print_time' Hwf1 ltac:(lia))
        as [(r & -> & [Hwfr Hrvr Hopenr Hstuckr])|[-> _]];
        [|right; split; [reflexivity|exact I]].
      left. exists r. split; [reflexivity|]. split; [assumption|assumption| |].
      - intros Ho Hacc. destruct (Hopen1 Ho) as [Ho1 Hsum]. apply Hopenr; [assumption|].
        unfold children_account in *. lia.
      - intros Hs. destruct (Hstuck1 Hs) as [Hs1 Hl1].
        destruct (Hstuckr Hs1) as [Hsr Hlr]. split; [assumption|lia]. }
    destruct (USE_OPENMP && (verbose options || (0 <=? max_time options)%float));
      [|apply Hnext].
    destruct (omp_get_wtime clock) as [time clock'].
    destruct (max_time options <=? time - start_time)%float; [|apply Hnext].
    left. eexists. split; [reflexivity|exact Hbreak].
  - left. eexists. split; [reflexivity|]. split; simpl; auto.
Qed.

(** Without a clock and with a count, the loop runs up to the count. *)
Lemma tree_loop_counts (fuel : nat) (root_state : State) (options : ComputeOptions)
    (start_time : float) (budget : nat) (iter : Z) (a : Arena Move) (engine : E) (clock : C)
    (print_time : float) :
  no_clock options → 0 ≤ max_iterations options →
  wf_tree a → 1 ≤ iter ≤ max_iterations options + 1 →
  (length a ≤ Z.to_nat iter)%nat →
  (Z.to_nat (max_iterations options + 1) < fuel)%nat → (moves_left root_state < fuel)%nat →
  (Z.to_nat (max_iterations options + 1 - iter) ≤ budget)%nat →
  ∃ a', tree_loop fuel root_state options start_time budget iter a engine clock print_time
        = Done (a', max_iterations options).
Proof.
  intros Hquiet Hn. revert iter a engine clock print_time.
  induction budget as [|budget IH];
    intros iter a engine clock print_time Hwf Hiter Hlen Hfuel Hleft Hbudget; simpl;
    destruct ((iter <=? max_iterations options) || (max_iterations options <? 0)) eqn:Hcond.
  - lia.
  - exists a. f_equal. f_equal. lia.
  - destruct (done_or_short_enough _ _ _ (iteration_spec fuel root_state a engine Hwf))
      as ([a1 e1] & -> & Hit); [lia|].
    simpl. destruct Hit as [Hwf1 Hlen1 _ _ _]. simpl in *.
    unfold no_clock in Hquiet. rewrite Hquiet.
    apply IH; try assumption; lia.
  - exists a. f_equal. f_equal. lia.
Qed.

(** Without a clock and without a count, the loop never ends. *)
Lemma tree_loop_unbounded (fuel : nat) (root_state : State) (options : ComputeOptions)
    (start_time : float) (budget : nat) (iter : Z) (a : Arena Move) (engine : E) (clock : C)
    (print_time : float) :
  no_clock options → max_iterations options < 0 → wf_tree a →
  tree_loop fuel root_state options start_time budget iter a engine clock print_time
  = OutOfFuel.
Proof.
  intros Hquiet Hn. revert iter a engine clock print_time.
  induction budget as [|budget IH]; intros iter a engine clock print_time Hwf; simpl;
    replace ((iter <=? max_iterations options) || (max_iterations options <? 0))
      with true by (symmetry; apply orb_true_iff; right; lia).
  - reflexivity.
  - destruct (iteration_spec fuel root_state a engine Hwf)
      as [([a1 e1] & -> & Hit)|[-> _]]; [|reflexivity].
    simpl. unfold no_clock in Hquiet. rewrite Hquiet. apply IH. apply (it_wf _ _ Hit).
Qed.
(** *** [compute_tree] *)

Lemma root_alone_open (state : State) :
  get_moves state ≠ [] →
  root_open [Node_root state] ∧ children_account [Node_root state].
Proof.
  intros Hne. split; [|reflexivity].
  exists (Node_root state). split; [reflexivity|]. left. exact Hne.
Qed.

Lemma root_alone_stuck (state : State) :
  get_moves state = [] → root_stuck [Node_root state].
Proof.
  intros Hnil. exists (Node_root state). split; [reflexivity|]. split; [exact Hnil|reflexivity].
Qed.

(** Whatever stopped it, a finished [compute_tree] returns a well-formed
    tree; over a position with moves the children of the root account for
    its visits, over a final position the tree is the root alone. *)
Lemma compute_tree_looped (fuel : nat) (root_state : State) (options : ComputeOptions)
    (initial_seed : Z) (clock : C) (a : Arena Move) :
  compute_tree fuel root_state options initial_seed clock = Done a →
  wf_tree a
  ∧ (get_moves root_state ≠ [] → children_account a)
  ∧ (get_moves root_state = [] → root_stuck a ∧ length a = 1%nat).
Proof.
  unfold compute_tree, compute_tree_run.
  destruct ((0 <=? max_time options)%float && negb USE_OPENMP); [discriminate|].
  destruct (if USE_OPENMP then omp_get_wtime clock else (0%float, clock))
    as [start_time clock'].
  intros Hrun. apply bind_Done in Hrun as ([a' k] & Hloop & Heq).
  injection Heq as <-. simpl.
  pose proof (tree_loop_spec fuel root_state options start_time fuel 1 [Node_root root_state]
                (seed_engine initial_seed) clock' start_time (wf_tree_root root_state)
                eq_refl) as Hspec.
  destruct (done_or_short_Done _ _ _ _ Hspec Hloop) as [Hwf _ Hopen Hstuck]. simpl in *.
  split; [assumption|]. split.
  - intros Hne. destruct (root_alone_open root_state Hne) as [Ho Hacc].
    apply (Hopen Ho Hacc).
  - intros Hnil. apply Hstuck, root_alone_stuck, Hnil.
Qed.

(** With a count below [INT_MAX], no time limit and no verbosity,
    [compute_tree] runs its [max_iterations] iterations and the root has as
    many visits. *)
Lemma compute_tree_counts (fuel : nat) (root_state : State) (options : ComputeOptions)
    (initial_seed : Z) (clock : C) :
  verbose options = false → (max_time options <? 0)%float = true →
  0 ≤ max_iterations options < INT_MAX →
  (Z.to_nat (max_iterations options + 1) < fuel)%nat → (moves_left root_state < fuel)%nat →
  ∃ a, compute_tree_run fuel root_state options initial_seed clock
       = Done (a, max_iterations options)
       ∧ compute_tree fuel root_state options initial_seed clock = Done a
       ∧ root_visits a = max_iterations options.
Proof.
  intros Hverbose Htime [Hn _] Hfuel Hleft.
  apply ltb_not_leb in Htime.
  assert (no_clock options) as Hquiet.
  { unfold no_clock. rewrite Hverbose, Htime. apply andb_false_r. }
  unfold compute_tree, compute_tree_run. rewrite Htime. simpl.
  destruct (if USE_OPENMP then omp_get_wtime clock else (0%float, clock))
    as [start_time clock'].
  destruct (tree_loop_counts fuel root_state options start_time fuel 1 [Node_root root_state]
              (seed_engine initial_seed) clock' start_time Hquiet Hn
              (wf_tree_root root_state)) as [a Hloop]; simpl; try lia.
  exists a. rewrite Hloop. split; [reflexivity|]. split; [reflexivity|].
  pose proof (tree_loop_spec fuel root_state options start_time fuel 1 [Node_root root_state]
                (seed_engine initial_seed) clock' start_time (wf_tree_root root_state)
                eq_refl) as Hspec.
  apply (lp_visits _ _ _ (done_or_short_Done _ _ _ _ Hspec Hloop)).
Qed.

(** With neither a count nor a time limit, [compute_tree] does not return. *)
Lemma compute_tree_unbounded (fuel : nat) (root_state : State) (options : ComputeOptions)
    (initial_seed : Z) (clock : C) :
  verbose options = false → (max_time options <? 0)%float = true →
  max_iterations options < 0 →
  compute_tree fuel root_state options initial_seed clock = OutOfFuel.
Proof.
  intros Hverbose Htime Hn.
  apply ltb_not_leb in Htime.
  assert (no_clock options) as Hquiet.
  { unfold no_clock. rewrite Hverbose, Htime. apply andb_false_r. }
  unfold compute_tree, compute_tree_run. rewrite Htime. simpl.
  destruct (if USE_OPENMP then omp_get_wtime clock else (0%float, clock))
    as [start_time clock'].
  rewrite tree_loop_unbounded by (assumption || apply wf_tree_root). reflexivity.
Qed.

(** C10.  Over a position with at least one move, when [compute_tree] has
    returned a tree, whatever stopped it, the visit counts of the direct
    children of the root add up to the visit count of the root. *)
Theorem compute_tree_children_account (fuel : nat) (root_state : State)
    (options : ComputeOptions) (initial_seed : Z) (clock : C) (a : Arena Move) :
  get_moves root_state ≠ [] →
  compute_tree fuel root_state options initial_seed clock = Done a →
  sum_visits (root_children a) = root_visits a.
Proof.
  intros Hne Hrun.
  destruct (compute_tree_looped _ _ _ _ _ _ Hrun) as (_ & Hopen & _). apply Hopen, Hne.
Qed.
(** *** [compute_move] *)

Lemma for_each_all {A B} (f : A → outcome B) (P : B → Prop) (l : list A) :
  (∀ x, x ∈ l → ∃ y, f x = Done y ∧ P y) →
  ∃ ys, for_each f l = Done ys ∧ Forall P ys ∧ length ys = length l.
Proof.
  induction l as [|x l IH]; intros Hf.
  - exists []. split; [reflexivity|]. split; [constructor|reflexivity].
  - destruct (Hf x (list_elem_of_here _ _)) as (y & Hy & HP).
    destruct IH as (ys & Hys & Hall & Hlen).
    { intros x' Hx'. apply Hf, list_elem_of_further, Hx'. }
    exists (y :: ys). simpl. rewrite Hy. simpl. rewrite Hys. simpl.
    split; [reflexivity|]. split; [constructor; assumption|]. rewrite Hlen. reflexivity.
Qed.

Lemma merge_roots_stuck (roots : list (Arena Move)) (acc : Merged (Move:=Move)) :
  Forall root_stuck roots →
  ∃ games, merge_roots acc roots
           = Done {| m_visits := m_visits acc; m_wins := m_wins acc;
                     m_games_played := games |}.
Proof.
  intros Hall. revert acc.
  induction Hall as [|tree roots (root & Hroot & _ & Hc) _ IH]; intros acc.
  - exists (m_games_played acc). destruct acc. reflexivity.
  - cbn [merge_roots]. unfold merge_root. rewrite (deref_Some _ _ _ Hroot).
    cbn [mbind outcome_bind]. rewrite Hc. cbn [for_each mbind outcome_bind fold_left fst snd].
    destruct (IH {| m_visits := m_visits acc; m_wins := m_wins acc;
                    m_games_played := m_games_played acc + Node.visits root |}) as [g Hg].
    exists g. exact Hg.
Qed.

(** C4.  When the root position has exactly one legal move, [compute_move]
    returns that move at once: whatever the options and with no step
    budget at all, no worker is started and no tree is built. *)
Theorem compute_move_single_move (fuel : nat) (root_state : State)
    (options : ComputeOptions) (seed : Z) (clocks : nat → C) (m : Move) :
  get_moves root_state = [m] →
  compute_move_run fuel root_state options seed clocks = Done (ShortCircuit m)
  ∧ compute_move fuel root_state options seed clocks = Done m
  ∧ compute_move O root_state options seed clocks = Done m.
Proof.
  intros Hm. unfold compute_move, compute_move_run. rewrite Hm. simpl.
  repeat split; reflexivity.
Qed.

(** C1, as the code has it.  When the root position has no legal move,
    [compute_move] does not return at once and does not return
    [State::no_move]: with an iteration count from 0 to below [INT_MAX]
    (at [INT_MAX] the loop counter of a worker overflows and the loop
    condition never fails) and no time limit, every worker runs its
    iterations on a tree that stays the root alone, nothing is merged, and
    the default-constructed move is returned, without an error. *)
Theorem compute_move_final_position (fuel : nat) (root_state : State)
    (options : ComputeOptions) (seed : Z) (clocks : nat → C) :
  get_moves root_state = [] →
  0 ≤ max_iterations options < INT_MAX → (max_time options <? 0)%float = true →
  (Z.to_nat (max_iterations options + 1) < fuel)%nat → (moves_left root_state < fuel)%nat →
  ∃ roots merged,
    compute_move_run fuel root_state options seed clocks
    = Done (Searched roots merged Move_default)
    ∧ compute_move fuel root_state options seed clocks = Done Move_default
    ∧ length roots = Z.to_nat (number_of_threads options)
    ∧ Forall (λ a, length a = 1%nat ∧ root_visits a = max_iterations options) roots
    ∧ m_visits merged = [] ∧ m_wins merged = [].
Proof.
  intros Hnil Hn Htime Hfuel Hleft.
  unfold compute_move, compute_move_run. rewrite Hnil. simpl.
  set (job := set_verbose options false).
  destruct (for_each_all
              (λ t, compute_tree fuel root_state job seed (clocks t))
              (λ a, root_stuck a ∧ length a = 1%nat ∧ root_visits a = max_iterations options)
              (seq 0 (Z.to_nat (number_of_threads options))))
    as (roots & -> & Hall & Hlen).
  { intros t _.
    destruct (compute_tree_counts fuel root_state job seed (clocks t))
      as (a & _ & Hrun & Hrv); try assumption; [reflexivity|].
    exists a. split; [assumption|].
    destruct (compute_tree_looped _ _ _ _ _ _ Hrun) as (_ & _ & Hstuck).
    destruct (Hstuck Hnil) as [Hs Hl]. repeat split; assumption. }
  simpl.
  destruct (merge_roots_stuck roots Merged_empty) as [games ->].
  { eapply Forall_impl; [exact Hall|]. intros a (Hs & _). exact Hs. }
  simpl. eexists _, _. split; [reflexivity|]. split; [reflexivity|].
  split; [rewrite Hlen; apply length_seq|].
  split; [|split; reflexivity].
  eapply Forall_impl; [exact Hall|]. intros a (_ & Hl & Hv). split; assumption.
Qed.

(** C9, as the code has it.  [compute_move] checks nothing before it
    starts the workers.  (a) With fewer than one thread it starts none and
    returns the default-constructed move without an error.  (b) With a time
    limit in a build without OpenMP, every worker throws before it builds a
    tree, and [compute_move], with at least one thread, passes the exception
    on when it collects the first result.  (c) With neither an iteration
    count nor a time limit the first worker never returns, and neither does
    [compute_move]. *)
Theorem compute_move_unchecked_options (fuel : nat) (root_state : State)
    (options : ComputeOptions) (seed : Z) (clocks : nat → C) :
  length (get_moves root_state) ≠ 1%nat →
  (number_of_threads options < 1 →
     compute_move fuel root_state options seed clocks = Done Move_default)
  ∧ (1 ≤ number_of_threads options → USE_OPENMP = false →
     (0 <=? max_time options)%float = true →
     (∀ clock, compute_tree fuel root_state (set_verbose options false) seed clock
               = Throw "ComputeOptions::max_time requires OpenMP.")
     ∧ compute_move fuel root_state options seed clocks
       = Throw "ComputeOptions::max_time requires OpenMP.")
  ∧ (1 ≤ number_of_threads options → max_iterations options < 0 →
     (max_time options <? 0)%float = true →
     compute_move fuel root_state options seed clocks = OutOfFuel).
Proof.
  intros Hmoves. unfold compute_move, compute_move_run.
  destruct (decide (length (get_moves root_state) = 1%nat)) as [Hc|_]; [contradiction|].
  split; [|split].
  - intros Ht. replace (Z.to_nat (number_of_threads options)) with 0%nat by lia.
    reflexivity.
  - intros Ht Hbuild Htime.
    assert (∀ clock, compute_tree fuel root_state (set_verbose options false) seed clock
                     = Throw "ComputeOptions::max_time requires OpenMP.") as Hthrow.
    { intros clock. unfold compute_tree, compute_tree_run. simpl.
      rewrite Htime, Hbuild. reflexivity. }
    split; [exact Hthrow|].
    destruct (Z.to_nat (number_of_threads options)) as [|k] eqn:Hk; [lia|].
    simpl. rewrite Hthrow. reflexivity.
  - intros Ht Hn Htime.
    destruct (Z.to_nat (number_of_threads options)) as [|k] eqn:Hk; [lia|].
    simpl. rewrite compute_tree_unbounded by (reflexivity || assumption). reflexivity.
Qed.
Lemma for_each_Done_inv {A B} (f : A → outcome B) (l : list A) (ys : list B) :
  for_each f l = Done ys →
  length ys = length l
  ∧ ∀ i y, ys !! i = Some y → ∃ x, l !! i = Some x ∧ f x = Done y.
Proof.
  revert ys. induction l as [|x l IH]; intros ys Hrun; simpl in Hrun.
  - injection Hrun as <-. split; [reflexivity|]. intros i y Hy. discriminate.
  - apply bind_Done in Hrun as (y0 & Hy0 & Hrun).
    apply bind_Done in Hrun as (ys' & Hys' & Hrun). injection Hrun as <-.
    destruct (IH ys' Hys') as [Hlen Hall].
    split; [simpl; rewrite Hlen; reflexivity|].
    intros [|i] y Hy; simpl in Hy.
    + injection Hy as <-. exists x. split; [reflexivity|assumption].
    + apply (Hall i y Hy).
Qed.

Lemma wf_root_readable (a : Arena Move) : wf_tree a → root_readable a.
Proof.
  intros Hwf. destruct (wf_root a Hwf) as (root & Hroot & _).
  exists root. split; [assumption|]. intros c Hc.
  destruct (wf_children a Hwf 0%nat root c Hroot Hc) as (_ & cn & Hcn & _). eauto.
Qed.

(** *** The node made by an expansion *)

Lemma expand_new_node (a : Arena Move) (node : nat) (n : Node.t Move) (state : State)
    (engine : E) :
  wf_tree a → a !! node = Some n → has_untried_moves n = true →
  ∃ a' state' engine' child,
    expand a node state engine = Done (a', length a, state', engine')
    ∧ a' !! length a = Some child
    ∧ Node.move child ∈ Node.moves n
    ∧ Node.parent child = Some node
    ∧ state' = do_move state (Node.move child)
    ∧ Node.player_to_move child = player_to_move state'
    ∧ ∀ fuel final a'',
        backpropagate fuel a' (Some (length a)) final = Done a'' →
        a'' !! length a
        = Some (update_node child (get_result final (Node.player_to_move child))).
Proof.
  intros Hwf Hn Hun.
  destruct (expand_spec a node n state engine Hn) as ([[[a' x'] state'] engine'] & Hrun & Hexp).
  pose proof (expanded_facts a node n state _ Hwf Hn (or_introl Hun) Hexp)
    as (Hwf' & Hx' & _).
  unfold expanded in Hexp. rewrite Hun in Hexp.
  destruct Hexp as (move & moves' & Hin & _ & Hstate & -> & Ha').
  simpl in Hwf', Hx'.
  set (child := Node_child state' move node).
  assert (a' !! length a = Some child) as Hchild.
  { rewrite Ha'. apply lookup_grown; [eapply lookup_lt_Some, Hn|].
    right; right. split; reflexivity. }
  exists a', state', engine', child.
  split; [exact Hrun|]. split; [exact Hchild|]. split; [exact Hin|].
  split; [reflexivity|]. split; [exact Hstate|]. split; [reflexivity|].
  intros fuel final a'' Hback.
  pose proof (backpropagate_spec fuel a' (length a) final (wf_parents_below _ Hwf') Hx')
    as Hspec.
  destruct (done_or_short_Done _ _ _ _ Hspec Hback) as [_ Hupd].
  apply (Hupd _ _ Hchild). constructor.
Qed.
End TreeSteps.

(** ** Gomoku *)

(** A counting loop whose position moves one step closer to the edge at
    every turn makes no more turns than its distance [dist] to the edge. *)
Lemma count_run_enough (fuel fuel' : nat) (b : list (list ascii)) (piece : ascii)
    (in_range : Z → Z → bool) (drow dcol : Z) (dist : Z → Z → Z) (row col : Z) :
  (∀ r c, in_range r c = true → 0 ≤ dist r c) →
  (∀ r c, dist (r + drow) (c + dcol) = dist r c - 1) →
  dist row col < Z.of_nat fuel → dist row col < Z.of_nat fuel' →
  Gomoku.count_run fuel b piece in_range drow dcol row col
  = Gomoku.count_run fuel' b piece in_range drow dcol row col.
Proof.
  intros Hpos Hstep. revert fuel' row col.
  induction fuel as [|fuel IH]; intros fuel' row col Hfuel Hfuel'.
  - destruct fuel' as [|fuel']; [reflexivity|]. simpl.
    destruct (in_range row col) eqn:Hin; [|reflexivity].
    specialize (Hpos _ _ Hin). lia.
  - destruct fuel' as [|fuel']; simpl.
    + destruct (in_range row col) eqn:Hin; [|reflexivity].
      specialize (Hpos _ _ Hin). lia.
    + destruct (in_range row col) eqn:Hin; [|reflexivity]. simpl.
      destruct (Ascii.eqb _ _); [|reflexivity].
      rewrite (IH fuel'); [reflexivity| |]; rewrite Hstep; lia.
Qed.

(** With the last piece on the board, more steps change nothing. *)
Lemma get_winner_within_enough (s : Gomoku.State) (n : nat) :
  0 ≤ Gomoku.last_row s < Gomoku.num_rows s →
  0 ≤ Gomoku.last_col s < Gomoku.num_cols s →
  (Z.to_nat (Z.max (Gomoku.num_rows s) (Gomoku.num_cols s)) ≤ n)%nat →
  Gomoku.get_winner_within n s = Gomoku.get_winner s.
Proof.
  intros Hrow Hcol Hn. unfold Gomoku.get_winner, Gomoku.get_winner_within.
  set (n0 := Z.to_nat (Z.max (Gomoku.num_rows s) (Gomoku.num_cols s))) in *.
  rewrite (count_run_enough n n0 _ _ _ 0 (-1) (λ _ c, c)); [|intros; lia..].
  rewrite (count_run_enough n n0 _ _ _ 0 1 (λ _ c, Gomoku.num_cols s - 1 - c));
    [|intros; lia..].
  rewrite (count_run_enough n n0 _ _ _ (-1) 0 (λ r _, r)); [|intros; lia..].
  rewrite (count_run_enough n n0 _ _ _ 1 0 (λ r _, Gomoku.num_rows s - 1 - r));
    [|intros; lia..].
  rewrite (count_run_enough n n0 _ _ _ (-1) (-1) (λ r _, r)); [|intros; lia..].
  rewrite (count_run_enough n n0 _ _ _ 1 1 (λ r _, Gomoku.num_rows s - 1 - r));
    [|intros; lia..].
  rewrite (count_run_enough n n0 _ _ _ 1 (-1) (λ _ c, c)); [|intros; lia..].
  rewrite (count_run_enough n n0 _ _ _ (-1) 1 (λ r _, r)); [|intros; lia..].
  reflexivity.
Qed.

(** C2, as the code has it.  For a player [p] in {1, 2}, [get_result p] is
    0.0 when [p] is the winner, 1.0 when the other player is the winner and
    0.5 when nobody has won: the value is the outcome for the opponent of
    [p], the player who moved last when [p] is to move. *)
Theorem get_result_opponent_view (s : Gomoku.State) (p : Z) :
  p = 1 ∨ p = 2 →
  (Gomoku.get_winner s = Gomoku.player_markers p → Gomoku.get_result s p = 0%float)
  ∧ (Gomoku.get_winner s = Gomoku.player_markers (3 - p) → Gomoku.get_result s p = 1%float)
  ∧ (Gomoku.get_winner s = Gomoku.player_markers 0 → Gomoku.get_result s p = 0.5%float).
Proof.
  intros Hp. unfold Gomoku.get_result.
  split; [|split]; intros ->; destruct Hp as [-> | ->]; reflexivity.
Qed.

(** C3, as the code has it.  The node made by an expansion stores the
    player to move after its move was played, the working state being
    advanced by [do_move] before [add_child] reads it: in Gomoku the
    opponent of the player who played the move.  Backpropagation reads the
    result at the node for that stored player. *)
Theorem expand_stores_player_after_move {E : Type} `{RandomEngine E}
    (a : Arena Gomoku.Move) (node : nat) (n : Node.t Gomoku.Move) (state : Gomoku.State)
    (engine : E) :
  wf_tree a → a !! node = Some n → has_untried_moves n = true →
  ∃ a' state' engine' child,
    expand a node state engine = Done (a', length a, state', engine')
    ∧ a' !! length a = Some child
    ∧ state' = Gomoku.do_move state (Node.move child)
    ∧ Node.player_to_move child = Gomoku.player_to_move state'
    ∧ Node.player_to_move child = 3 - Gomoku.player_to_move state
    ∧ ∀ fuel final a'',
        backpropagate fuel a' (Some (length a)) final = Done a'' →
        a'' !! length a
        = Some (update_node child (Gomoku.get_result final (Node.player_to_move child))).
Proof.
  intros Hwf Hn Hun.
  destruct (expand_new_node a node n state engine Hwf Hn Hun)
    as (a' & state' & engine' & child & Hrun & Hchild & _ & _ & Hstate & Hplayer & Hback).
  exists a', state', engine', child.
  split; [exact Hrun|]. split; [exact Hchild|]. split; [exact Hstate|].
  split; [exact Hplayer|]. split; [|exact Hback].
  rewrite Hplayer, Hstate. reflexivity.
Qed.

(** ** The tree that the search grows *)

Section TreeInvariants.
Context {E C State Move : Type}.
Context `{RandomEngine E} `{WallClock C} `{Platform} `{GameState State Move}.

(** Whether a node lies on a walk to the root can be told. *)
Lemma on_path_decide (a : Arena Move) (x i : nat) :
  parents_below a → on_path a x i ∨ ¬ on_path a x i.
Proof.
  intros Hpb. induction x as [x IH] using lt_wf_ind.
  destruct (decide (i = x)) as [->|Hne]; [left; constructor|].
  destruct (parent_of a x) as [p|] eqn:Hp.
  - destruct (IH p (Hpb x p Hp)) as [Hon|Hoff].
    + left. apply on_path_up with p; assumption.
    + right. intros Hpath. apply on_path_inv in Hpath as [->|(p' & Hp' & Hpath)];
        [congruence|]. apply Hoff. congruence.
  - right. intros Hpath. apply on_path_inv in Hpath as [->|(p' & Hp' & _)]; congruence.
Qed.

(** A node after backpropagation is the node before, updated if it lies on
    the walk. *)
Lemma backpropagated_node (a a' : Arena Move) (x : nat) (state : State) (i : nat)
    (n' : Node.t Move) :
  parents_below a → backpropagated a x state a' → a' !! i = Some n' →
  ∃ n, a !! i = Some n
    ∧ ((on_path a x i ∧ n' = update_node n (result_at state n))
       ∨ (¬ on_path a x i ∧ n' = n)).
Proof.
  intros Hpb [Hlen Hspec] Hi.
  assert (i < length a)%nat as Hlt by (rewrite <- Hlen; eapply lookup_lt_Some, Hi).
  destruct (lookup_lt_is_Some_2 _ _ Hlt) as [n Hn].
  exists n. split; [assumption|].
  destruct (Hspec i n Hn) as [Hon Hoff].
  destruct (on_path_decide a x i Hpb) as [Hp|Hp].
  - left. split; [assumption|]. specialize (Hon Hp). congruence.
  - right. split; [assumption|]. specialize (Hoff Hp). congruence.
Qed.

(** The parent of a node on the walk is on the walk. *)
Lemma on_path_parent (a : Arena Move) (x c p : nat) :
  on_path a x c → parent_of a c = Some p → on_path a x p.
Proof.
  induction 1 as [x|x q c Hq _ IH]; intros Hp.
  - apply on_path_up with p; [assumption|constructor].
  - apply on_path_up with q; [assumption|]. apply IH, Hp.
Qed.

(** A walk that passes through a node other than its start passes through
    exactly one child of that node. *)
Lemma on_path_one_child (a : Arena Move) (x i : nat) (n : Node.t Move) :
  wf_tree a → a !! i = Some n → on_path a x i → i ≠ x → (x < length a)%nat →
  ∃ c, c ∈ Node.children n ∧ on_path a x c
       ∧ ∀ c', c' ∈ Node.children n → on_path a x c' → c' = c.
Proof.
  intros Hwf Hn Hpath. induction Hpath as [x|x p i Hp Hpath IH]; intros Hne Hx; [congruence|].
  pose proof (wf_parents_below a Hwf) as Hpb.
  destruct (lookup_lt_is_Some_2 _ _ Hx) as [xn Hxn].
  assert (0 < x)%nat as Hpos by (specialize (Hpb x p Hp); lia).
  destruct (wf_parent a Hwf x xn Hxn Hpos) as (p' & pn & Hp' & Hlt & Hpn & Hin).
  assert (p' = p) as -> by (unfold parent_of in Hp; rewrite Hxn in Hp; congruence).
  destruct (decide (i = p)) as [->|Hip].
  - assert (pn = n) as -> by congruence.
    exists x. split; [assumption|]. split; [constructor|].
    intros c' Hc' Hpath'. apply on_path_inv in Hpath' as [->|(q & Hq & Hpath')]; [reflexivity|].
    assert (q = p) as -> by congruence.
    apply (on_path_le _ _ _ Hpb) in Hpath'.
    destruct (wf_children a Hwf p n c' Hn Hc') as [Hlt' _]. lia.
  - destruct (IH Hn Hip (lookup_lt_Some _ _ _ Hpn)) as (c & Hc & Hpc & Huniq).
    exists c. split; [assumption|]. split; [apply on_path_up with p; assumption|].
    intros c' Hc' Hpath'. apply on_path_inv in Hpath' as [->|(q & Hq & Hpath')].
    + exfalso. destruct (wf_children a Hwf i n x Hn Hc') as [_ (cn & Hcn & Hpar)].
      unfold parent_of in Hp. rewrite Hcn in Hp. congruence.
    + assert (q = p) as -> by congruence. apply Huniq; assumption.
Qed.

(** What one iteration is made of: the node the descent stops at, the
    tree after expansion, the final state of the playout, and the
    backpropagation from the node moved to. *)
Lemma iteration_steps (fuel : nat) (root_state : State) (a : Arena Move) (engine : E)
    (a' : Arena Move) (engine' : E) :
  wf_tree a → iteration fuel root_state a engine = Done (a', engine') →
  ∃ x n st a2 x2 st2 (e2 : E) st3,
    select_leaf fuel a 0%nat root_state = Done (x, st)
    ∧ a !! x = Some n
    ∧ (has_untried_moves n = true ∨ has_children n = false)
    ∧ expanded a x n st (a2, x2, st2, e2)
    ∧ wf_tree a2 ∧ (x2 < length a2)%nat
    ∧ has_moves st3 = false
    ∧ backpropagated a2 x2 st3 a'.
Proof.
  intros Hwf Hrun. unfold iteration in Hrun.
  destruct (wf_root a Hwf) as (root & Hroot & _).
  pose proof (lookup_lt_Some _ _ _ Hroot) as Hlen0.
  apply bind_Done in Hrun as ([x st] & Hsel & Hrun).
  destruct (done_or_short_Done _ _ _ _ (select_leaf_spec fuel a 0%nat root_state Hwf Hlen0) Hsel)
    as (_ & (n & Hn & Hexit) & _).
  simpl in Hn.
  destruct (expand_spec a x n st engine Hn) as ([[[a2 x2] st2] e2] & Hexp & Hexpd).
  rewrite Hexp in Hrun. simpl in Hrun.
  destruct (expanded_facts a x n st _ Hwf Hn Hexit Hexpd) as (Hwf2 & Hx2 & _).
  simpl in Hwf2, Hx2.
  apply bind_Done in Hrun as ([st3 e3] & Hplay & Hrun).
  pose proof (done_or_short_Done _ _ _ _ (playout_spec fuel st2 e2) Hplay) as Hfinal.
  simpl in Hfinal.
  apply bind_Done in Hrun as (a3 & Hback & Hrun). injection Hrun as <- <-.
  pose proof (done_or_short_Done _ _ _ _
                (backpropagate_spec fuel a2 x2 st3 (wf_parents_below _ Hwf2) Hx2) Hback)
    as Hbackd.
  exists x, n, st, a2, x2, st2, e2, st3.
  do 7 (split; [assumption|]). assumption.
Qed.

(** A property of trees that every iteration keeps holds when the loop is
    left. *)
Lemma tree_loop_invariant (P : Arena Move → Prop) (fuel : nat) (root_state : State)
    (options : ComputeOptions) (start_time : float) :
  (∀ a engine a' engine', wf_tree a → P a →
     iteration fuel root_state a engine = Done (a', engine') → P a') →
  ∀ budget iter a engine clock print_time r,
    wf_tree a → P a →
    tree_loop fuel root_state options start_time budget iter a engine clock print_time
    = Done r →
    P r.1.
Proof.
  intros Hstep. induction budget as [|budget IH];
    intros iter a engine clock print_time r Hwf HP; simpl;
    destruct ((iter <=? max_iterations options) || (max_iterations options <? 0)).
  - discriminate.
  - intros Hr. injection Hr as <-. exact HP.
  - intros Hr. apply bind_Done in Hr as ([a1 e1] & Hit & Hr).
    pose proof (it_wf _ _ (done_or_short_Done _ _ _ _
                             (iteration_spec fuel root_state a engine Hwf) Hit)) as Hwf1.
    pose proof (Hstep _ _ _ _ Hwf HP Hit) as HP1. simpl in Hwf1.
    destruct (USE_OPENMP && (verbose options || (0 <=? max_time options)%float));
      [|apply (IH _ _ _ _ _ _ Hwf1 HP1 Hr)].
    destruct (omp_get_wtime clock) as [time clock'].
    destruct (max_time options <=? time - start_time)%float;
      [|apply (IH _ _ _ _ _ _ Hwf1 HP1 Hr)].
    injection Hr as <-. exact HP1.
  - intros Hr. injection Hr as <-. exact HP.
Qed.

Lemma compute_tree_invariant (P : Arena Move → Prop) (fuel : nat) (root_state : State)
    (options : ComputeOptions) (initial_seed : Z) (clock : C) (a : Arena Move) :
  P [Node_root root_state] →
  (∀ a engine a' engine', wf_tree a → P a →
     iteration fuel root_state a engine = Done (a', engine') → P a') →
  compute_tree fuel root_state options initial_seed clock = Done a → P a.
Proof.
  intros Hinit Hstep. unfold compute_tree, compute_tree_run.
  destruct ((0 <=? max_time options)%float && negb USE_OPENMP); [discriminate|].
  destruct (if USE_OPENMP then omp_get_wtime clock else (0%float, clock))
    as [start_time clock'].
  intros Hrun. apply bind_Done in Hrun as (r & Hloop & Heq). injection Heq as <-.
  apply (tree_loop_invariant P fuel root_state options start_time Hstep _ _ _ _ _ _ _
           (wf_tree_root root_state) Hinit Hloop).
Qed.
End TreeInvariants.

Section VisitCounts.
Context {E C State Move : Type}.
Context `{RandomEngine E} `{WallClock C} `{Platform} `{GameState State Move}.

Lemma visits_at_on_walk (a a' : Arena Move) (x : nat) (state : State) (c : nat)
    (cn : Node.t Move) :
  backpropagated a x state a' → a !! c = Some cn →
  (on_path a x c → visits_at a' c = visits_at a c + 1)
  ∧ (¬ on_path a x c → visits_at a' c = visits_at a c).
Proof.
  intros [_ Hspec] Hc. destruct (Hspec c cn Hc) as [Hon Hoff].
  unfold visits_at. rewrite Hc. split; intros Hp.
  - rewrite (Hon Hp). reflexivity.
  - rewrite (Hoff Hp). reflexivity.
Qed.

(** Backpropagation adds one visit to the children of a node the walk
    passes through, and none to the children of any other node. *)
Lemma children_visits_on_walk (a a' : Arena Move) (x : nat) (state : State) (i : nat)
    (n : Node.t Move) :
  wf_tree a → (x < length a)%nat → backpropagated a x state a' → a !! i = Some n →
  on_path a x i → i ≠ x →
  children_visits a' n = children_visits a n + 1.
Proof.
  intros Hwf Hx Hback Hn Hpath Hne.
  destruct (on_path_one_child a x i n Hwf Hn Hpath Hne Hx) as (c0 & Hc0 & Hp0 & Huniq).
  unfold children_visits.
  apply (total_one_more _ _ _ c0); [apply (wf_nodup a Hwf i n Hn)|assumption| |].
  - destruct (wf_children a Hwf i n c0 Hn Hc0) as (_ & cn & Hcn & _).
    apply (visits_at_on_walk _ _ _ _ _ _ Hback Hcn), Hp0.
  - intros c Hc Hcne.
    destruct (wf_children a Hwf i n c Hn Hc) as (_ & cn & Hcn & _).
    apply (visits_at_on_walk _ _ _ _ _ _ Hback Hcn).
    intros Hp. apply Hcne, Huniq; assumption.
Qed.

Lemma children_visits_off_walk (a a' : Arena Move) (x : nat) (state : State) (i : nat)
    (n : Node.t Move) :
  wf_tree a → backpropagated a x state a' → a !! i = Some n →
  ¬ on_path a x i ∨ i = x →
  children_visits a' n = children_visits a n.
Proof.
  intros Hwf Hback Hn Hoff. unfold children_visits. apply total_ext. intros c Hc.
  destruct (wf_children a Hwf i n c Hn Hc) as (Hlt & cn & Hcn & Hpar).
  apply (visits_at_on_walk _ _ _ _ _ _ Hback Hcn).
  intros Hp. destruct Hoff as [Hoff| ->].
  - apply Hoff. apply (on_path_parent a x c i Hp).
    unfold parent_of. rewrite Hcn. exact Hpar.
  - apply (on_path_le _ _ _ (wf_parents_below a Hwf)) in Hp. lia.
Qed.

Lemma total_snoc (f : nat → Z) (cs : list nat) (c : nat) :
  total (map f (cs ++ [c])) = total (map f cs) + f c.
Proof. induction cs as [|c' cs IH]; simpl; [lia|]. rewrite IH. lia. Qed.

Lemma own_visits_bounds (i : nat) : 0 ≤ own_visits i ≤ 1.
Proof. unfold own_visits. destruct (decide (i = 0%nat)); lia. Qed.

(** One iteration keeps the visits accounted for. *)
Lemma visits_accounted_step (fuel : nat) (root_state : State) (a : Arena Move) (engine : E)
    (a' : Arena Move) (engine' : E) :
  wf_tree a → visits_accounted a →
  iteration fuel root_state a engine = Done (a', engine') → visits_accounted a'.
Proof.
  intros Hwf Hacc Hrun.
  destruct (iteration_steps fuel root_state a engine a' engine' Hwf Hrun)
    as (x & n & st & a2 & x2 & st2 & e2 & st3 & _ & Hn & Hexit & Hexp & Hwf2 & Hx2 & _ & Hback).
  pose proof (lookup_lt_Some _ _ _ Hn) as Hx.
  (* the tree after expansion: all is accounted for but the visit under way *)
  assert (∀ i n2, a2 !! i = Some n2 →
            own_visits i ≤ Node.visits n2 + (if decide (i = x2) then 1 else 0)
            ∧ (Node.moves n2 ≠ [] ∨ Node.children n2 ≠ [] →
               Node.visits n2 + (if decide (i = x2) then 1 else 0)
               = own_visits i + children_visits a2 n2)) as Hacc2.
  { unfold expanded in Hexp. destruct (has_untried_moves n) eqn:Hun.
    - destruct Hexp as (move & moves' & Hin & Her & -> & -> & ->).
      set (n' := with_child n moves' (length a)).
      set (child := Node_child (do_move st move) move x).
      assert (∀ i y, (<[x := n']> a ++ [child]) !! i = Some y ↔
                (i = x ∧ y = n') ∨ (i ≠ x ∧ a !! i = Some y) ∨ (i = length a ∧ y = child))
        as Hlk by (intros; apply lookup_grown; assumption).
      assert (∀ c, (c < length a)%nat →
                visits_at (<[x := n']> a ++ [child]) c = visits_at a c) as Hsame.
      { intros c Hc. destruct (lookup_lt_is_Some_2 _ _ Hc) as [cn Hcn].
        unfold visits_at. rewrite Hcn.
        destruct (decide (c = x)) as [->|Hne].
        - assert (cn = n) as -> by congruence.
          rewrite (proj2 (Hlk x n') (or_introl (conj eq_refl eq_refl))). reflexivity.
        - rewrite (proj2 (Hlk c cn) (or_intror (or_introl (conj Hne Hcn)))). reflexivity. }
      assert (∀ i y, a !! i = Some y →
                children_visits (<[x := n']> a ++ [child]) y = children_visits a y) as Hcv.
      { intros i y Hy. unfold children_visits. apply total_ext. intros c Hc. apply Hsame.
        destruct (wf_children a Hwf i y c Hy Hc) as (_ & cn & Hcn & _).
        eapply lookup_lt_Some, Hcn. }
      intros i n2 Hi. apply Hlk in Hi as [[-> ->]|[[Hne Hi]|[-> ->]]].
      + rewrite decide_False by lia. rewrite Z.add_0_r.
        destruct (Hacc x n Hn) as [Hown Hopen]. split; [exact Hown|]. intros _.
        assert (children_visits (<[x := n']> a ++ [child]) n'
                = children_visits (<[x := n']> a ++ [child]) n
                  + visits_at (<[x := n']> a ++ [child]) (length a)) as ->
          by apply total_snoc.
        unfold visits_at at 1.
        rewrite (proj2 (Hlk (length a) child) (or_intror (or_intror (conj eq_refl eq_refl)))).
        simpl. rewrite Z.add_0_r.
        rewrite (Hcv x n Hn). apply Hopen. left.
        unfold has_untried_moves in Hun. intros Hnil. rewrite Hnil in Hun. discriminate.
      + rewrite decide_False by (apply lookup_lt_Some in Hi; lia). rewrite Z.add_0_r.
        rewrite (Hcv i n2 Hi). apply (Hacc i n2 Hi).
      + rewrite decide_True by reflexivity. simpl.
        pose proof (own_visits_bounds (length a)).
        split; [lia|]. intros _. unfold children_visits, own_visits. simpl.
        rewrite decide_False by lia. reflexivity.
    - destruct Hexp as (-> & -> & ->). intros i n2 Hi.
      destruct (decide (i = x)) as [->|Hne].
      + assert (n2 = n) as -> by congruence.
        destruct (Hacc x n Hn) as [Hown _]. split; [lia|].
        intros Hopen. exfalso. unfold has_untried_moves in Hun.
        destruct Hexit as [Hc|Hc]; [discriminate|]. unfold has_children in Hc.
        destruct Hopen as [Ho|Ho].
        * rewrite bool_decide_false in Hun by assumption. discriminate.
        * rewrite bool_decide_false in Hc by assumption. discriminate.
      + rewrite Z.add_0_r. apply (Hacc i n2 Hi). }
  (* backpropagation completes the visit *)
  intros i n' Hi.
  destruct (backpropagated_node a2 a' x2 st3 i n' (wf_parents_below _ Hwf2) Hback Hi)
    as (n2 & Hn2 & Hcase).
  destruct (Hacc2 i n2 Hn2) as [Hown Hopen].
  assert (children_visits a' n' = children_visits a' n2) as Hcv.
  { destruct Hcase as [[_ ->]|[_ ->]]; reflexivity. }
  rewrite Hcv.
  destruct Hcase as [[Hp ->]|[Hp ->]]; simpl.
  - destruct (decide (i = x2)) as [->|Hne].
    + rewrite (children_visits_off_walk a2 a' x2 st3 x2 n2 Hwf2 Hback Hn2 (or_intror eq_refl)).
      split; [lia|exact Hopen].
    + rewrite (children_visits_on_walk a2 a' x2 st3 i n2 Hwf2 Hx2 Hback Hn2 Hp Hne).
      split; [lia|]. intros Ho. specialize (Hopen Ho). lia.
  - rewrite (children_visits_off_walk a2 a' x2 st3 i n2 Hwf2 Hback Hn2 (or_introl Hp)).
    destruct (decide (i = x2)) as [->|Hne]; [exfalso; apply Hp; constructor|].
    rewrite Z.add_0_r in Hown, Hopen. split; assumption.
Qed.

Lemma visits_accounted_root (state : State) : visits_accounted [Node_root state].
Proof.
  intros [|i] n Hi; [|discriminate]. injection Hi as <-. simpl.
  split; [reflexivity|]. intros _. reflexivity.
Qed.
End VisitCounts.

Section RootMoves.
Context {E C State Move : Type}.
Context `{RandomEngine E} `{WallClock C} `{Platform} `{GameState State Move}.

Lemma erase_first_Permutation (m : Move) (l l' : list Move) :
  erase_first m l = Some l' → l ≡ₚ m :: l'.
Proof.
  revert l'. induction l as [|x l IH]; intros l'; simpl; [discriminate|].
  destruct (decide (x = m)) as [->|Hne].
  - intros Heq. injection Heq as <-. reflexivity.
  - destruct (erase_first m l) as [l''|]; [|discriminate]. simpl.
    intros Heq. injection Heq as <-. rewrite (IH l'' eq_refl). apply Permutation_swap.
Qed.

Lemma root_children_moves (a : Arena Move) (root : Node.t Move) :
  a !! 0%nat = Some root →
  map Node.move (root_children a) = omap (move_at a) (Node.children root).
Proof.
  intros Hroot. unfold root_children. rewrite Hroot.
  induction (Node.children root) as [|c cs IH]; [reflexivity|].
  simpl. unfold move_at at 1. destruct (a !! c); simpl; [f_equal|]; exact IH.
Qed.

Lemma omap_move_at_ext (a a' : Arena Move) (cs : list nat) :
  (∀ c, c ∈ cs → move_at a' c = move_at a c) →
  omap (move_at a') cs = omap (move_at a) cs.
Proof.
  induction cs as [|c cs IH]; intros Hsame; [reflexivity|].
  assert (omap (move_at a') cs = omap (move_at a) cs) as IH'
    by (apply IH; intros c' Hc'; apply Hsame, list_elem_of_further, Hc').
  pose proof (Hsame c (list_elem_of_here _ _)) as Hc.
  change (omap (move_at a') (c :: cs))
    with (match move_at a' c with
          | Some y => y :: omap (move_at a') cs
          | None => omap (move_at a') cs
          end).
  rewrite Hc, IH'. reflexivity.
Qed.

(** Backpropagation leaves moves, frontiers and pointers as they are. *)
Lemma backpropagated_move_at (a a' : Arena Move) (x : nat) (state : State) (c : nat) :
  parents_below a → backpropagated a x state a' → move_at a' c = move_at a c.
Proof.
  intros Hpb Hback. unfold move_at.
  destruct (a' !! c) as [n'|] eqn:Hc'.
  - destruct (backpropagated_node a a' x state c n' Hpb Hback Hc') as (n & -> & Hcase).
    destruct Hcase as [[_ ->]|[_ ->]]; reflexivity.
  - destruct Hback as [Hlen _].
    rewrite (proj2 (lookup_ge_None a c)); [reflexivity|].
    rewrite <- Hlen. apply lookup_ge_None. exact Hc'.
Qed.

(** One iteration keeps the moves of the root position shared out between
    the frontier of the root and its children. *)
Lemma root_moves_split_step (fuel : nat) (root_state : State) (a : Arena Move) (engine : E)
    (a' : Arena Move) (engine' : E) :
  wf_tree a → root_moves_split root_state a →
  iteration fuel root_state a engine = Done (a', engine') →
  root_moves_split root_state a'.
Proof.
  intros Hwf (root & Hroot & Hsplit) Hrun.
  destruct (iteration_steps fuel root_state a engine a' engine' Hwf Hrun)
    as (x & n & st & a2 & x2 & st2 & e2 & st3 & _ & Hn & Hexit & Hexp & Hwf2 & Hx2 & _ & Hback).
  pose proof (lookup_lt_Some _ _ _ Hn) as Hx.
  rewrite (root_children_moves a root Hroot) in Hsplit.
  assert (∃ root2, a2 !! 0%nat = Some root2
            ∧ Node.moves root2 ++ omap (move_at a2) (Node.children root2)
              ≡ₚ get_moves root_state) as (root2 & Hroot2 & Hsplit2).
  { unfold expanded in Hexp. destruct (has_untried_moves n) eqn:Hun.
    - destruct Hexp as (move & moves' & Hin & Her & -> & -> & ->).
      set (n' := with_child n moves' (length a)).
      set (child := Node_child (do_move st move) move x).
      assert (∀ i y, (<[x := n']> a ++ [child]) !! i = Some y ↔
                (i = x ∧ y = n') ∨ (i ≠ x ∧ a !! i = Some y) ∨ (i = length a ∧ y = child))
        as Hlk by (intros; apply lookup_grown; assumption).
      assert (∀ c, (c < length a)%nat →
                move_at (<[x := n']> a ++ [child]) c = move_at a c) as Hsame.
      { intros c Hc. destruct (lookup_lt_is_Some_2 _ _ Hc) as [cn Hcn].
        unfold move_at. rewrite Hcn.
        destruct (decide (c = x)) as [->|Hne].
        - assert (cn = n) as -> by congruence.
          rewrite (proj2 (Hlk x n') (or_introl (conj eq_refl eq_refl))). reflexivity.
        - rewrite (proj2 (Hlk c cn) (or_intror (or_introl (conj Hne Hcn)))). reflexivity. }
      assert (omap (move_at (<[x := n']> a ++ [child])) (Node.children root)
              = omap (move_at a) (Node.children root)) as Hkeep.
      { apply omap_move_at_ext. intros c Hc. apply Hsame.
        destruct (wf_children a Hwf 0%nat root c Hroot Hc) as (_ & cn & Hcn & _).
        eapply lookup_lt_Some, Hcn. }
      destruct (decide (x = 0%nat)) as [->|Hne].
      + assert (n = root) as -> by congruence.
        exists n'. split; [apply Hlk; left; split; reflexivity|].
        simpl. rewrite omap_app, Hkeep. simpl. unfold move_at at 2.
        rewrite (proj2 (Hlk (length a) child) (or_intror (or_intror (conj eq_refl eq_refl)))).
        simpl. rewrite <- Hsplit, (erase_first_Permutation _ _ _ Her).
        rewrite (Permutation_app_comm (omap _ _) [move]). simpl.
        rewrite Permutation_middle. reflexivity.
      + exists root. split; [apply Hlk; right; left; split; [lia|assumption]|].
        rewrite Hkeep. exact Hsplit.
    - destruct Hexp as (-> & -> & ->). exists root. split; assumption. }
  pose proof (wf_parents_below _ Hwf2) as Hpb2.
  assert (0 < length a')%nat as Hlen'.
  { destruct Hback as [-> _]. eapply lookup_lt_Some, Hroot2. }
  destruct (lookup_lt_is_Some_2 _ _ Hlen') as [root' Hroot'].
  destruct (backpropagated_node a2 a' x2 st3 0%nat root' Hpb2 Hback Hroot')
    as (r2 & Hr2 & Hcase).
  assert (r2 = root2) as -> by congruence.
  exists root'. split; [assumption|].
  rewrite (root_children_moves a' root' Hroot').
  assert (Node.moves root' = Node.moves root2 ∧ Node.children root' = Node.children root2)
    as [-> ->] by (destruct Hcase as [[_ ->]|[_ ->]]; split; reflexivity).
  rewrite (omap_move_at_ext a2 a'); [exact Hsplit2|].
  intros c _. apply (backpropagated_move_at a2 a' x2 st3 c Hpb2 Hback).
Qed.

Lemma root_moves_split_root (state : State) : root_moves_split state [Node_root state].
Proof.
  exists (Node_root state). split; [reflexivity|]. simpl. rewrite app_nil_r. reflexivity.
Qed.

(** *** The loop without a clock *)

(** A loop that never reads the clock runs the same whatever the clock
    shows. *)
Lemma tree_loop_no_clock (fuel : nat) (root_state : State) (options : ComputeOptions)
    (start_time start_time' : float) (budget : nat) (iter : Z) (a : Arena Move) (engine : E)
    (clock clock' : C) (print_time print_time' : float) :
  no_clock options →
  tree_loop fuel root_state options start_time budget iter a engine clock print_time
  = tree_loop fuel root_state options start_time' budget iter a engine clock' print_time'.
Proof.
  intros Hquiet. revert iter a engine.
  induction budget as [|budget IH]; intros iter a engine; simpl; [reflexivity|].
  destruct ((iter <=? max_iterations options) || (max_iterations options <? 0));
    [|reflexivity].
  destruct (iteration fuel root_state a engine) as [[a1 e1]| | |]; try reflexivity.
  simpl. unfold no_clock in Hquiet. rewrite Hquiet. apply IH.
Qed.

Lemma compute_tree_no_clock (fuel : nat) (root_state : State) (options : ComputeOptions)
    (initial_seed : Z) (clock clock' : C) :
  no_clock options →
  compute_tree fuel root_state options initial_seed clock
  = compute_tree fuel root_state options initial_seed clock'.
Proof.
  intros Hquiet. unfold compute_tree, compute_tree_run.
  destruct ((0 <=? max_time options)%float && negb USE_OPENMP); [reflexivity|].
  destruct (if USE_OPENMP then omp_get_wtime clock else (0%float, clock))
    as [start_time clock1].
  destruct (if USE_OPENMP then omp_get_wtime clock' else (0%float, clock'))
    as [start_time' clock1'].
  rewrite (tree_loop_no_clock fuel root_state options start_time start_time' fuel 1 _ _
             clock1 clock1' start_time start_time' Hquiet).
  reflexivity.
Qed.
End RootMoves.

Section MoreOfTheSearch.
Context {E C State Move : Type}.
Context `{RandomEngine E} `{WallClock C} `{Platform} `{GameState State Move}.

(** The tree never holds more nodes than the root has visits, the root
    apart. *)
Lemma tree_size_step (fuel : nat) (root_state : State) (a : Arena Move) (engine : E)
    (a' : Arena Move) (engine' : E) :
  wf_tree a → Z.of_nat (length a) ≤ 1 + root_visits a →
  iteration fuel root_state a engine = Done (a', engine') →
  Z.of_nat (length a') ≤ 1 + root_visits a'.
Proof.
  intros Hwf Hsize Hrun.
  destruct (done_or_short_Done _ _ _ _ (iteration_spec fuel root_state a engine Hwf) Hrun)
    as [_ Hlen Hrv _ _].
  simpl in Hlen, Hrv. lia.
Qed.

(** With a count below [INT_MAX] and no clock to read, [compute_tree] runs
    its [max_iterations] iterations. *)
Lemma compute_tree_counted (fuel : nat) (root_state : State)
    (options : ComputeOptions) (initial_seed : Z) (clock : C) :
  verbose options = false ∨ USE_OPENMP = false →
  (0 <=? max_time options)%float = false →
  0 ≤ max_iterations options < INT_MAX →
  (Z.to_nat (max_iterations options + 1) < fuel)%nat → (moves_left root_state < fuel)%nat →
  ∃ a, compute_tree_run fuel root_state options initial_seed clock
       = Done (a, max_iterations options)
       ∧ compute_tree fuel root_state options initial_seed clock = Done a
       ∧ root_visits a = max_iterations options.
Proof.
  intros Hquiet Htime [Hn _] Hfuel Hleft.
  assert (no_clock options) as Hno.
  { unfold no_clock. rewrite Htime. destruct Hquiet as [-> | ->]; [apply andb_false_r|].
    reflexivity. }
  unfold compute_tree, compute_tree_run. rewrite Htime. simpl.
  destruct (if USE_OPENMP then omp_get_wtime clock else (0%float, clock))
    as [start_time clock'].
  destruct (tree_loop_counts fuel root_state options start_time fuel 1 [Node_root root_state]
              (seed_engine initial_seed) clock' start_time Hno Hn
              (wf_tree_root root_state)) as [a Hloop]; simpl; try lia.
  exists a. rewrite Hloop. split; [reflexivity|]. split; [reflexivity|].
  pose proof (tree_loop_spec fuel root_state options start_time fuel 1 [Node_root root_state]
                (seed_engine initial_seed) clock' start_time (wf_tree_root root_state)
                eq_refl) as Hspec.
  apply (lp_visits _ _ _ (done_or_short_Done _ _ _ _ Hspec Hloop)).
Qed.

Lemma compute_tree_size (fuel : nat) (root_state : State)
    (options : ComputeOptions) (initial_seed : Z) (clock : C) (a : Arena Move) :
  compute_tree fuel root_state options initial_seed clock = Done a →
  (1 ≤ length a)%nat ∧ Z.of_nat (length a) ≤ 1 + root_visits a.
Proof.
  intros Hrun. split.
  - destruct (compute_tree_looped _ _ _ _ _ _ Hrun) as (Hwf & _).
    destruct (wf_root a Hwf) as (r & Hr & _). apply lookup_lt_Some in Hr. lia.
  - apply (compute_tree_invariant (λ a, Z.of_nat (length a) ≤ 1 + root_visits a)
             fuel root_state options initial_seed clock a);
      [unfold root_visits; simpl; lia|apply tree_size_step|exact Hrun].
Qed.

(** X1.  With an iteration count from 0 to below [INT_MAX] (at [INT_MAX]
    the loop counter, an [int], cannot pass the count and overflows), no
    time limit ([max_time >= 0] is false: negative or not a number) and no
    clock to read in the loop (the run is not verbose, or the build has no
    OpenMP), [compute_tree] returns after exactly [max_iterations]
    iterations, given step budgets above the count and the moves left in
    the game: the root has [max_iterations] visits and the tree has at most
    one node per iteration beside the root. *)
Theorem compute_tree_iteration_count (fuel : nat) (root_state : State)
    (options : ComputeOptions) (initial_seed : Z) (clock : C) :
  verbose options = false ∨ USE_OPENMP = false →
  (0 <=? max_time options)%float = false →
  0 ≤ max_iterations options < INT_MAX →
  (Z.to_nat (max_iterations options + 1) < fuel)%nat → (moves_left root_state < fuel)%nat →
  ∃ a, compute_tree_run fuel root_state options initial_seed clock
       = Done (a, max_iterations options)
       ∧ compute_tree fuel root_state options initial_seed clock = Done a
       ∧ root_visits a = max_iterations options
       ∧ (1 ≤ length a ≤ Z.to_nat (max_iterations options) + 1)%nat.
Proof.
  intros Hquiet Htime Hn Hfuel Hleft.
  destruct (compute_tree_counted fuel root_state options initial_seed clock)
    as (a & Hrun & Htree & Hrv); try assumption.
  exists a. split; [exact Hrun|]. split; [exact Htree|]. split; [exact Hrv|].
  destruct (compute_tree_size _ _ _ _ _ _ Htree) as [Hone Hsize]. lia.
Qed.

(** X4.  Backpropagation from a node [x] of a well-formed tree ends
    within [x + 1] steps.  It updates once every node on the walk from [x]
    up the parent pointers, [x] and the root among them: one more visit,
    and the result of the final state for the player stored in the node
    added to its wins.  Every other node is left as it was, and no node is
    added or removed. *)
Theorem backpropagate_updates_walk (fuel : nat) (a : Arena Move) (x : nat) (state : State) :
  wf_tree a → (x < length a)%nat → (x < fuel)%nat →
  ∃ a', backpropagate fuel a (Some x) state = Done a'
    ∧ length a' = length a
    ∧ on_path a x x ∧ on_path a x 0%nat
    ∧ (∀ i n, a !! i = Some n → on_path a x i →
         a' !! i = Some (update_node n (get_result state (Node.player_to_move n)))
         ∧ Node.visits (update_node n (get_result state (Node.player_to_move n)))
           = Node.visits n + 1)
    ∧ (∀ i n, a !! i = Some n → ¬ on_path a x i → a' !! i = Some n).
Proof.
  intros Hwf Hx Hfuel.
  destruct (done_or_short_enough _ _ _
              (backpropagate_spec fuel a x state (wf_parents_below a Hwf) Hx))
    as (a' & Hrun & Hlen & Hspec); [lia|].
  exists a'. split; [exact Hrun|]. split; [exact Hlen|].
  split; [constructor|]. split; [apply on_path_root; assumption|].
  split.
  - intros i n Hi Hp. split; [|reflexivity]. apply (proj1 (Hspec i n Hi) Hp).
  - intros i n Hi Hp. apply (proj2 (Hspec i n Hi) Hp).
Qed.

(** X5.  Whatever stopped it, the tree that [compute_tree] returns is
    well formed: the root is first and has no parent; every other node has
    a parent allocated before it and is listed once among the children of
    that parent; the walk up the parent pointers from any node reaches the
    root; and beside the root there is at most one node per visit of the
    root. *)
Theorem compute_tree_well_formed (fuel : nat) (root_state : State)
    (options : ComputeOptions) (initial_seed : Z) (clock : C) (a : Arena Move) :
  compute_tree fuel root_state options initial_seed clock = Done a →
  wf_tree a
  ∧ (∀ i, (i < length a)%nat → on_path a i 0%nat)
  ∧ (1 ≤ length a)%nat ∧ Z.of_nat (length a) ≤ 1 + root_visits a.
Proof.
  intros Hrun.
  destruct (compute_tree_looped _ _ _ _ _ _ Hrun) as (Hwf & _).
  split; [exact Hwf|]. split; [intros i Hi; apply on_path_root; assumption|].
  apply (compute_tree_size _ _ _ _ _ _ Hrun).
Qed.

Lemma compute_tree_accounted (fuel : nat) (root_state : State)
    (options : ComputeOptions) (initial_seed : Z) (clock : C) (a : Arena Move) :
  compute_tree fuel root_state options initial_seed clock = Done a → visits_accounted a.
Proof.
  apply (compute_tree_invariant visits_accounted fuel root_state options initial_seed
           clock a (visits_accounted_root root_state)
           (visits_accounted_step fuel root_state)).
Qed.

Lemma compute_tree_split (fuel : nat) (root_state : State)
    (options : ComputeOptions) (initial_seed : Z) (clock : C) (a : Arena Move) :
  compute_tree fuel root_state options initial_seed clock = Done a →
  root_moves_split root_state a.
Proof.
  apply (compute_tree_invariant (root_moves_split root_state) fuel root_state options
           initial_seed clock a (root_moves_split_root root_state)
           (root_moves_split_step fuel root_state)).
Qed.

(** The children of the root of a finished tree: each was reached by a
    move of the root position and has been visited. *)
Lemma compute_tree_root_children (fuel : nat) (root_state : State)
    (options : ComputeOptions) (initial_seed : Z) (clock : C) (a : Arena Move) :
  compute_tree fuel root_state options initial_seed clock = Done a →
  Forall (λ n, Node.move n ∈ get_moves root_state ∧ 1 ≤ Node.visits n) (root_children a).
Proof.
  intros Hrun.
  destruct (compute_tree_split _ _ _ _ _ _ Hrun) as (root & Hroot & Hsplit).
  pose proof (compute_tree_accounted _ _ _ _ _ _ Hrun) as Hacc.
  destruct (compute_tree_looped _ _ _ _ _ _ Hrun) as (Hwf & _).
  apply Forall_forall. intros child Hchild. split.
  - rewrite <- Hsplit. apply elem_of_app. right.
    apply list_elem_of_fmap. exists child. split; [reflexivity|assumption].
  - unfold root_children in Hchild. rewrite Hroot in Hchild.
    apply list_elem_of_omap in Hchild as (c & Hc & Hcn).
    destruct (wf_children a Hwf 0%nat root c Hroot Hc) as (Hlt & _).
    destruct (Hacc c child Hcn) as [Hown _].
    unfold own_visits in Hown. rewrite decide_False in Hown by lia. exact Hown.
Qed.

(** X6.  In the tree that [compute_tree] returns, every node but the root
    has at least one visit, so that [select_child_UCT] never divides by a
    visit count of zero; and at every node with an untried move or a child,
    the visits are those of its children added up, plus, away from the
    root, the one visit that made the node. *)
Theorem compute_tree_visits_accounted (fuel : nat) (root_state : State)
    (options : ComputeOptions) (initial_seed : Z) (clock : C) (a : Arena Move) :
  compute_tree fuel root_state options initial_seed clock = Done a →
  ∀ i n, a !! i = Some n →
    ((0 < i)%nat → 1 ≤ Node.visits n)
    ∧ (Node.moves n ≠ [] ∨ Node.children n ≠ [] →
       Node.visits n = (if decide (i = 0%nat) then 0 else 1)
                       + total (map (visits_at a) (Node.children n)))
    ∧ (∀ c, c ∈ Node.children n → 1 ≤ visits_at a c).
Proof.
  intros Hrun i n Hi.
  pose proof (compute_tree_accounted _ _ _ _ _ _ Hrun) as Hacc.
  destruct (compute_tree_looped _ _ _ _ _ _ Hrun) as (Hwf & _).
  destruct (Hacc i n Hi) as [Hown Hopen].
  split; [|split].
  - intros Hpos. unfold own_visits in Hown. rewrite decide_False in Hown by lia. exact Hown.
  - exact Hopen.
  - intros c Hc. destruct (wf_children a Hwf i n c Hi Hc) as (Hlt & cn & Hcn & _).
    unfold visits_at. rewrite Hcn. destruct (Hacc c cn Hcn) as [Hownc _].
    unfold own_visits in Hownc. rewrite decide_False in Hownc by lia. exact Hownc.
Qed.

(** X7.  In the tree that [compute_tree] returns, the untried moves of the
    root together with the moves of its children are the moves of the root
    position, each as often as [get_moves] lists it: every child of the
    root was reached by a legal move, and when [get_moves] lists no move
    twice, no two children of the root share a move and no expanded move is
    still untried. *)
Theorem compute_tree_root_moves (fuel : nat) (root_state : State)
    (options : ComputeOptions) (initial_seed : Z) (clock : C) (a : Arena Move) :
  compute_tree fuel root_state options initial_seed clock = Done a →
  ∃ root, a !! 0%nat = Some root
    ∧ Node.moves root ++ map Node.move (root_children a) ≡ₚ get_moves root_state
    ∧ length (root_children a) = length (Node.children root)
    ∧ (∀ child, child ∈ root_children a → Node.move child ∈ get_moves root_state)
    ∧ (NoDup (get_moves root_state) →
       NoDup (map Node.move (root_children a))
       ∧ ∀ child, child ∈ root_children a → Node.move child ∉ Node.moves root).
Proof.
  intros Hrun.
  destruct (compute_tree_split _ _ _ _ _ _ Hrun) as (root & Hroot & Hsplit).
  destruct (compute_tree_looped _ _ _ _ _ _ Hrun) as (Hwf & _).
  exists root. split; [exact Hroot|]. split; [exact Hsplit|]. split; [|split].
  - unfold root_children. rewrite Hroot.
    assert (∀ c, c ∈ Node.children root → is_Some (a !! c)) as Hok.
    { intros c Hc. destruct (wf_children a Hwf 0%nat root c Hroot Hc) as (_ & cn & Hcn & _).
      eauto. }
    induction (Node.children root) as [|c cs IH]; [reflexivity|].
    destruct (Hok c (list_elem_of_here _ _)) as [cn Hcn]. simpl. rewrite Hcn. simpl.
    f_equal. apply IH. intros c' Hc'. apply Hok, list_elem_of_further, Hc'.
  - intros child Hchild. rewrite <- Hsplit. apply elem_of_app. right.
    apply list_elem_of_fmap. exists child. split; [reflexivity|assumption].
  - intros Hnd. rewrite <- Hsplit in Hnd. apply NoDup_app in Hnd as (_ & Hdisj & Hnd).
    split; [exact Hnd|]. intros child Hchild Hin. apply (Hdisj _ Hin).
    apply list_elem_of_fmap. exists child. split; [reflexivity|assumption].
Qed.
End MoreOfTheSearch.

Section TimeLimit.
Context {E C State Move : Type}.
Context `{RandomEngine E} `{WallClock C} `{Platform} `{GameState State Move}.

(** With a time limit the loop reads the clock once at the end of every
    iteration and is left at the first reading that shows the limit
    reached. *)
Lemma tree_loop_timed (fuel : nat) (root_state : State) (options : ComputeOptions)
    (start_time : float) (clock : C) (j : nat) (budget i : nat) (a : Arena Move) (engine : E)
    (print_time : float) :
  USE_OPENMP = true → (0 <=? max_time options)%float = true →
  (∀ i', (i ≤ i' < j)%nat →
     (max_time options <=? reading clock i' - start_time)%float = false) →
  (max_time options <=? reading clock j - start_time)%float = true →
  max_iterations options < 0 ∨ Z.of_nat j ≤ max_iterations options →
  wf_tree a → (1 ≤ i ≤ j)%nat → (length a ≤ i)%nat →
  (j < fuel)%nat → (moves_left root_state < fuel)%nat → (j - i < budget)%nat →
  ∃ a', tree_loop fuel root_state options start_time budget (Z.of_nat i) a engine
          (clock_after clock i) print_time
        = Done (a', Z.of_nat j).
Proof.
  intros Hbuild Htime Hbefore Hstop Hcount. revert i a engine print_time Hbefore.
  induction budget as [|budget IH];
    intros i a engine print_time Hbefore Hwf Hi Hlen Hfuel Hleft Hbudget; [lia|].
  simpl.
  replace ((Z.of_nat i <=? max_iterations options) || (max_iterations options <? 0))
    with true by (symmetry; apply orb_true_iff; lia).
  destruct (done_or_short_enough _ _ _ (iteration_spec fuel root_state a engine Hwf))
    as ([a1 e1] & -> & Hit); [lia|].
  simpl. destruct Hit as [Hwf1 Hlen1 _ _ _]. simpl in Hwf1, Hlen1.
  rewrite Hbuild, Htime, orb_true_r. simpl.
  destruct (omp_get_wtime (clock_after clock i)) as [time clock'] eqn:Hread.
  assert (time = reading clock i) as -> by (unfold reading; rewrite Hread; reflexivity).
  assert (clock' = clock_after clock (S i)) as -> by (simpl; rewrite Hread; reflexivity).
  destruct (decide (i = j)) as [->|Hne].
  - rewrite Hstop. exists a1. reflexivity.
  - rewrite (Hbefore i) by lia.
    replace (Z.of_nat i + 1) with (Z.of_nat (S i)) by lia.
    apply IH; try assumption; try lia.
    intros i' Hi'. apply Hbefore. lia.
Qed.

(** X19.  In a build with OpenMP and with a time limit, [compute_tree]
    reads the clock once before the loop and once at the end of every
    iteration, and returns at the first reading that shows [max_time]
    elapsed since the first one, provided the iteration count, if there is
    one, is not reached before: when that reading is number [j], with [j]
    at most [INT_MAX] so that the loop counter and the visits stay within
    [int], exactly [j] iterations are made and the root has [j] visits.
    One iteration at least is made, whatever the limit. *)
Theorem compute_tree_time_limit (fuel : nat) (root_state : State) (options : ComputeOptions)
    (initial_seed : Z) (clock : C) (j : nat) :
  USE_OPENMP = true → (0 <=? max_time options)%float = true →
  (1 ≤ j)%nat → Z.of_nat j ≤ INT_MAX →
  (∀ i, (1 ≤ i < j)%nat →
     (max_time options <=? reading clock i - reading clock 0)%float = false) →
  (max_time options <=? reading clock j - reading clock 0)%float = true →
  max_iterations options < 0 ∨ Z.of_nat j ≤ max_iterations options →
  (j < fuel)%nat → (moves_left root_state < fuel)%nat →
  ∃ a, compute_tree_run fuel root_state options initial_seed clock = Done (a, Z.of_nat j)
    ∧ compute_tree fuel root_state options initial_seed clock = Done a
    ∧ root_visits a = Z.of_nat j.
Proof.
  intros Hbuild Htime Hj _ Hbefore Hstop Hcount Hfuel Hleft.
  destruct (tree_loop_timed fuel root_state options (reading clock 0) clock j fuel 1%nat
              [Node_root root_state] (seed_engine initial_seed) (reading clock 0)
              Hbuild Htime Hbefore Hstop Hcount (wf_tree_root root_state))
    as [a Hloop]; [lia|simpl; lia|lia|lia|lia|].
  change (Z.of_nat 1) with 1 in Hloop.
  pose proof (tree_loop_spec fuel root_state options (reading clock 0) fuel 1
                [Node_root root_state] (seed_engine initial_seed) (clock_after clock 1)
                (reading clock 0) (wf_tree_root root_state) eq_refl) as Hspec.
  pose proof (lp_visits _ _ _ (done_or_short_Done _ _ _ _ Hspec Hloop)) as Hrv.
  exists a. unfold compute_tree, compute_tree_run. rewrite Hbuild, Htime.
  cbn [negb andb].
  assert (omp_get_wtime clock = (reading clock 0, clock_after clock 1)) as ->
    by (unfold reading; simpl; destruct (omp_get_wtime clock); reflexivity).
  rewrite Hloop. split; [reflexivity|]. split; [reflexivity|exact Hrv].
Qed.
End TimeLimit.

Section GameTree.
Context {E C State Move : Type}.
Context `{RandomEngine E} `{WallClock C} `{Platform} `{GameState State Move}.

Lemma path_moves_unique (a : Arena Move) (x : nat) (ms ms' : list Move) :
  wf_tree a → path_moves a x ms → path_moves a x ms' → ms = ms'.
Proof.
  intros Hwf Hp. revert ms'.
  destruct (wf_root a Hwf) as (r & Hr & Hnone).
  induction Hp as [|x n p ms Hn Hpar _ IH]; intros ms' Hp'.
  - inversion Hp' as [|x' n' p' ms0 Hn' Hpar' _]; [reflexivity|]. congruence.
  - inversion Hp' as [Hx|x' n' p' ms0 Hn' Hpar' Hp0]; subst.
    + congruence.
    + assert (n' = n) as -> by congruence. assert (p' = p) as -> by congruence.
      rewrite (IH ms0 Hp0). reflexivity.
Qed.

Lemma path_moves_exists (a : Arena Move) (x : nat) :
  wf_tree a → (x < length a)%nat → ∃ ms, path_moves a x ms.
Proof.
  intros Hwf. induction x as [x IH] using lt_wf_ind. intros Hx.
  destruct x as [|x]; [exists []; constructor|].
  destruct (lookup_lt_is_Some_2 _ _ Hx) as [n Hn].
  destruct (wf_parent a Hwf (S x) n Hn) as (p & pn & Hp & Hlt & Hpn & _); [lia|].
  destruct (IH p Hlt (lookup_lt_Some _ _ _ Hpn)) as [ms Hms].
  exists (ms ++ [Node.move n]). apply (path_child a (S x) n p ms Hn Hp Hms).
Qed.

(** The descent plays on the working state the moves of the nodes it
    passes through. *)
Lemma select_leaf_state (fuel : nat) (root_state : State) (a : Arena Move) (node : nat)
    (state : State) (ms : list Move) (x : nat) (st : State) :
  wf_tree a → path_moves a node ms → state = state_after root_state ms →
  select_leaf fuel a node state = Done (x, st) →
  ∃ ms', path_moves a x ms' ∧ st = state_after root_state ms'.
Proof.
  intros Hwf. revert node state ms.
  induction fuel as [|fuel IH]; intros node state ms Hpath Hstate; simpl;
    intros Hrun; apply bind_Done in Hrun as (n & Hn & Hrun);
    destruct (negb (has_untried_moves n) && has_children n) eqn:Hcond;
    try discriminate;
    try (injection Hrun as <- <-; exists ms; split; assumption).
  unfold deref, at_index in Hn. destruct (a !! node) as [n0|] eqn:Hnode; [|discriminate].
  injection Hn as ->.
  apply bind_Done in Hrun as (c & Hc & Hrun).
  apply bind_Done in Hrun as (cn & Hcn & Hrun).
  apply andb_true_iff in Hcond as [_ Hch].
  destruct (select_child_UCT_in a node n Hwf Hnode Hch) as (c' & cn' & Hc' & Hin & _ & Hcn').
  assert (c' = c) as -> by congruence.
  rewrite (deref_Some _ _ _ Hcn') in Hcn. injection Hcn as ->.
  destruct (wf_children a Hwf node n c Hnode Hin) as (_ & cn0 & Hcn0 & Hpar).
  assert (cn0 = cn) as -> by congruence.
  apply (IH c (do_move state (Node.move cn)) (ms ++ [Node.move cn])).
  - apply (path_child a c cn node ms Hcn' Hpar Hpath).
  - unfold state_after. rewrite fold_left_app. simpl. rewrite Hstate. reflexivity.
  - exact Hrun.
Qed.

(** Paths of the tree after backpropagation are paths of the tree before. *)
Lemma backpropagated_path (a a' : Arena Move) (x : nat) (state : State) (i : nat)
    (ms : list Move) :
  parents_below a → backpropagated a x state a' → path_moves a' i ms → path_moves a i ms.
Proof.
  intros Hpb Hback. induction 1 as [|i n' p ms Hn' Hpar _ IH]; [constructor|].
  destruct (backpropagated_node a a' x state i n' Hpb Hback Hn') as (n & Hn & Hcase).
  assert (Node.parent n = Some p ∧ Node.move n' = Node.move n) as [Hp ->]
    by (destruct Hcase as [[_ ->]|[_ ->]]; split; assumption || reflexivity).
  apply (path_child a i n p ms Hn Hp IH).
Qed.

(** One iteration keeps the tree a part of the game tree. *)
Lemma game_tree_step (fuel : nat) (root_state : State) (a : Arena Move) (engine : E)
    (a' : Arena Move) (engine' : E) :
  wf_tree a → game_tree root_state a →
  iteration fuel root_state a engine = Done (a', engine') → game_tree root_state a'.
Proof.
  intros Hwf Hgame Hrun.
  destruct (iteration_steps fuel root_state a engine a' engine' Hwf Hrun)
    as (x & n & st & a2 & x2 & st2 & e2 & st3 & Hsel & Hn & Hexit & Hexp & Hwf2 & Hx2 & _
        & Hback).
  pose proof (lookup_lt_Some _ _ _ Hn) as Hx.
  destruct (select_leaf_state fuel root_state a 0%nat root_state [] x st Hwf
              (path_root a) eq_refl Hsel) as (msx & Hpx & Hst).
  assert (game_tree root_state a2) as Hgame2.
  { unfold expanded in Hexp. destruct (has_untried_moves n) eqn:Hun.
    - destruct Hexp as (move & moves' & Hin & Her & -> & -> & ->).
      set (n' := with_child n moves' (length a)).
      set (child := Node_child (do_move st move) move x).
      set (a2 := <[x := n']> a ++ [child]).
      assert (∀ i y, a2 !! i = Some y ↔
                (i = x ∧ y = n') ∨ (i ≠ x ∧ a !! i = Some y) ∨ (i = length a ∧ y = child))
        as Hlk by (intros; apply lookup_grown; assumption).
      assert (∀ c, (c < length a)%nat → move_at a2 c = move_at a c) as Hsame.
      { intros c Hc. destruct (lookup_lt_is_Some_2 _ _ Hc) as [cn Hcn].
        unfold move_at. rewrite Hcn.
        destruct (decide (c = x)) as [->|Hne].
        - assert (cn = n) as -> by congruence.
          rewrite (proj2 (Hlk x n') (or_introl (conj eq_refl eq_refl))). reflexivity.
        - rewrite (proj2 (Hlk c cn) (or_intror (or_introl (conj Hne Hcn)))). reflexivity. }
      assert (∀ i y, a !! i = Some y →
                omap (move_at a2) (Node.children y) = omap (move_at a) (Node.children y))
        as Hkeep.
      { intros i y Hy. apply omap_move_at_ext. intros c Hc. apply Hsame.
        destruct (wf_children a Hwf i y c Hy Hc) as (_ & cn & Hcn & _).
        eapply lookup_lt_Some, Hcn. }
      assert (∀ i ms, path_moves a2 i ms →
                ((i < length a)%nat → path_moves a i ms)
                ∧ (i = length a → ∃ ms0, path_moves a x ms0 ∧ ms = ms0 ++ [move])) as Hpaths.
      { pose proof (wf_parents_below a Hwf) as Hpb.
        induction 1 as [|i y p ms Hy Hpar _ [IHold _]].
        - split; [intros _; constructor|]. intros Heq. exfalso. lia.
        - apply Hlk in Hy as [[-> ->]|[[Hne Hy]|[-> ->]]].
          + split; [|intros Heq; exfalso; lia]. intros _.
            assert (p < x)%nat as Hlt
              by (apply Hpb; unfold parent_of; rewrite Hn; exact Hpar).
            apply (path_child a x n p ms Hn Hpar). apply IHold. lia.
          + split; [|intros Heq; apply lookup_lt_Some in Hy; exfalso; lia]. intros Hi.
            assert (p < i)%nat as Hlt
              by (apply Hpb; unfold parent_of; rewrite Hy; exact Hpar).
            apply (path_child a i y p ms Hy Hpar). apply IHold. lia.
          + split; [intros Heq; exfalso; lia|]. intros _.
            simpl in Hpar. injection Hpar as <-.
            exists ms. split; [apply IHold; exact Hx|reflexivity]. }
      intros i y ms Hy Hpath. destruct (Hpaths i ms Hpath) as [Hold Hnew].
      apply Hlk in Hy as [[-> ->]|[[Hne Hy]|[-> ->]]].
      + destruct (Hgame x n ms Hn (Hold Hx)) as [Hplayer Hsplit].
        split; [exact Hplayer|]. simpl.
        rewrite omap_app, (Hkeep x n Hn). simpl. unfold move_at at 2.
        rewrite (proj2 (Hlk (length a) child) (or_intror (or_intror (conj eq_refl eq_refl)))).
        simpl. rewrite <- Hsplit, (erase_first_Permutation _ _ _ Her).
        rewrite (Permutation_app_comm (omap _ _) [move]). simpl.
        rewrite Permutation_middle. reflexivity.
      + destruct (Hgame i y ms Hy (Hold (lookup_lt_Some _ _ _ Hy))) as [Hplayer Hsplit].
        split; [exact Hplayer|]. rewrite (Hkeep i y Hy). exact Hsplit.
      + destruct (Hnew eq_refl) as (ms0 & Hp0 & ->).
        rewrite (path_moves_unique a x ms0 msx Hwf Hp0 Hpx).
        unfold state_after. rewrite fold_left_app. simpl.
        fold (state_after root_state msx). rewrite <- Hst.
        split; [reflexivity|]. rewrite app_nil_r. reflexivity.
    - destruct Hexp as (-> & -> & ->). exact Hgame. }
  pose proof (wf_parents_below _ Hwf2) as Hpb2.
  intros i n' ms Hn' Hpath.
  apply (backpropagated_path a2 a' x2 st3 i ms Hpb2 Hback) in Hpath.
  destruct (backpropagated_node a2 a' x2 st3 i n' Hpb2 Hback Hn') as (n2 & Hn2 & Hcase).
  destruct (Hgame2 i n2 ms Hn2 Hpath) as [Hplayer Hsplit].
  assert (Node.player_to_move n' = Node.player_to_move n2
          ∧ Node.moves n' = Node.moves n2 ∧ Node.children n' = Node.children n2)
    as (-> & -> & ->) by (destruct Hcase as [[_ ->]|[_ ->]]; repeat split; reflexivity).
  split; [exact Hplayer|].
  rewrite (omap_move_at_ext a2 a'); [exact Hsplit|].
  intros c _. apply (backpropagated_move_at a2 a' x2 st3 c Hpb2 Hback).
Qed.

Lemma game_tree_root (state : State) : game_tree state [Node_root state].
Proof.
  intros x n ms Hn Hpath.
  assert (ms = []) as ->.
  { inversion Hpath as [|x' n' p ms0 Hn' Hpar _]; [reflexivity|]. subst.
    destruct x as [|x]; [|discriminate]. injection Hn' as <-. discriminate. }
  inversion Hpath as [Hx|x' n' p ms0 Hn' Hpar _]; subst.
  - injection Hn as <-. split; [reflexivity|]. simpl. rewrite app_nil_r. reflexivity.
  - destruct ms0; discriminate.
Qed.

(** X8.  The tree that [compute_tree] returns is a part of the game tree
    of the root position.  Every node is reached from the root by one
    sequence of moves [ms], those of the nodes on the way; the player it
    stores is the player to move in the position [ms] leads to; its untried
    moves together with the moves of its children are the legal moves of
    that position; and each child extends [ms] by its own move. *)
Theorem compute_tree_game_tree (fuel : nat) (root_state : State)
    (options : ComputeOptions) (initial_seed : Z) (clock : C) (a : Arena Move) :
  compute_tree fuel root_state options initial_seed clock = Done a →
  ∀ x n, a !! x = Some n →
    ∃ ms, path_moves a x ms
      ∧ (∀ ms', path_moves a x ms' → ms' = ms)
      ∧ Node.player_to_move n = player_to_move (fold_left do_move ms root_state)
      ∧ Node.moves n ++ omap (λ c, Node.move <$> a !! c) (Node.children n)
        ≡ₚ get_moves (fold_left do_move ms root_state)
      ∧ (∀ c cn, c ∈ Node.children n → a !! c = Some cn →
           Node.move cn ∈ get_moves (fold_left do_move ms root_state)
           ∧ path_moves a c (ms ++ [Node.move cn])).
Proof.
  intros Hrun x n Hn.
  pose proof (compute_tree_invariant (game_tree root_state) fuel root_state options
                initial_seed clock a (game_tree_root root_state)
                (game_tree_step fuel root_state) Hrun) as Hgame.
  destruct (compute_tree_looped _ _ _ _ _ _ Hrun) as (Hwf & _).
  destruct (path_moves_exists a x Hwf (lookup_lt_Some _ _ _ Hn)) as [ms Hms].
  exists ms. split; [exact Hms|].
  split; [intros ms' Hms'; apply (path_moves_unique a x ms' ms Hwf Hms' Hms)|].
  destruct (Hgame x n ms Hn Hms) as [Hplayer Hsplit].
  split; [exact Hplayer|]. split; [exact Hsplit|].
  intros c cn Hc Hcn. split.
  - unfold state_after in Hsplit. rewrite <- Hsplit. apply elem_of_app. right.
    apply list_elem_of_omap. exists c. split; [exact Hc|].
    unfold move_at. rewrite Hcn. reflexivity.
  - destruct (wf_children a Hwf x n c Hn Hc) as (_ & cn' & Hcn' & Hpar).
    assert (cn' = cn) as -> by congruence.
    apply (path_child a c cn x ms Hcn Hpar Hms).
Qed.
End GameTree.

Section Descent.
Context {E C State Move : Type}.
Context `{RandomEngine E} `{WallClock C} `{Platform} `{GameState State Move}.

(** The nodes of a walk lie on one line. *)
Lemma on_path_linear (a : Arena Move) (x c i : nat) :
  parents_below a → on_path a x c → on_path a x i → (i < c)%nat → on_path a c i.
Proof.
  intros Hpb Hc. induction Hc as [x|x p c Hp Hc IH]; intros Hi Hlt; [exact Hi|].
  apply on_path_inv in Hi as [->|(p' & Hp' & Hi)].
  - apply (on_path_le _ _ _ Hpb) in Hc. specialize (Hpb x p Hp). lia.
  - assert (p' = p) as -> by congruence. apply IH; assumption.
Qed.

(** The descent passes through nodes without an untried move only. *)
Lemma select_leaf_through (fuel : nat) (a : Arena Move) (node : nat) (state : State)
    (x : nat) (st : State) :
  wf_tree a → select_leaf fuel a node state = Done (x, st) →
  on_path a x node
  ∧ ∀ i ni, on_path a x i → (node ≤ i)%nat → i ≠ x → a !! i = Some ni →
      Node.moves ni = [] ∧ Node.children ni ≠ [].
Proof.
  intros Hwf. pose proof (wf_parents_below a Hwf) as Hpb. revert node state.
  induction fuel as [|fuel IH]; intros node state; simpl;
    intros Hrun; apply bind_Done in Hrun as (n & Hn & Hrun);
    destruct (negb (has_untried_moves n) && has_children n) eqn:Hcond;
    try discriminate;
    try (injection Hrun as <- <-; split; [constructor|];
         intros i ni Hi Hle Hne; apply (on_path_le _ _ _ Hpb) in Hi; lia).
  unfold deref, at_index in Hn. destruct (a !! node) as [n0|] eqn:Hnode; [|discriminate].
  injection Hn as ->.
  apply bind_Done in Hrun as (c & Hc & Hrun).
  apply bind_Done in Hrun as (cn & Hcn & Hrun).
  apply andb_true_iff in Hcond as [Hun Hch].
  destruct (select_child_UCT_in a node n Hwf Hnode Hch) as (c' & cn' & Hc' & Hin & Hlt & Hcn').
  assert (c' = c) as -> by congruence.
  destruct (wf_children a Hwf node n c Hnode Hin) as (_ & cn0 & Hcn0 & Hpar).
  assert (parent_of a c = Some node) as Hpc by (unfold parent_of; rewrite Hcn0; exact Hpar).
  destruct (IH c _ Hrun) as [Hxc Hthrough].
  split; [apply (on_path_parent a x c node Hxc Hpc)|].
  intros i ni Hi Hle Hne Hni.
  destruct (le_lt_dec c i) as [Hci|Hic]; [apply (Hthrough i ni Hi Hci Hne Hni)|].
  pose proof (on_path_linear a x c i Hpb Hxc Hi Hic) as Hpath.
  apply on_path_inv in Hpath as [->|(p & Hp & Hpath)]; [lia|].
  assert (p = node) as -> by congruence.
  apply (on_path_le _ _ _ Hpb) in Hpath. assert (i = node) as -> by lia.
  assert (ni = n) as -> by congruence.
  unfold has_untried_moves in Hun. unfold has_children in Hch.
  split.
  - destruct (decide (Node.moves n = [])) as [Hnil|Hnn]; [exact Hnil|].
    rewrite bool_decide_false in Hun by assumption. discriminate.
  - intros Hnil. rewrite bool_decide_true in Hch by assumption. discriminate.
Qed.

(** X2.  The descent of an iteration, started at the root of a well-formed
    tree with a step budget of the size of the tree, ends at a node that has
    an untried move or no child.  Every node it passed through has no
    untried move and has children, and the working state is the root state
    after the moves of the nodes on the way. *)
Theorem select_leaf_reaches_frontier (fuel : nat) (root_state : State) (a : Arena Move) :
  wf_tree a → (length a ≤ fuel)%nat →
  ∃ x st n ms,
    select_leaf fuel a 0%nat root_state = Done (x, st)
    ∧ a !! x = Some n
    ∧ (Node.moves n ≠ [] ∨ Node.children n = [])
    ∧ (∀ i ni, on_path a x i → i ≠ x → a !! i = Some ni →
         Node.moves ni = [] ∧ Node.children ni ≠ [])
    ∧ path_moves a x ms
    ∧ st = fold_left do_move ms root_state.
Proof.
  intros Hwf Hfuel.
  destruct (wf_root a Hwf) as (root & Hroot & _).
  pose proof (lookup_lt_Some _ _ _ Hroot) as Hlen0.
  destruct (done_or_short_enough _ _ _ (select_leaf_spec fuel a 0%nat root_state Hwf Hlen0))
    as ([x st] & Hrun & _ & (n & Hn & Hexit) & _); [lia|].
  simpl in Hn.
  destruct (select_leaf_state fuel root_state a 0%nat root_state [] x st Hwf
              (path_root a) eq_refl Hrun) as (ms & Hms & Hst).
  destruct (select_leaf_through fuel a 0%nat root_state x st Hwf Hrun) as [_ Hthrough].
  exists x, st, n, ms. split; [exact Hrun|]. split; [exact Hn|]. split; [|split].
  - unfold has_untried_moves, has_children in Hexit.
    destruct Hexit as [Hun|Hch].
    + left. intros Hnil. rewrite bool_decide_true in Hun by assumption. discriminate.
    + right. destruct (decide (Node.children n = [])) as [Hnil|Hnn]; [exact Hnil|].
      rewrite bool_decide_false in Hch by assumption. discriminate.
  - intros i ni Hi Hne Hni. apply (Hthrough i ni Hi ltac:(lia) Hne Hni).
  - split; [exact Hms|exact Hst].
Qed.
End Descent.

(** ** [std::max_element] on counts *)

Section MaxCount.
Context {A : Type} (key : A → Z).

Lemma max_element_from_first_most (l pre : list A) (i : nat) (cur : A) :
  first_most key pre i cur →
  ∃ i', first_most key (pre ++ l) i' (max_element_from (λ x y, key x <? key y) cur l).
Proof.
  revert pre i cur. induction l as [|x l IH]; intros pre i cur Hcur.
  - exists i. rewrite app_nil_r. exact Hcur.
  - simpl. replace (pre ++ x :: l) with ((pre ++ [x]) ++ l)
      by (rewrite <- app_assoc; reflexivity).
    destruct Hcur as (Hi & Hmax & Hfirst).
    destruct (key cur <? key x) eqn:Hlt.
    + apply (IH (pre ++ [x]) (length pre)).
      split; [|split].
      * rewrite lookup_app_r by lia. rewrite Nat.sub_diag. reflexivity.
      * intros j y Hy. apply lookup_app_Some in Hy as [Hy|[_ Hy]].
        -- specialize (Hmax j y Hy). lia.
        -- apply list_lookup_singleton_Some in Hy as [_ <-]. lia.
      * intros j y Hy Hj. rewrite lookup_app_l in Hy by lia.
        specialize (Hmax j y Hy). lia.
    + apply (IH (pre ++ [x]) i).
      split; [|split].
      * apply lookup_app_l_Some, Hi.
      * intros j y Hy. apply lookup_app_Some in Hy as [Hy|[_ Hy]]; [eauto|].
        apply list_lookup_singleton_Some in Hy as [_ <-]. lia.
      * intros j y Hy Hj. apply Hfirst with j; [|assumption].
        rewrite lookup_app_l in Hy; [assumption|].
        apply lookup_lt_Some in Hi. lia.
Qed.

Lemma max_element_first_most (x : A) (l : list A) :
  ∃ i, first_most key (x :: l) i (max_element_from (λ x y, key x <? key y) x l).
Proof.
  apply (max_element_from_first_most l [x] 0%nat x).
  split; [reflexivity|split].
  - intros j y Hy. apply list_lookup_singleton_Some in Hy as [_ <-]. lia.
  - intros j y _ Hj. lia.
Qed.
End MaxCount.

Section NodeOperations.
Context {State Move : Type} `{GameState State Move}.

(** X9.  On a node with at least one child, all in the tree,
    [best_child] returns a child with the greatest visit count, the first
    such in insertion order: no child has more visits and every child
    before it has fewer. *)
Theorem best_child_first_most (a : Arena Move) (this : Node.t Move) :
  Node.children this ≠ [] →
  (∀ c, c ∈ Node.children this → is_Some (a !! c)) →
  ∃ i c, best_child a this = Done c
    ∧ Node.children this !! i = Some c
    ∧ (∀ j c', Node.children this !! j = Some c' → visits_at a c' ≤ visits_at a c)
    ∧ (∀ j c', Node.children this !! j = Some c' → (j < i)%nat →
         visits_at a c' < visits_at a c).
Proof.
  intros Hne Hok. unfold best_child.
  set (g := λ c : nat, (c, visits_at a c)).
  rewrite (for_each_Done _ g).
  2:{ intros c Hc. destruct (Hok c Hc) as [n Hn]. rewrite (deref_Some _ _ _ Hn).
      unfold g, visits_at. rewrite Hn. reflexivity. }
  destruct (Node.children this) as [|c0 cs] eqn:Hcs; [congruence|].
  cbn [map mbind outcome_bind max_element].
  destruct (max_element_first_most snd (g c0) (map g cs)) as (i & Hi & Hmax & Hfirst).
  change (g c0 :: map g cs) with (map g (c0 :: cs)) in Hi, Hmax, Hfirst.
  destruct (max_element_from _ (g c0) (map g cs)) as [c v] eqn:Hr.
  rewrite list_lookup_fmap in Hi.
  destruct ((c0 :: cs) !! i) as [c1|] eqn:Hci; [|discriminate].
  simpl in Hi. injection Hi as <- <-.
  exists i, c1. split; [reflexivity|]. split; [exact Hci|]. split.
  - intros j c' Hj.
    apply (Hmax j (g c')). rewrite list_lookup_fmap, Hj. reflexivity.
  - intros j c' Hj Hlt.
    apply (Hfirst j (g c')); [|exact Hlt]. rewrite list_lookup_fmap, Hj. reflexivity.
Qed.

Lemma erase_first_None (m : Move) (l : list Move) : m ∉ l → erase_first m l = None.
Proof.
  induction l as [|x l IH]; intros Hnot; [reflexivity|].
  simpl. destruct (decide (x = m)) as [->|Hne].
  - exfalso. apply Hnot, list_elem_of_here.
  - rewrite IH; [reflexivity|]. intros Hin. apply Hnot, list_elem_of_further, Hin.
Qed.

Lemma erase_first_split (m : Move) (l l' : list Move) :
  erase_first m l = Some l' →
  ∃ pre post, l = pre ++ (m :: post) ∧ (m ∉ pre) ∧ l' = pre ++ post.
Proof.
  revert l'. induction l as [|x l IH]; intros l'; simpl; [discriminate|].
  destruct (decide (x = m)) as [->|Hne].
  - intros Heq. injection Heq as <-. exists [], l. split; [reflexivity|].
    split; [intros Hin; inversion Hin|reflexivity].
  - destruct (erase_first m l) as [l''|]; [|discriminate]. simpl.
    intros Heq. injection Heq as <-.
    destruct (IH l'' eq_refl) as (pre & post & -> & Hnot & ->).
    exists (x :: pre), post. split; [reflexivity|]. split; [|reflexivity].
    intros Hin. apply elem_of_cons in Hin as [Heq|Hin]; [congruence|contradiction].
Qed.

(** X3.  [add_child] with a move of the frontier of the node takes the
    first occurrence of the move out of the frontier, allocates a node for
    it with no visit, no win, no child, the frontier [get_moves state] and
    the player of [state], appends it to the children, leaves every other
    node as it was and keeps the tree well formed.  With a move that is not
    in the frontier, [erase] is called at [end()]: undefined behaviour. *)
Theorem add_child_moves_to_children (a : Arena Move) (this : nat) (n : Node.t Move)
    (move : Move) (state : State) :
  wf_tree a → a !! this = Some n →
  (move ∈ Node.moves n →
   ∃ moves' a',
     add_child a this move state = Done (a', length a)
     ∧ (∃ pre post, Node.moves n = pre ++ (move :: post) ∧ (move ∉ pre)
                     ∧ moves' = pre ++ post)
     ∧ length a' = S (length a)
     ∧ a' !! this
       = Some (Node.mk (Node.move n) (Node.parent n) (Node.player_to_move n) (Node.wins n)
                 (Node.visits n) moves' (Node.children n ++ [length a]))
     ∧ a' !! length a
       = Some (Node.mk move (Some this) (player_to_move state) 0%float 0 (get_moves state) [])
     ∧ (∀ i, i ≠ this → (i < length a)%nat → a' !! i = a !! i)
     ∧ wf_tree a')
  ∧ (move ∉ Node.moves n → add_child a this move state = Fault).
Proof.
  intros Hwf Hn. pose proof (lookup_lt_Some _ _ _ Hn) as Hthis. split.
  - intros Hin.
    destruct (add_child_Done a this n move state Hn Hin) as (moves' & Her & Hrun).
    exists moves'. eexists. split; [exact Hrun|].
    split; [apply erase_first_split, Her|].
    split; [rewrite length_app, length_insert; simpl; lia|].
    split; [apply lookup_grown; [assumption|left; split; reflexivity]|].
    split; [apply lookup_grown; [assumption|right; right; split; reflexivity]|].
    split.
    + intros i Hne Hi. rewrite lookup_app_l by (rewrite length_insert; exact Hi).
      apply list_lookup_insert_ne. congruence.
    + apply wf_add_child; [assumption|assumption|reflexivity|reflexivity].
  - intros Hnot. unfold add_child. rewrite (deref_Some _ _ _ Hn). simpl.
    rewrite (erase_first_None _ _ Hnot). reflexivity.
Qed.
End NodeOperations.

(** ** The move that the search returns *)

(** ** More of [std::map] *)

Section StdMapMore.
Context {K : Type} (lt : K → K → bool).

(** The keys after an update depend on the keys before alone. *)
Lemma map_modify_fst {V W : Type} (m : std_map K V) (m' : std_map K W) (k : K)
    (d : V) (f : V → V) (d' : W) (f' : W → W) :
  map fst m = map fst m' →
  map fst (map_modify lt m k d f) = map fst (map_modify lt m' k d' f').
Proof.
  revert m'. induction m as [|[k1 v] m IH]; intros [|[k2 w] m']; simpl;
    try discriminate; [reflexivity|].
  intros Heq. injection Heq as <- Heq.
  destruct (lt k k1); [simpl; rewrite Heq; reflexivity|].
  destruct (lt k1 k); simpl; [rewrite (IH m' Heq); reflexivity|rewrite Heq; reflexivity].
Qed.

Lemma map_modify_total (m : std_map K Z) (k : K) (d : Z) :
  total (map snd (map_modify lt m k 0 (λ v, v + d))) = total (map snd m) + d.
Proof.
  induction m as [|[k' v] m IH]; simpl; [lia|].
  destruct (lt k k'); [simpl; lia|]. destruct (lt k' k); simpl; [rewrite IH|]; lia.
Qed.

Lemma map_modify_Forall {V : Type} (P : K → V → Prop) (m : std_map K V) (k : K) (d : V)
    (f : V → V) :
  P k (f d) → (∀ v, P k v → P k (f v)) →
  (∀ k1 k2 v, lt k1 k2 = false → lt k2 k1 = false → P k2 v → P k1 v) →
  Forall (λ e, P e.1 e.2) m → Forall (λ e, P e.1 e.2) (map_modify lt m k d f).
Proof.
  intros Hd Hf Heq. induction 1 as [|[k' v] m Hv Hm IH]; simpl.
  - constructor; [exact Hd|constructor].
  - destruct (lt k k') eqn:H1; [|destruct (lt k' k) eqn:H2].
    + constructor; [exact Hd|]. constructor; assumption.
    + constructor; assumption.
    + constructor; [|assumption]. simpl in *.
      apply (Heq k' k); [assumption|assumption|]. apply Hf. apply (Heq k k'); assumption.
Qed.
End StdMapMore.

Section MoreOfTheMove.
Context {E C State Move : Type}.
Context `{RandomEngine E} `{WallClock C} `{Platform} `{GameState State Move}.

(** What a search that came back is made of. *)
Lemma compute_move_searched (fuel : nat) (root_state : State) (options : ComputeOptions)
    (seed : Z) (clocks : nat → C) (roots : list (Arena Move)) (merged : Merged)
    (best_move : Move) :
  compute_move_run fuel root_state options seed clocks
  = Done (Searched roots merged best_move) →
  length (get_moves root_state) ≠ 1%nat
  ∧ length roots = Z.to_nat (number_of_threads options)
  ∧ (∀ t a, roots !! t = Some a →
       compute_tree fuel root_state (set_verbose options false) seed (clocks t) = Done a)
  ∧ merge_roots Merged_empty roots = Done merged
  ∧ best_move = select_best (m_visits merged) (m_wins merged).
Proof.
  unfold compute_move_run.
  destruct (decide (length (get_moves root_state) = 1%nat)) as [_|Hne].
  { destruct (at_index (get_moves root_state) 0); discriminate. }
  intros Hrun. apply bind_Done in Hrun as (roots' & Hroots & Hrun).
  apply bind_Done in Hrun as (merged' & Hmerge & Hrun).
  injection Hrun as -> -> <-.
  destruct (for_each_Done_inv _ _ _ Hroots) as [Hlen Hall].
  rewrite length_seq in Hlen.
  split; [exact Hne|]. split; [exact Hlen|]. split; [|split; [exact Hmerge|reflexivity]].
  intros t a Ha. destruct (Hall t a Ha) as (t' & Ht' & Hdone).
  apply lookup_seq in Ht' as [-> _]. exact Hdone.
Qed.

Lemma fold_sum_replicate {A} (f : A → Z) (k : nat) (x : A) (y : Z) :
  fold_left (λ s t, s + f t) (replicate k x) y = y + Z.of_nat k * f x.
Proof.
  revert y. induction k as [|k IH]; intros y; simpl; [lia|]. rewrite IH. lia.
Qed.

(** *** The merged maps *)

Lemma merge_children_total (ns : list (Node.t Move)) (v : std_map Move Z)
    (w : std_map Move float) :
  total (map snd (fold_left merge_child ns (v, w)).1) = total (map snd v) + sum_visits ns.
Proof.
  revert v w. induction ns as [|n ns IH]; intros v w; simpl.
  - unfold sum_visits. simpl. lia.
  - unfold merge_child at 2. simpl. rewrite IH, map_modify_total.
    unfold sum_visits at 2. simpl. rewrite fold_visits_from. lia.
Qed.

Lemma merge_children_keys (ns : list (Node.t Move)) (v : std_map Move Z)
    (w : std_map Move float) (P : Move → Prop) :
  map fst w = map fst v →
  Forall (λ e, P e.1 ∧ 1 ≤ e.2) v →
  Forall (λ n, P (Node.move n) ∧ 1 ≤ Node.visits n) ns →
  map fst (fold_left merge_child ns (v, w)).2 = map fst (fold_left merge_child ns (v, w)).1
  ∧ Forall (λ e, P e.1 ∧ 1 ≤ e.2) (fold_left merge_child ns (v, w)).1.
Proof.
  intros Hk Hv Hns. revert v w Hk Hv.
  induction Hns as [|n ns [Hn Hvis] _ IH]; intros v w Hk Hv; simpl; [split; assumption|].
  apply IH; unfold merge_child; simpl.
  - apply map_modify_fst, Hk.
  - apply (map_modify_Forall Move_lt (λ k x, P k ∧ 1 ≤ x)).
    + split; [assumption|lia].
    + intros x [_ Hx]. split; [assumption|lia].
    + intros k1 k2 x H12 H21 Hx. rewrite (Move_lt_total k1 k2 H12 H21). exact Hx.
    + exact Hv.
Qed.

(** Over trees whose root is readable, the merge comes back; the keys of
    the two maps are the same, every key is the move of a child of some
    root, and the visits add up to the visits of the children. *)
Lemma merge_roots_keys (roots : list (Arena Move)) (acc : Merged) (P : Move → Prop) :
  Forall (λ tree, root_readable tree
                  ∧ Forall (λ n, P (Node.move n) ∧ 1 ≤ Node.visits n) (root_children tree))
    roots →
  map fst (m_wins acc) = map fst (m_visits acc) →
  Forall (λ e, P e.1 ∧ 1 ≤ e.2) (m_visits acc) →
  keys_sorted Move_lt (m_visits acc) →
  ∃ merged,
    merge_roots acc roots = Done merged
    ∧ map fst (m_wins merged) = map fst (m_visits merged)
    ∧ Forall (λ e, P e.1 ∧ 1 ≤ e.2) (m_visits merged)
    ∧ keys_sorted Move_lt (m_visits merged)
    ∧ total (map snd (m_visits merged))
      = total (map snd (m_visits acc))
        + fold_left (λ s tree, s + sum_visits (root_children tree)) roots 0.
Proof.
  intros Hroots. revert acc.
  induction Hroots as [|tree roots [(root & Hroot & Hch) Hns] _ IH]; intros acc Hk Hv Hs.
  - exists acc. split; [reflexivity|]. simpl. repeat split; try assumption. lia.
  - cbn [merge_roots]. unfold merge_root. rewrite (deref_Some _ _ _ Hroot).
    cbn [mbind outcome_bind]. rewrite for_each_deref by assumption.
    cbn [mbind outcome_bind fst snd].
    assert (root_children tree = omap (λ c, tree !! c) (Node.children root)) as Hrc
      by (unfold root_children; rewrite Hroot; reflexivity).
    rewrite <- Hrc.
    set (ns := root_children tree) in *.
    destruct (merge_children_keys ns _ _ P Hk Hv Hns) as [Hk' Hv'].
    destruct (merge_children_sums ns (m_visits acc) (m_wins acc) Hs) as (Hs' & _).
    { clear -Hk Hs. revert Hk Hs. generalize (m_visits acc) as v, (m_wins acc) as w.
      intros v w. revert v. induction w as [|[k x] w IHw]; intros [|[k' y] v] Hk Hs;
        simpl in Hk; try discriminate; [constructor|].
      injection Hk as -> Hk. inversion Hs as [|? ? ? Hs0 Hall]; subst.
      constructor; [apply (IHw v Hk Hs0)|].
      intros e He. apply list_elem_of_lookup_1 in He as [i Hi].
      assert (map fst w !! i = Some e.1) as Hi1 by (rewrite list_lookup_fmap, Hi; reflexivity).
      rewrite Hk, list_lookup_fmap in Hi1.
      destruct (v !! i) as [e'|] eqn:Hi'; [|discriminate]. simpl in Hi1.
      injection Hi1 as <-. apply Hall. eapply list_elem_of_lookup_2, Hi'. }
    destruct (IH {| m_visits := (fold_left merge_child ns (m_visits acc, m_wins acc)).1;
                    m_wins := (fold_left merge_child ns (m_visits acc, m_wins acc)).2;
                    m_games_played := m_games_played acc + Node.visits root |} Hk' Hv' Hs')
      as (merged & Hrun & Hmk & Hmv & Hms & Hmt).
    exists merged. split; [exact Hrun|]. split; [exact Hmk|]. split; [exact Hmv|].
    split; [exact Hms|]. rewrite Hmt. cbn [m_visits fold_left].
    rewrite merge_children_total.
    assert (∀ y, fold_left (λ s t, s + sum_visits (root_children t)) roots y
                 = y + fold_left (λ s t, s + sum_visits (root_children t)) roots 0) as Hfold.
    { clear. induction roots as [|t roots IHr]; intros y; simpl; [lia|].
      rewrite IHr, (IHr (0 + _)). lia. }
    rewrite (Hfold (0 + _)). subst ns. lia.
Qed.

(** The selection returns the key of an entry, or the default-constructed
    move. *)
Lemma select_best_key (visits : std_map Move Z) (wins : std_map Move float) :
  select_best visits wins ∈ map fst visits ∨ select_best visits wins = Move_default.
Proof.
  unfold select_best. rewrite select_loop_max_element.
  set (g := λ itr : Move * Z, (itr.1, entry_rate wins itr)).
  pose proof (max_element_from_in (by_key snd) (Move_default, (-1)%float) (map g visits))
    as Hin.
  apply elem_of_cons in Hin as [->|Hin]; [right; reflexivity|].
  left. apply list_elem_of_fmap in Hin as (itr & -> & Hitr).
  apply list_elem_of_fmap. exists itr. split; [reflexivity|assumption].
Qed.
End MoreOfTheMove.

Section TheMoveReturned.
Context {E C State Move : Type}.
Context `{RandomEngine E} `{WallClock C} `{Platform} `{GameState State Move}.

Lemma fold_left_sum_ext {A} (f g : A → Z) (l : list A) (y : Z) :
  Forall (λ x, f x = g x) l →
  fold_left (λ s x, s + f x) l y = fold_left (λ s x, s + g x) l y.
Proof.
  intros Hall. revert y. induction Hall as [|x l Hx _ IH]; intros y; [reflexivity|].
  simpl. rewrite Hx. apply IH.
Qed.

(** The maps a search has merged. *)
Lemma searched_merged (roots : list (Arena Move)) (root_state : State) :
  Forall (λ tree, wf_tree tree
                  ∧ Forall (λ n, Node.move n ∈ get_moves root_state ∧ 1 ≤ Node.visits n)
                      (root_children tree)) roots →
  ∃ merged,
    merge_roots Merged_empty roots = Done merged
    ∧ map fst (m_wins merged) = map fst (m_visits merged)
    ∧ Forall (λ e, e.1 ∈ get_moves root_state ∧ 1 ≤ e.2) (m_visits merged)
    ∧ keys_sorted Move_lt (m_visits merged)
    ∧ total (map snd (m_visits merged))
      = fold_left (λ s tree, s + sum_visits (root_children tree)) roots 0
    ∧ m_games_played merged = fold_left (λ s tree, s + root_visits tree) roots 0.
Proof.
  intros Hroots.
  destruct (merge_roots_keys roots Merged_empty (λ m, m ∈ get_moves root_state))
    as (merged & Hrun & Hk & Hv & Hs & Ht).
  { eapply Forall_impl; [exact Hroots|]. intros tree [Hwf Hch].
    split; [apply wf_root_readable, Hwf|exact Hch]. }
  { reflexivity. }
  { constructor. }
  { constructor. }
  destruct (merge_roots_readable_sums roots) as (merged' & Hrun' & _ & _ & Hg).
  { eapply Forall_impl; [exact Hroots|]. intros tree [Hwf _]. apply wf_root_readable, Hwf. }
  assert (merged' = merged) as -> by congruence.
  exists merged. split; [exact Hrun|]. split; [exact Hk|]. split; [exact Hv|].
  split; [exact Hs|]. split; [|exact Hg]. rewrite Ht. simpl. lia.
Qed.

Lemma searched_trees (fuel : nat) (root_state : State) (options : ComputeOptions)
    (seed : Z) (clocks : nat → C) (roots : list (Arena Move)) :
  (∀ t a, roots !! t = Some a →
     compute_tree fuel root_state options seed (clocks t) = Done a) →
  Forall (λ tree, wf_tree tree
                  ∧ Forall (λ n, Node.move n ∈ get_moves root_state ∧ 1 ≤ Node.visits n)
                      (root_children tree)) roots.
Proof.
  intros Hworkers. apply Forall_lookup. intros t a Ha. specialize (Hworkers t a Ha).
  split; [apply (compute_tree_looped _ _ _ _ _ _ Hworkers)|].
  apply (compute_tree_root_children _ _ _ _ _ _ Hworkers).
Qed.

(** A count of at least one is at most the total of such counts. *)
Lemma total_bounds (l : list Z) :
  Forall (λ x, 1 ≤ x) l → 0 ≤ total l ∧ ∀ x, x ∈ l → x ≤ total l.
Proof.
  induction 1 as [|y l Hy _ [IH0 IH]]; simpl.
  - split; [lia|]. intros x Hx. inversion Hx.
  - split; [lia|]. intros x Hx. apply elem_of_cons in Hx as [->|Hx]; [lia|].
    specialize (IH x Hx). lia.
Qed.

(** No merged count is above the visits of all the roots together: while
    these are below [INT_MAX], no addition of the merge leaves [int]. *)
Lemma searched_counts (fuel : nat) (root_state : State) (options : ComputeOptions)
    (seed : Z) (clocks : nat → C) (roots : list (Arena Move)) (merged : Merged) :
  (∀ t a, roots !! t = Some a →
     compute_tree fuel root_state options seed (clocks t) = Done a) →
  merge_roots Merged_empty roots = Done merged →
  ∀ e, e ∈ m_visits merged → 1 ≤ e.2 ≤ total (map root_visits roots).
Proof.
  intros Hworkers Hmerge e He.
  destruct (searched_merged roots root_state (searched_trees _ _ _ _ _ _ Hworkers))
    as (merged' & Hmerge' & _ & Hv & _ & Ht & _).
  assert (merged' = merged) as -> by congruence.
  assert (Forall (λ x, 1 ≤ x) (map snd (m_visits merged))) as Hones.
  { apply Forall_fmap. eapply Forall_impl; [exact Hv|]. intros e' [_ He']. exact He'. }
  destruct (total_bounds _ Hones) as [_ Hle].
  assert (e.2 ≤ total (map snd (m_visits merged))) as Hentry.
  { apply Hle. apply list_elem_of_fmap. exists e. split; [reflexivity|exact He]. }
  split; [apply (proj1 (Forall_forall _ _) Hv e He)|].
  assert (∀ y, fold_left (λ s tree, s + root_visits tree) roots y
               = y + total (map root_visits roots)) as Hfold.
  { clear. induction roots as [|t roots IH]; intros y; simpl; [lia|]. rewrite IH. lia. }
  destruct (get_moves root_state) as [|m0 ms] eqn:Hm.
  - assert (fold_left (λ s tree, s + sum_visits (root_children tree)) roots 0 = 0) as Hzero.
    { rewrite (fold_left_sum_ext (λ tree, sum_visits (root_children tree)) (λ _, 0)).
      - assert (∀ y, fold_left (λ (s : Z) (_ : Arena Move), s + 0) roots y = y) as Hsame;
          [|apply (Hsame 0)].
        clear. induction roots as [|t roots IH]; intros y; simpl; [reflexivity|].
        rewrite IH. lia.
      - apply Forall_lookup. intros t a Ha.
        destruct (compute_tree_looped _ _ _ _ _ _ (Hworkers t a Ha)) as (_ & _ & Hstuck).
        destruct (Hstuck Hm) as [(root & Hroot & _ & Hc) _].
        unfold root_children. rewrite Hroot, Hc. reflexivity. }
    pose proof (proj1 (Forall_forall _ _) Hv e He) as [_ Hone]. lia.
  - rewrite Ht in Hentry.
    rewrite (fold_left_sum_ext (λ tree, sum_visits (root_children tree)) root_visits)
      in Hentry.
    + rewrite Hfold in Hentry. lia.
    + apply Forall_lookup. intros t a Ha.
      destruct (compute_tree_looped _ _ _ _ _ _ (Hworkers t a Ha)) as (_ & Hacc & _).
      apply Hacc. rewrite Hm. discriminate.
Qed.

(** C6.  When [compute_move] has searched and its [T = number_of_threads]
    trees hold fewer than [INT_MAX] iterations together, the trees are those
    its workers returned, and the merge holds, for each move, the sum over
    all [T] roots of the visit counts of the root's direct children with
    that move and the sum of their win totals (a root that never expanded
    the move adds nothing); [games_played] is the sum of the [T] roots'
    visit counts.  Under the bound every count of the merged [visits] map
    is within [int], as it is at most the visits of all the roots: the sums
    of the code, made in [int], are these sums. *)
Theorem compute_move_merge_sums (fuel : nat) (root_state : State) (options : ComputeOptions)
    (seed : Z) (clocks : nat → C) (roots : list (Arena Move)) (merged : Merged)
    (best_move : Move) :
  compute_move_run fuel root_state options seed clocks
  = Done (Searched roots merged best_move) →
  total (map root_visits roots) < INT_MAX →
  length roots = Z.to_nat (number_of_threads options)
  ∧ (∀ t a, roots !! t = Some a →
       compute_tree fuel root_state (set_verbose options false) seed (clocks t) = Done a)
  ∧ (∀ m, map_get Move_lt (m_visits merged) m 0
          = fold_left (λ s tree, s + sum_visits (with_move m (root_children tree))) roots 0)
  ∧ (∀ m, map_get Move_lt (m_wins merged) m 0%float = sum_wins (all_with_move m roots))
  ∧ m_games_played merged = fold_left (λ s tree, s + root_visits tree) roots 0
  ∧ (∀ e, e ∈ m_visits merged → 1 ≤ e.2 < INT_MAX).
Proof.
  intros Hrun Hint.
  destruct (compute_move_searched _ _ _ _ _ _ _ _ Hrun) as (_ & Hlen & Hworkers & Hmerge & _).
  split; [exact Hlen|]. split; [exact Hworkers|].
  destruct (merge_roots_readable_sums roots) as (merged' & Hmerge' & Hv & Hw & Hg).
  { apply Forall_lookup. intros t a Ha. apply wf_root_readable.
    apply (compute_tree_looped _ _ _ _ _ _ (Hworkers t a Ha)). }
  assert (merged' = merged) as -> by congruence.
  split; [exact Hv|]. split; [exact Hw|]. split; [exact Hg|].
  intros e He. pose proof (searched_counts _ _ _ _ _ _ _ Hworkers Hmerge e He). lia.
Qed.

(** X12.  When [compute_move] has searched and its trees hold fewer than
    [INT_MAX] iterations together, the keys of the merged [visits] map
    strictly increase, the [wins] map has the same keys (so that
    [wins[move]] in the selection loop never inserts), every key is a legal
    move of the root position with at least one visit merged and a count
    that is within [int], and the move returned is one of these keys, or
    else the default-constructed move. *)
Theorem compute_move_legal_or_default (fuel : nat) (root_state : State)
    (options : ComputeOptions) (seed : Z) (clocks : nat → C) (roots : list (Arena Move))
    (merged : Merged) (best_move : Move) :
  compute_move_run fuel root_state options seed clocks
  = Done (Searched roots merged best_move) →
  total (map root_visits roots) < INT_MAX →
  keys_sorted Move_lt (m_visits merged)
  ∧ map fst (m_wins merged) = map fst (m_visits merged)
  ∧ (∀ e, e ∈ m_visits merged → e.1 ∈ get_moves root_state ∧ 1 ≤ e.2 < INT_MAX)
  ∧ (best_move ∈ map fst (m_visits merged) ∨ best_move = Move_default)
  ∧ (best_move ∈ get_moves root_state ∨ best_move = Move_default).
Proof.
  intros Hrun Hint.
  destruct (compute_move_searched _ _ _ _ _ _ _ _ Hrun) as (_ & _ & Hworkers & Hmerge & ->).
  destruct (searched_merged roots root_state (searched_trees _ _ _ _ _ _ Hworkers))
    as (merged' & Hmerge' & Hk & Hv & Hs & _).
  assert (merged' = merged) as -> by congruence.
  split; [exact Hs|]. split; [exact Hk|].
  split.
  { intros e He. split; [apply (proj1 (Forall_forall _ _) Hv e He)|].
    pose proof (searched_counts _ _ _ _ _ _ _ Hworkers Hmerge e He). lia. }
  destruct (select_best_key (m_visits merged) (m_wins merged)) as [Hin|Hdef].
  - split; [left; exact Hin|]. left.
    apply list_elem_of_fmap in Hin as (e & -> & He).
    apply (proj1 (Forall_forall _ _) Hv e He).
  - split; right; exact Hdef.
Qed.

(** X11.  When [compute_move] has searched from a position with a legal
    move and its trees hold fewer than [INT_MAX] iterations together (the
    merged counts are [int]s, [games_played] is a [long long]), the visit
    counts in the merged [visits] map add up to [games_played], which is
    the sum of the visit counts of the roots: the shares of visits printed
    in verbose mode add up to the whole. *)
Theorem compute_move_visits_total (fuel : nat) (root_state : State)
    (options : ComputeOptions) (seed : Z) (clocks : nat → C) (roots : list (Arena Move))
    (merged : Merged) (best_move : Move) :
  get_moves root_state ≠ [] →
  compute_move_run fuel root_state options seed clocks
  = Done (Searched roots merged best_move) →
  total (map root_visits roots) < INT_MAX →
  total (map snd (m_visits merged)) = m_games_played merged
  ∧ m_games_played merged = total (map root_visits roots)
  ∧ m_games_played merged < INT_MAX.
Proof.
  intros Hne Hrun Hint.
  destruct (compute_move_searched _ _ _ _ _ _ _ _ Hrun) as (_ & _ & Hworkers & Hmerge & _).
  destruct (searched_merged roots root_state (searched_trees _ _ _ _ _ _ Hworkers))
    as (merged' & Hmerge' & _ & _ & _ & Ht & Hg).
  assert (merged' = merged) as -> by congruence.
  split.
  - rewrite Ht, Hg. apply fold_left_sum_ext. apply Forall_lookup. intros t a Ha.
    destruct (compute_tree_looped _ _ _ _ _ _ (Hworkers t a Ha)) as (_ & Hacc & _).
    apply Hacc, Hne.
  - assert (∀ y, fold_left (λ s tree, s + root_visits tree) roots y
                 = y + total (map root_visits roots)) as Hfold.
    { clear. induction roots as [|t roots IH]; intros y; simpl; [lia|]. rewrite IH. lia. }
    rewrite Hg, (Hfold 0). lia.
Qed.

(** X10.  Without a time limit, every worker of [compute_move] builds the
    same tree: all are started with the same seed and none reads the clock.
    When the trees hold fewer than [INT_MAX] iterations together, so that
    the products below are within [int], [games_played] is
    [number_of_threads] times the visits of one root, and the merged visits
    of a move are [number_of_threads] times its visits in one tree. *)
Theorem compute_move_workers_agree (fuel : nat) (root_state : State)
    (options : ComputeOptions) (seed : Z) (clocks : nat → C) (roots : list (Arena Move))
    (merged : Merged) (best_move : Move) :
  (0 <=? max_time options)%float = false →
  compute_move_run fuel root_state options seed clocks
  = Done (Searched roots merged best_move) →
  total (map root_visits roots) < INT_MAX →
  ∀ a, a ∈ roots →
    roots = replicate (Z.to_nat (number_of_threads options)) a
    ∧ m_games_played merged = number_of_threads options * root_visits a
    ∧ number_of_threads options * root_visits a < INT_MAX
    ∧ ∀ m, map_get Move_lt (m_visits merged) m 0
           = number_of_threads options * sum_visits (with_move m (root_children a)).
Proof.
  intros Htime Hrun Hint a Ha.
  destruct (compute_move_searched _ _ _ _ _ _ _ _ Hrun) as (_ & Hlen & Hworkers & Hmerge & _).
  assert (no_clock (set_verbose options false)) as Hquiet.
  { unfold no_clock. simpl. rewrite Htime. apply andb_false_r. }
  apply list_elem_of_lookup_1 in Ha as [t0 Ht0].
  assert (roots = replicate (Z.to_nat (number_of_threads options)) a) as Hrep.
  { symmetry. apply replicate_as_Forall. split; [exact Hlen|].
    apply Forall_lookup. intros t a' Ha'.
    pose proof (Hworkers t a' Ha') as Hrun'.
    rewrite (compute_tree_no_clock fuel root_state _ seed (clocks t) (clocks t0) Hquiet) in Hrun'.
    rewrite (Hworkers t0 a Ht0) in Hrun'. congruence. }
  split; [exact Hrep|].
  assert (Z.of_nat (Z.to_nat (number_of_threads options)) = number_of_threads options) as HT.
  { apply lookup_lt_Some in Ht0. lia. }
  destruct (merge_roots_readable_sums roots) as (merged' & Hmerge' & Hv & _ & Hg).
  { apply Forall_lookup. intros t a' Ha'. apply wf_root_readable.
    apply (compute_tree_looped _ _ _ _ _ _ (Hworkers t a' Ha')). }
  assert (merged' = merged) as -> by congruence.
  assert (m_games_played merged = number_of_threads options * root_visits a) as Hgames.
  { rewrite Hg, Hrep at 1. rewrite (fold_sum_replicate root_visits), HT. lia. }
  split; [exact Hgames|]. split.
  - rewrite <- Hgames, Hg.
    assert (∀ y, fold_left (λ s tree, s + root_visits tree) roots y
                 = y + total (map root_visits roots)) as Hfold.
    { clear. induction roots as [|t roots IH]; intros y; simpl; [lia|]. rewrite IH. lia. }
    rewrite (Hfold 0). lia.
  - intros m. rewrite Hv, Hrep at 1.
    rewrite (fold_sum_replicate (λ tree, sum_visits (with_move m (root_children tree)))), HT.
    lia.
Qed.

(** X13.  With an iteration count from 0 to below [INT_MAX], so that the
    loop of a worker ends, with a number of workers times the count at most
    [INT_MAX], so that no merged count overflows, and with no time limit,
    [compute_move] returns, given step budgets above the count and the
    moves left in the game; it raises no error.  The move returned is a
    legal move of the root position or the default-constructed move, and
    after a search [games_played] is the number of workers times
    [max_iterations] and every merged count is within [int]. *)
Theorem compute_move_returns (fuel : nat) (root_state : State) (options : ComputeOptions)
    (seed : Z) (clocks : nat → C) :
  (0 <=? max_time options)%float = false → 0 ≤ max_iterations options < INT_MAX →
  Z.max 0 (number_of_threads options) * max_iterations options ≤ INT_MAX →
  (Z.to_nat (max_iterations options + 1) < fuel)%nat → (moves_left root_state < fuel)%nat →
  ∃ r, compute_move_run fuel root_state options seed clocks = Done r
    ∧ compute_move fuel root_state options seed clocks = Done (returned_move r)
    ∧ (returned_move r ∈ get_moves root_state ∨ returned_move r = Move_default)
    ∧ ∀ roots merged best_move, r = Searched roots merged best_move →
        m_games_played merged
        = Z.max 0 (number_of_threads options) * max_iterations options
        ∧ ∀ e, e ∈ m_visits merged → 1 ≤ e.2 ≤ INT_MAX.
Proof.
  intros Htime Hn Hint Hfuel Hleft.
  unfold compute_move. unfold compute_move_run at 1 2.
  destruct (decide (length (get_moves root_state) = 1%nat)) as [Hone|Hne].
  - destruct (get_moves root_state) as [|m [|m' ms]] eqn:Hm; try discriminate.
    exists (ShortCircuit m). simpl. split; [reflexivity|]. split; [reflexivity|].
    split; [left; apply list_elem_of_here|]. intros roots merged best_move Heq. discriminate.
  - set (job := set_verbose options false).
    destruct (for_each_all
                (λ t, compute_tree fuel root_state job seed (clocks t))
                (λ a, (wf_tree a
                       ∧ Forall (λ n, Node.move n ∈ get_moves root_state ∧ 1 ≤ Node.visits n)
                           (root_children a))
                      ∧ root_visits a = max_iterations options)
                (seq 0 (Z.to_nat (number_of_threads options))))
      as (roots & Hroots & Hall & Hlen).
    { intros t _.
      destruct (compute_tree_counted fuel root_state job seed (clocks t))
        as (a & _ & Hrun & Hrv); try assumption; [left; reflexivity|].
      exists a. split; [assumption|]. split; [|assumption].
      split; [apply (compute_tree_looped _ _ _ _ _ _ Hrun)|].
      apply (compute_tree_root_children _ _ _ _ _ _ Hrun). }
    rewrite Hroots. cbn [mbind outcome_bind].
    destruct (searched_merged roots root_state) as (merged & Hmerge & _ & Hv & _ & _ & Hg).
    { eapply Forall_impl; [exact Hall|]. intros a [Ha _]. exact Ha. }
    rewrite Hmerge. cbn [mbind outcome_bind].
    eexists. split; [reflexivity|]. split; [reflexivity|]. cbn [returned_move].
    split.
    + destruct (select_best_key (m_visits merged) (m_wins merged)) as [Hin|Hdef];
        [left|right; exact Hdef].
      apply list_elem_of_fmap in Hin as (e & -> & He).
      apply (proj1 (Forall_forall _ _) Hv e He).
    + intros roots' merged' best' Heq. injection Heq as <- <- _.
      rewrite length_seq in Hlen.
      assert (total (map root_visits roots)
              = Z.max 0 (number_of_threads options) * max_iterations options) as Htotal.
      { assert (total (map root_visits roots)
                = Z.of_nat (length roots) * max_iterations options) as ->; [|rewrite Hlen; lia].
        clear -Hall. induction Hall as [|a roots [_ Ha] _ IH]; simpl; [lia|].
        rewrite IH, Ha. lia. }
      assert (∀ y, fold_left (λ s tree, s + root_visits tree) roots y
                   = y + total (map root_visits roots)) as Hfold.
      { clear. induction roots as [|t roots IH]; intros y; simpl; [lia|]. rewrite IH. lia. }
      split; [rewrite Hg, (Hfold 0), Htotal; lia|].
      intros e He.
      assert (∀ t a, roots !! t = Some a →
                compute_tree fuel root_state job seed (clocks t) = Done a) as Hworkers.
      { intros t a Ha. destruct (for_each_Done_inv _ _ _ Hroots) as [_ Hinv].
        destruct (Hinv t a Ha) as (t' & Ht' & Hdone).
        apply lookup_seq in Ht' as [-> _]. exact Hdone. }
      pose proof (searched_counts _ _ _ _ _ _ _ Hworkers Hmerge e He). lia.
Qed.
End TheMoveReturned.

(** ** Positions of Gomoku *)

Lemma cell_set_cell_other (b : list (list ascii)) (r c r' c' : Z) (x : ascii) :
  (r, c) ≠ (r', c') →
  Gomoku.cell (Gomoku.set_cell b r c x) r' c' = Gomoku.cell b r' c'.
Proof.
  intros Hne. unfold Gomoku.set_cell, Gomoku.cell.
  destruct ((r <? 0) || (c <? 0)) eqn:Hrc; [reflexivity|].
  destruct ((r' <? 0) || (c' <? 0)) eqn:Hrc'; [reflexivity|].
  rewrite list_lookup_alter.
  destruct (decide (Z.to_nat r = Z.to_nat r')) as [Heq|Hner]; [|reflexivity].
  rewrite Heq. destruct (b !! Z.to_nat r') as [row|]; [|reflexivity]. simpl.
  rewrite list_lookup_insert_ne; [reflexivity|].
  intros Hc. apply Hne. f_equal; lia.
Qed.

Lemma cell_set_cell_same (b : list (list ascii)) (r c : Z) (x : ascii) (n : nat) :
  length b = n → Forall (λ row, length row = n) b →
  0 ≤ r < Z.of_nat n → 0 ≤ c < Z.of_nat n →
  Gomoku.cell (Gomoku.set_cell b r c x) r c = x.
Proof.
  intros Hlen Hrows Hr Hc. unfold Gomoku.set_cell, Gomoku.cell.
  replace ((r <? 0) || (c <? 0)) with false by lia.
  rewrite list_lookup_alter, decide_True by reflexivity.
  destruct (lookup_lt_is_Some_2 b (Z.to_nat r)) as [row Hrow]; [lia|].
  rewrite Hrow. simpl.
  rewrite list_lookup_insert_eq; [reflexivity|].
  rewrite (proj1 (Forall_lookup _ _) Hrows _ _ Hrow). lia.
Qed.

Lemma cell_replicate (n m : nat) (x : ascii) (r c : Z) :
  x = Gomoku.player_markers 0 →
  Gomoku.cell (replicate n (replicate m x)) r c = Gomoku.player_markers 0.
Proof.
  intros ->. unfold Gomoku.cell.
  destruct ((r <? 0) || (c <? 0)); [reflexivity|].
  destruct (replicate n _ !! Z.to_nat r) as [row|] eqn:Hrow; [|reflexivity].
  apply lookup_replicate in Hrow as [-> _].
  destruct (replicate m _ !! Z.to_nat c) as [y|] eqn:Hy; [|reflexivity].
  apply lookup_replicate in Hy as [-> _]. reflexivity.
Qed.

Lemma elem_of_concat_map {A B} (f : A → list B) (l : list A) (y : B) :
  y ∈ concat (map f l) ↔ ∃ x, x ∈ l ∧ y ∈ f x.
Proof.
  induction l as [|x l IH]; simpl.
  - split; [intros Hy; inversion Hy|intros (x & Hx & _); inversion Hx].
  - rewrite elem_of_app, IH. split.
    + intros [Hy|(x' & Hx' & Hy)].
      * exists x. split; [apply list_elem_of_here|assumption].
      * exists x'. split; [apply list_elem_of_further|]; assumption.
    + intros (x' & Hx' & Hy). apply elem_of_cons in Hx' as [->|Hx'].
      * left. assumption.
      * right. exists x'. split; assumption.
Qed.

Lemma NoDup_concat_map {A B} (f : A → list B) (l : list A) :
  NoDup l → (∀ x, NoDup (f x)) → (∀ x x' y, y ∈ f x → y ∈ f x' → x = x') →
  NoDup (concat (map f l)).
Proof.
  intros Hl Hf Hdisj. induction Hl as [|x l Hnotin _ IH]; simpl; [constructor|].
  apply NoDup_app. split; [apply Hf|]. split; [|exact IH].
  intros y Hy Hy'. apply elem_of_concat_map in Hy' as (x' & Hx' & Hy').
  rewrite (Hdisj x x' y Hy Hy') in Hnotin. contradiction.
Qed.

Lemma length_concat_map {A B} (f : A → list B) (l : list A) (n : nat) :
  (∀ x, length (f x) = n) → length (concat (map f l)) = (length l * n)%nat.
Proof.
  intros Hf. induction l as [|x l IH]; simpl; [reflexivity|].
  rewrite length_app, Hf, IH. reflexivity.
Qed.

Lemma elem_of_row_places (i : Z) (n : nat) (m : Gomoku.Move) :
  m ∈ Gomoku.row_places i n ↔ m.1 = i ∧ 0 ≤ m.2 < Z.of_nat n.
Proof.
  unfold Gomoku.row_places. rewrite list_elem_of_fmap. split.
  - intros (j & -> & Hj). apply elem_of_seq in Hj. simpl. lia.
  - intros [<- Hc]. exists (Z.to_nat m.2). split.
    + destruct m as [r c]. simpl in *. f_equal. lia.
    + apply elem_of_seq. lia.
Qed.

Lemma elem_of_init_places (n : Z) (m : Gomoku.Move) :
  m ∈ Gomoku.empty_places (Gomoku.init n) ↔ on_board n n m.
Proof.
  change (Gomoku.empty_places (Gomoku.init n))
    with (concat (map (λ i, Gomoku.row_places (Z.of_nat i) (Z.to_nat n))
                    (seq 0 (Z.to_nat n)))).
  rewrite elem_of_concat_map. unfold on_board. split.
  - intros (i & Hi & Hm). apply elem_of_seq in Hi.
    apply elem_of_row_places in Hm as [Hr Hc]. lia.
  - intros [Hr Hc]. exists (Z.to_nat m.1). split; [apply elem_of_seq; lia|].
    apply elem_of_row_places. lia.
Qed.

Lemma NoDup_init_places (n : Z) : NoDup (Gomoku.empty_places (Gomoku.init n)).
Proof.
  change (Gomoku.empty_places (Gomoku.init n))
    with (concat (map (λ i, Gomoku.row_places (Z.of_nat i) (Z.to_nat n))
                    (seq 0 (Z.to_nat n)))).
  apply NoDup_concat_map.
  - apply NoDup_seq.
  - intros i. unfold Gomoku.row_places. apply NoDup_fmap_2; [|apply NoDup_seq].
    intros j j' Heq. injection Heq as Heq. lia.
  - intros i i' m Hm Hm'.
    apply elem_of_row_places in Hm as [Hi _]. apply elem_of_row_places in Hm' as [Hi' _]. lia.
Qed.

Lemma length_init_places (n : Z) :
  length (Gomoku.empty_places (Gomoku.init n)) = (Z.to_nat n * Z.to_nat n)%nat.
Proof.
  change (Gomoku.empty_places (Gomoku.init n))
    with (concat (map (λ i, Gomoku.row_places (Z.of_nat i) (Z.to_nat n))
                    (seq 0 (Z.to_nat n)))).
  rewrite (length_concat_map _ _ (Z.to_nat n)).
  - rewrite length_seq. reflexivity.
  - intros i. unfold Gomoku.row_places. rewrite length_map, length_seq. reflexivity.
Qed.

(** The empty board is a valid position. *)
Lemma Gomoku_valid_init (n : Z) : 0 ≤ n → Gomoku_valid n (Gomoku.init n).
Proof.
  intros Hn. split; try reflexivity.
  - simpl. apply length_replicate.
  - simpl. apply Forall_replicate. apply length_replicate.
  - left. reflexivity.
  - intros r c. left. simpl. apply cell_replicate. reflexivity.
  - apply NoDup_init_places.
  - intros m. rewrite elem_of_init_places. split; [|intros [Hm _]; exact Hm].
    intros Hm. split; [exact Hm|]. simpl. apply cell_replicate. reflexivity.
  - left. split; reflexivity.
Qed.

Lemma length_filter_ne (m : Gomoku.Move) (l : list Gomoku.Move) :
  NoDup l → m ∈ l → S (length (filter (λ x, x ≠ m) l)) = length l.
Proof.
  induction 1 as [|x l Hnotin Hnd IH]; intros Hin; [inversion Hin|].
  destruct (decide (x = m)) as [->|Hne].
  - rewrite filter_cons_False by (intros Hc; apply Hc; reflexivity). simpl. f_equal.
    clear -Hnotin. induction l as [|y l IH]; [reflexivity|].
    rewrite filter_cons_True.
    + simpl. f_equal. apply IH. intros Hin. apply Hnotin, list_elem_of_further, Hin.
    + intros ->. apply Hnotin, list_elem_of_here.
  - rewrite filter_cons_True by assumption. simpl. f_equal. apply IH.
    apply elem_of_cons in Hin as [Heq|Hin]; [congruence|exact Hin].
Qed.

Lemma get_moves_places (s : Gomoku.State) (m : Gomoku.Move) :
  m ∈ Gomoku.get_moves s → m ∈ Gomoku.empty_places s.
Proof.
  unfold Gomoku.get_moves. destruct (negb _); [intros Hm; inversion Hm|auto].
Qed.

Lemma player_marker_not_empty (p : Z) :
  p = 1 ∨ p = 2 → Gomoku.player_markers p ≠ Gomoku.player_markers 0.
Proof. intros [-> | ->]; discriminate. Qed.

(** A move to an empty cell of the board keeps the position valid. *)
Lemma Gomoku_valid_do_move (n : Z) (s : Gomoku.State) (m : Gomoku.Move) :
  Gomoku_valid n s → m ∈ Gomoku.empty_places s → Gomoku_valid n (Gomoku.do_move s m).
Proof.
  intros Hv Hm. destruct (proj1 (gv_empty n s Hv m) Hm) as [[Hr Hc] Hcell].
  pose proof (gv_player n s Hv) as Hp.
  assert (Gomoku.cell (Gomoku.board (Gomoku.do_move s m)) m.1 m.2
          = Gomoku.player_markers (Gomoku.player_to_move s)) as Hnew.
  { simpl. apply (cell_set_cell_same _ _ _ _ (Z.to_nat n));
      [apply (gv_height n s Hv)|apply (gv_width n s Hv)|lia|lia]. }
  assert (∀ m', m' ≠ m →
            Gomoku.cell (Gomoku.board (Gomoku.do_move s m)) m'.1 m'.2
            = Gomoku.cell (Gomoku.board s) m'.1 m'.2) as Hold.
  { intros [r' c'] Hne. simpl. apply cell_set_cell_other.
    destruct m as [r c]. simpl. congruence. }
  split.
  - apply (gv_rows n s Hv).
  - apply (gv_cols n s Hv).
  - apply (gv_size n s Hv).
  - simpl. unfold Gomoku.set_cell. destruct (_ || _); [apply (gv_height n s Hv)|].
    rewrite length_alter. apply (gv_height n s Hv).
  - simpl. unfold Gomoku.set_cell. destruct (_ || _); [apply (gv_width n s Hv)|].
    apply Forall_alter; [apply (gv_width n s Hv)|].
    intros row _ Hrow. rewrite length_insert. exact Hrow.
  - simpl. lia.
  - intros r c. destruct (decide ((r, c) = m)) as [<-|Hne].
    + cbn [fst snd] in Hnew. rewrite Hnew. destruct Hp as [-> | ->]; auto.
    + pose proof (Hold (r, c) Hne) as Hrc. cbn [fst snd] in Hrc. rewrite Hrc.
      apply (gv_marks n s Hv).
  - simpl. apply NoDup_filter, (gv_nodup n s Hv).
  - intros m'.
    change (Gomoku.empty_places (Gomoku.do_move s m))
      with (filter (λ x, x ≠ m) (Gomoku.empty_places s)).
    rewrite list_elem_of_filter, (gv_empty n s Hv m').
    destruct (decide (m' = m)) as [->|Hne].
    + rewrite Hnew. split; [intros [Hc' _]; exfalso; apply Hc'; reflexivity|].
      intros [_ Hc']. exfalso. apply (player_marker_not_empty _ Hp Hc').
    + rewrite (Hold m' Hne). split; [intros [_ Hc']; exact Hc'|intros Hc'; split; assumption].
  - right. simpl Gomoku.last_row. simpl Gomoku.last_col. split; [split; assumption|].
    rewrite Hnew. simpl. f_equal. lia.
Qed.

(** Valid positions are what legal play reaches, and every move fills one
    empty place. *)
Lemma played_valid (n : Z) (k : nat) (s : Gomoku.State) :
  0 ≤ n → played n k s →
  Gomoku_valid n s
  ∧ (length (Gomoku.empty_places s) + k = Z.to_nat n * Z.to_nat n)%nat
  ∧ Gomoku.player_to_move s = (if Nat.even k then 1 else 2).
Proof.
  intros Hn. induction 1 as [|k s m _ (Hv & Hlen & Hp) Hm].
  - split; [apply Gomoku_valid_init, Hn|]. split; [|reflexivity].
    rewrite length_init_places. lia.
  - apply get_moves_places in Hm.
    split; [apply Gomoku_valid_do_move; assumption|]. split.
    + change (Gomoku.empty_places (Gomoku.do_move s m))
        with (filter (λ x, x ≠ m) (Gomoku.empty_places s)).
      pose proof (length_filter_ne m _ (gv_nodup n s Hv) Hm). lia.
    + simpl Gomoku.player_to_move. rewrite Hp, Nat.even_succ, <- Nat.negb_even.
      destruct (Nat.even k); reflexivity.
Qed.

(** A counting loop returns the length of the longest run of cells that
    pass its test. *)
Lemma count_run_spec (fuel : nat) (b : list (list ascii)) (piece : ascii)
    (in_range : Z → Z → bool) (drow dcol : Z) (dist : Z → Z → Z) (row col : Z) :
  (∀ r c, in_range r c = true → 0 ≤ dist r c) →
  (∀ r c, dist (r + drow) (c + dcol) = dist r c - 1) →
  dist row col < Z.of_nat fuel →
  0 ≤ Gomoku.count_run fuel b piece in_range drow dcol row col
  ∧ (∀ j, 0 ≤ j < Gomoku.count_run fuel b piece in_range drow dcol row col →
       in_range (row + j * drow) (col + j * dcol) = true
       ∧ Gomoku.cell b (row + j * drow) (col + j * dcol) = piece)
  ∧ ¬ (in_range (row + Gomoku.count_run fuel b piece in_range drow dcol row col * drow)
         (col + Gomoku.count_run fuel b piece in_range drow dcol row col * dcol) = true
       ∧ Gomoku.cell b
           (row + Gomoku.count_run fuel b piece in_range drow dcol row col * drow)
           (col + Gomoku.count_run fuel b piece in_range drow dcol row col * dcol) = piece).
Proof.
  intros Hpos Hstep. revert row col.
  induction fuel as [|fuel IH]; intros row col Hfuel; simpl.
  - split; [lia|]. split; [intros j Hj; lia|].
    rewrite !Z.add_0_r. intros [Hin _]. specialize (Hpos _ _ Hin). lia.
  - destruct (in_range row col && Ascii.eqb (Gomoku.cell b row col) piece) eqn:Htest.
    + apply andb_true_iff in Htest as [Hin Heq]. apply Ascii.eqb_eq in Heq.
      destruct (IH (row + drow) (col + dcol)) as (Hq & Hrun & Hend); [rewrite Hstep; lia|].
      set (q := Gomoku.count_run fuel b piece in_range drow dcol (row + drow) (col + dcol))
        in *.
      split; [lia|]. split.
      * intros j Hj. destruct (decide (j = 0)) as [->|Hne].
        -- rewrite !Z.add_0_r. split; assumption.
        -- destruct (Hrun (j - 1)) as [Hi Hc]; [lia|].
           replace (row + drow + (j - 1) * drow) with (row + j * drow) in Hi, Hc by lia.
           replace (col + dcol + (j - 1) * dcol) with (col + j * dcol) in Hi, Hc by lia.
           split; assumption.
      * replace (row + (1 + q) * drow) with (row + drow + q * drow) by lia.
        replace (col + (1 + q) * dcol) with (col + dcol + q * dcol) by lia.
        exact Hend.
    + split; [lia|]. split; [intros j Hj; lia|].
      rewrite !Z.add_0_r. intros [Hin Heq]. rewrite Hin in Htest. simpl in Htest.
      apply Ascii.eqb_neq in Htest. contradiction.
Qed.

(** One of the two loops of a direction, read along the line: [sign] is
    -1 for the loop that walks back and 1 for the loop that walks on. *)
Lemma ray_in_line (s : Gomoku.State) (d : Z * Z) (sign : Z) (in_range : Z → Z → bool)
    (fuel : nat) (dist : Z → Z → Z) (r0 c0 dr dc : Z) :
  r0 = Gomoku.last_row s + sign * d.1 → c0 = Gomoku.last_col s + sign * d.2 →
  dr = sign * d.1 → dc = sign * d.2 →
  (∀ r c, in_range r c = true → 0 ≤ dist r c) →
  (∀ r c, dist (r + dr) (c + dc) = dist r c - 1) →
  dist r0 c0 < Z.of_nat fuel →
  (∀ j, 0 ≤ j →
     in_range (r0 + j * dr) (c0 + j * dc) = true
     ↔ on_board (Gomoku.num_rows s) (Gomoku.num_cols s) (r0 + j * dr, c0 + j * dc)) →
  0 ≤ Gomoku.count_run fuel (Gomoku.board s) (last_piece s) in_range dr dc r0 c0
  ∧ (∀ t, 1 ≤ t ≤ Gomoku.count_run fuel (Gomoku.board s) (last_piece s) in_range dr dc r0 c0 →
       in_line s d (sign * t))
  ∧ ¬ in_line s d
        (sign * (Gomoku.count_run fuel (Gomoku.board s) (last_piece s) in_range dr dc r0 c0
                 + 1)).
Proof.
  intros Hr0 Hc0 Hdr Hdc Hpos Hstep Hfuel Hboard.
  destruct (count_run_spec fuel (Gomoku.board s) (last_piece s) in_range dr dc dist r0 c0
              Hpos Hstep Hfuel) as (Hq & Hrun & Hend).
  set (q := Gomoku.count_run fuel (Gomoku.board s) (last_piece s) in_range dr dc r0 c0) in *.
  assert (∀ t, Gomoku.last_row s + sign * t * d.1 = r0 + (t - 1) * dr
               ∧ Gomoku.last_col s + sign * t * d.2 = c0 + (t - 1) * dc) as Hcoord
    by (intros t; subst; split; ring).
  split; [exact Hq|]. split.
  - intros t Ht. unfold in_line. destruct (Hcoord t) as [-> ->].
    destruct (Hrun (t - 1)) as [Hin Hcell]; [lia|].
    split; [apply Hboard; [lia|exact Hin]|exact Hcell].
  - unfold in_line. destruct (Hcoord (q + 1)) as [-> ->].
    replace (q + 1 - 1) with q by lia.
    intros [Hon Hcell]. apply Hend. split; [apply Hboard; [lia|exact Hon]|exact Hcell].
Qed.

(** Runs of [back] cells before the last move and [on] cells after it make
    five in a row exactly when they add up to four. *)
Lemma five_in_line_counts (s : Gomoku.State) (d : Z * Z) (back on : Z) :
  on_board (Gomoku.num_rows s) (Gomoku.num_cols s) (Gomoku.last_row s, Gomoku.last_col s) →
  0 ≤ back ∧ (∀ t, 1 ≤ t ≤ back → in_line s d (-1 * t)) ∧ ¬ in_line s d (-1 * (back + 1)) →
  0 ≤ on ∧ (∀ t, 1 ≤ t ≤ on → in_line s d (1 * t)) ∧ ¬ in_line s d (1 * (on + 1)) →
  (5 <=? back + 1 + on) = true ↔ five_in_line s d.
Proof.
  intros Hlast (Hb & Hback & Hbend) (Ho & Hon & Hoend).
  assert (∀ t, - back ≤ t ≤ on → in_line s d t) as Hgood.
  { intros t Ht. destruct (Z.compare_spec t 0) as [->|Hneg|Hpos].
    - unfold in_line. rewrite !Z.mul_0_l, !Z.add_0_r. split; [exact Hlast|reflexivity].
    - replace t with (-1 * (- t)) by lia. apply Hback. lia.
    - replace t with (1 * t) by lia. apply Hon. lia. }
  rewrite Z.leb_le. split.
  - intros Hfive. exists (Z.min back 4). split; [lia|].
    intros j Hj. apply Hgood. lia.
  - intros (k & Hk & Hline).
    assert (k ≤ back) as Hkb.
    { destruct (Z.le_gt_cases k back) as [Hle|Hgt]; [exact Hle|]. exfalso. apply Hbend.
      replace (-1 * (back + 1)) with ((k - back - 1) - k) by lia. apply Hline. lia. }
    assert (4 - k ≤ on) as Hko.
    { destruct (Z.le_gt_cases (4 - k) on) as [Hle|Hgt]; [exact Hle|]. exfalso. apply Hoend.
      replace (1 * (on + 1)) with ((on + 1 + k) - k) by lia. apply Hline. lia. }
    lia.
Qed.

Lemma five_in_line_counts_on (s : Gomoku.State) (d : Z * Z) (back on : Z) :
  on_board (Gomoku.num_rows s) (Gomoku.num_cols s) (Gomoku.last_row s, Gomoku.last_col s) →
  0 ≤ back ∧ (∀ t, 1 ≤ t ≤ back → in_line s d (-1 * t)) ∧ ¬ in_line s d (-1 * (back + 1)) →
  0 ≤ on ∧ (∀ t, 1 ≤ t ≤ on → in_line s d (1 * t)) ∧ ¬ in_line s d (1 * (on + 1)) →
  (5 <=? on + 1 + back) = true ↔ five_in_line s d.
Proof.
  intros Hlast Hback Hon. rewrite <- (five_in_line_counts s d back on Hlast Hback Hon).
  rewrite !Z.leb_le. lia.
Qed.

(** The side conditions on a loop of [get_winner]: where it starts, how
    it steps, and that its test tells the cells of the board. *)
Ltac ray_side n0 :=
  solve [ simpl; lia
        | intros; cbv beta in *; lia
        | subst n0; cbv beta; lia
        | intros; unfold on_board; simpl; lia ].

(** X15.  With the last move on the board, [get_winner] returns the piece
    last played when that piece lies in a line of five cells, along its
    row, its column or one of its two diagonals, all on the board and
    holding the same piece; otherwise it returns the marker of the empty
    cell.  A longer line wins as well. *)
Theorem get_winner_five_in_line (s : Gomoku.State) :
  on_board (Gomoku.num_rows s) (Gomoku.num_cols s) (Gomoku.last_row s, Gomoku.last_col s) →
  (five_through_last s → Gomoku.get_winner s = last_piece s)
  ∧ (¬ five_through_last s → Gomoku.get_winner s = Gomoku.player_markers 0).
Proof.
  intros Hlast. pose proof Hlast as [Hrow Hcol]. simpl in Hrow, Hcol.
  unfold Gomoku.get_winner, Gomoku.get_winner_within.
  set (n0 := Z.to_nat (Z.max (Gomoku.num_rows s) (Gomoku.num_cols s))).
  replace (Gomoku.last_col s <? 0) with false by lia.
  fold (last_piece s). cbv zeta.
  set (b := Gomoku.board s). set (piece := last_piece s).
  (* the row *)
  pose proof (five_in_line_counts s (0, 1) _ _ Hlast
    (ray_in_line s (0, 1) (-1) (λ _ col, 0 <=? col) n0 (λ _ c, c)
       (Gomoku.last_row s) (Gomoku.last_col s - 1) 0 (-1)
       ltac:(ray_side n0) ltac:(ray_side n0) eq_refl eq_refl
       ltac:(ray_side n0) ltac:(ray_side n0) ltac:(ray_side n0) ltac:(ray_side n0))
    (ray_in_line s (0, 1) 1 (λ _ col, col <? Gomoku.num_cols s) n0
       (λ _ c, Gomoku.num_cols s - 1 - c)
       (Gomoku.last_row s) (Gomoku.last_col s + 1) 0 1
       ltac:(ray_side n0) ltac:(ray_side n0) eq_refl eq_refl
       ltac:(ray_side n0) ltac:(ray_side n0) ltac:(ray_side n0) ltac:(ray_side n0)))
    as Hline1.
  (* the column *)
  pose proof (five_in_line_counts s (1, 0) _ _ Hlast
    (ray_in_line s (1, 0) (-1) (λ row _, 0 <=? row) n0 (λ r _, r)
       (Gomoku.last_row s - 1) (Gomoku.last_col s) (-1) 0
       ltac:(ray_side n0) ltac:(ray_side n0) eq_refl eq_refl
       ltac:(ray_side n0) ltac:(ray_side n0) ltac:(ray_side n0) ltac:(ray_side n0))
    (ray_in_line s (1, 0) 1 (λ row _, row <? Gomoku.num_rows s) n0
       (λ r _, Gomoku.num_rows s - 1 - r)
       (Gomoku.last_row s + 1) (Gomoku.last_col s) 1 0
       ltac:(ray_side n0) ltac:(ray_side n0) eq_refl eq_refl
       ltac:(ray_side n0) ltac:(ray_side n0) ltac:(ray_side n0) ltac:(ray_side n0)))
    as Hline2.
  (* the diagonal *)
  pose proof (five_in_line_counts s (1, 1) _ _ Hlast
    (ray_in_line s (1, 1) (-1) (λ row col, (0 <=? row) && (0 <=? col)) n0 (λ r _, r)
       (Gomoku.last_row s - 1) (Gomoku.last_col s - 1) (-1) (-1)
       ltac:(ray_side n0) ltac:(ray_side n0) eq_refl eq_refl
       ltac:(ray_side n0) ltac:(ray_side n0) ltac:(ray_side n0) ltac:(ray_side n0))
    (ray_in_line s (1, 1) 1
       (λ row col, (row <? Gomoku.num_rows s) && (col <? Gomoku.num_cols s)) n0
       (λ r _, Gomoku.num_rows s - 1 - r)
       (Gomoku.last_row s + 1) (Gomoku.last_col s + 1) 1 1
       ltac:(ray_side n0) ltac:(ray_side n0) eq_refl eq_refl
       ltac:(ray_side n0) ltac:(ray_side n0) ltac:(ray_side n0) ltac:(ray_side n0)))
    as Hline3.
  (* the antidiagonal: the loop the code calls "up" walks on, to greater rows *)
  pose proof (five_in_line_counts_on s (1, -1) _ _ Hlast
    (ray_in_line s (1, -1) (-1) (λ row col, (0 <=? row) && (col <? Gomoku.num_cols s)) n0
       (λ r _, r)
       (Gomoku.last_row s - 1) (Gomoku.last_col s + 1) (-1) 1
       ltac:(ray_side n0) ltac:(ray_side n0) eq_refl eq_refl
       ltac:(ray_side n0) ltac:(ray_side n0) ltac:(ray_side n0) ltac:(ray_side n0))
    (ray_in_line s (1, -1) 1 (λ row col, (row <? Gomoku.num_rows s) && (0 <=? col)) n0
       (λ r _, Gomoku.num_rows s - 1 - r)
       (Gomoku.last_row s + 1) (Gomoku.last_col s - 1) 1 (-1)
       ltac:(ray_side n0) ltac:(ray_side n0) eq_refl eq_refl
       ltac:(ray_side n0) ltac:(ray_side n0) ltac:(ray_side n0) ltac:(ray_side n0)))
    as Hline4.
  fold b piece in Hline1, Hline2, Hline3, Hline4.
  assert (five_through_last s
          ↔ five_in_line s (0, 1) ∨ five_in_line s (1, 0) ∨ five_in_line s (1, 1)
            ∨ five_in_line s (1, -1)) as Hany.
  { unfold five_through_last, directions. split.
    - intros (d & Hd & Hfive).
      repeat (apply elem_of_cons in Hd as [->|Hd]; [tauto|]). inversion Hd.
    - intros [Hf|[Hf|[Hf|Hf]]]; eexists; (split; [|exact Hf]);
        repeat (apply list_elem_of_here || apply list_elem_of_further). }
  rewrite Hany, <- Hline1, <- Hline2, <- Hline3, <- Hline4.
  destruct (5 <=? _ + 1 + _); [split; [reflexivity|intros Hc; exfalso; apply Hc; tauto]|].
  destruct (5 <=? _ + 1 + _); [split; [reflexivity|intros Hc; exfalso; apply Hc; tauto]|].
  destruct (5 <=? _ + 1 + _); [split; [reflexivity|intros Hc; exfalso; apply Hc; tauto]|].
  destruct (5 <=? _ + 1 + _); [split; [reflexivity|intros Hc; exfalso; apply Hc; tauto]|].
  split; [intros [Hc|[Hc|[Hc|Hc]]]; discriminate|reflexivity].
Qed.

(** [get_winner] returns the piece last played, or the marker of the empty
    cell. *)
Lemma get_winner_cases (s : Gomoku.State) :
  Gomoku.get_winner s = Gomoku.player_markers 0 ∨ Gomoku.get_winner s = last_piece s.
Proof.
  unfold Gomoku.get_winner, Gomoku.get_winner_within, last_piece.
  destruct (Gomoku.last_col s <? 0); [left; reflexivity|]. cbv zeta.
  repeat (destruct (5 <=? _); [right; reflexivity|]). left. reflexivity.
Qed.

Lemma get_winner_fresh (s : Gomoku.State) :
  Gomoku.last_col s < 0 → Gomoku.get_winner s = Gomoku.player_markers 0.
Proof.
  intros Hc. unfold Gomoku.get_winner, Gomoku.get_winner_within.
  replace (Gomoku.last_col s <? 0) with true by lia. reflexivity.
Qed.

(** In a valid position the winner, if there is one, is the player who
    moved last. *)
Lemma valid_winner (n : Z) (s : Gomoku.State) :
  Gomoku_valid n s →
  Gomoku.get_winner s = Gomoku.player_markers 0
  ∨ Gomoku.get_winner s = Gomoku.player_markers (3 - Gomoku.player_to_move s).
Proof.
  intros Hv. destruct (gv_last n s Hv) as [[_ Hc]|[_ Hcell]].
  - left. apply get_winner_fresh. lia.
  - destruct (get_winner_cases s) as [Hw|Hw]; [left; exact Hw|right].
    rewrite Hw. exact Hcell.
Qed.

(** X14.  A position reached from the empty board of side [n] by [k] legal
    moves is valid: the board is [n] by [n] and holds markers only,
    [empty_places] lists exactly the empty cells of the board, each once,
    and the last move, if one was made, is on the board and holds the marker
    of the player who made it.  There are [n * n - k] empty places, player 1 is to move when
    [k] is even and player 2 when it is odd, and after [n * n] moves the
    game is over. *)
Theorem played_positions_valid (n : Z) (k : nat) (s : Gomoku.State) :
  0 ≤ n → played n k s →
  Gomoku_valid n s
  ∧ (length (Gomoku.empty_places s) + k = Z.to_nat n * Z.to_nat n)%nat
  ∧ (k ≤ Z.to_nat n * Z.to_nat n)%nat
  ∧ Gomoku.player_to_move s = (if Nat.even k then 1 else 2)
  ∧ (k = (Z.to_nat n * Z.to_nat n)%nat → Gomoku.has_moves s = false).
Proof.
  intros Hn Hplayed. destruct (played_valid n k s Hn Hplayed) as (Hv & Hlen & Hp).
  split; [exact Hv|]. split; [exact Hlen|]. split; [lia|]. split; [exact Hp|].
  intros Hk. unfold Gomoku.has_moves. destruct (negb _); [reflexivity|].
  destruct (Gomoku.empty_places s); [reflexivity|simpl in Hlen; lia].
Qed.

(** X16.  In a position reached by legal play the winner, if there is one,
    is the player who made the last move, never the player to move:
    [get_result] for the player to move is 0.5 or 1.0, and the results for
    the two players add up to 1.0. *)
Theorem played_winner_moved_last (n : Z) (k : nat) (s : Gomoku.State) :
  0 ≤ n → played n k s →
  (Gomoku.get_winner s = Gomoku.player_markers 0
   ∨ Gomoku.get_winner s = Gomoku.player_markers (3 - Gomoku.player_to_move s))
  ∧ (Gomoku.get_result s (Gomoku.player_to_move s) = 0.5%float
     ∨ Gomoku.get_result s (Gomoku.player_to_move s) = 1%float)
  ∧ (Gomoku.get_result s 1 + Gomoku.get_result s 2 = 1)%float.
Proof.
  intros Hn Hplayed. destruct (played_valid n k s Hn Hplayed) as (Hv & _ & _).
  pose proof (valid_winner n s Hv) as Hw. split; [exact Hw|].
  unfold Gomoku.get_result.
  destruct (gv_player n s Hv) as [Hp|Hp]; rewrite Hp in *; simpl in Hw;
    destruct Hw as [-> | ->]; (split; [auto|reflexivity]).
Qed.

(** X17.  [has_moves] holds exactly when [get_moves] returns at least one
    move; once [get_winner] reports a winner there is no move, even on a
    board with empty cells, and while it reports none the moves are the
    empty places. *)
Theorem has_moves_get_moves (s : Gomoku.State) :
  (Gomoku.has_moves s = true ↔ Gomoku.get_moves s ≠ [])
  ∧ (Gomoku.get_winner s ≠ Gomoku.player_markers 0 →
     Gomoku.has_moves s = false ∧ Gomoku.get_moves s = [])
  ∧ (Gomoku.get_winner s = Gomoku.player_markers 0 →
     Gomoku.get_moves s = Gomoku.empty_places s)
  ∧ (∀ m, m ∈ Gomoku.get_moves s → m ∈ Gomoku.empty_places s).
Proof.
  unfold Gomoku.has_moves, Gomoku.get_moves.
  destruct (Ascii.eqb (Gomoku.get_winner s) (Gomoku.player_markers 0)) eqn:Hw; simpl.
  - apply Ascii.eqb_eq in Hw. split; [|split; [|split]].
    + destruct (Gomoku.empty_places s); simpl; split; congruence.
    + intros Hne. contradiction.
    + reflexivity.
    + auto.
  - apply Ascii.eqb_neq in Hw. split; [|split; [|split]].
    + split; [discriminate|congruence].
    + split; reflexivity.
    + intros Heq. contradiction.
    + intros m Hm. inversion Hm.
Qed.

(** A random move is a legal move. *)
Lemma do_random_move_legal {E} `{RandomEngine E} (s : Gomoku.State) (engine : E) :
  Gomoku.has_moves s = true →
  ∃ m, m ∈ Gomoku.get_moves s
    ∧ Gomoku.do_random_move s engine
      = Done (Gomoku.do_move s m,
              (uniform_index engine (length (Gomoku.empty_places s))).2).
Proof.
  intros Hm. pose proof (Gomoku_has_moves_places s Hm) as Hne.
  assert (Gomoku.get_moves s = Gomoku.empty_places s) as Hmoves.
  { unfold Gomoku.has_moves in Hm. unfold Gomoku.get_moves.
    destruct (negb _); [discriminate|reflexivity]. }
  unfold Gomoku.do_random_move.
  pose proof (uniform_index_lt engine (length (Gomoku.empty_places s))) as Hlt.
  destruct (uniform_index engine (length (Gomoku.empty_places s))) as [idx e'].
  simpl in Hlt |- *.
  assert (0 < length (Gomoku.empty_places s))%nat as Hpos.
  { destruct (Gomoku.empty_places s); [congruence|simpl; lia]. }
  destruct (lookup_lt_is_Some_2 _ _ (Hlt Hpos)) as [m Hlk].
  exists m. split; [rewrite Hmoves; eapply list_elem_of_lookup_2, Hlk|].
  unfold at_index. rewrite Hlk. reflexivity.
Qed.

(** A move to an empty place takes it, and only it, from the empty places. *)
Lemma do_move_fills (s : Gomoku.State) (m : Gomoku.Move) :
  m ∈ Gomoku.empty_places s →
  (length (Gomoku.empty_places (Gomoku.do_move s m)) < length (Gomoku.empty_places s))%nat
  ∧ (NoDup (Gomoku.empty_places s) →
     S (length (Gomoku.empty_places (Gomoku.do_move s m)))
     = length (Gomoku.empty_places s)).
Proof.
  intros Hm. split; [apply filter_ne_shorter, Hm|].
  intros Hnd. apply length_filter_ne; assumption.
Qed.

Lemma played_no_board (n : Z) (k : nat) (s : Gomoku.State) :
  n < 0 → played n k s → Gomoku.empty_places s = [].
Proof.
  intros Hn. induction 1 as [|k s m _ IH Hm].
  - simpl. replace (Z.to_nat n) with 0%nat by lia. reflexivity.
  - apply get_moves_places in Hm. rewrite IH in Hm. inversion Hm.
Qed.

(** X18.  The random playout of an iteration ends within as many moves as
    there are empty places, in a position without moves; every move it
    makes is legal, so that from a position reached by legal play it ends in
    one, and it plays as many moves as empty places have gone. *)
Theorem playout_ends {E} `{RandomEngine E} (fuel : nat) (s : Gomoku.State) (engine : E) :
  (length (Gomoku.empty_places s) < fuel)%nat →
  ∃ s' engine',
    playout fuel s engine = Done (s', engine')
    ∧ Gomoku.has_moves s' = false
    ∧ (length (Gomoku.empty_places s') ≤ length (Gomoku.empty_places s))%nat
    ∧ ∀ n k, played n k s →
        ∃ k', played n k' s' ∧ (k ≤ k')%nat
              ∧ (k' - k = length (Gomoku.empty_places s) - length (Gomoku.empty_places s'))%nat.
Proof.
  revert s engine. induction fuel as [|fuel IH]; intros s engine Hfuel; [lia|].
  simpl. destruct (Gomoku.has_moves s) eqn:Hm.
  - destruct (do_random_move_legal s engine Hm) as (m & Hin & ->). simpl.
    pose proof (get_moves_places s m Hin) as Hplace.
    destruct (do_move_fills s m Hplace) as [Hshort Hone].
    destruct (IH (Gomoku.do_move s m)
                (uniform_index engine (length (Gomoku.empty_places s))).2)
      as (s' & e' & Hrun & Hend & Hlen & Hplayed); [lia|].
    exists s', e'. split; [exact Hrun|]. split; [exact Hend|]. split; [lia|].
    intros n k Hk.
    destruct (Hplayed n (S k) (played_move n k s m Hk Hin)) as (k' & Hk' & Hle & Hdiff).
    exists k'. split; [exact Hk'|]. split; [lia|].
    destruct (Z_le_gt_dec 0 n) as [Hn|Hn].
    + destruct (played_valid n k s Hn Hk) as (Hv & _ & _).
      specialize (Hone (gv_nodup n s Hv)). lia.
    + exfalso. rewrite (played_no_board n k s) in Hplace by (assumption || lia).
      inversion Hplace.
  - exists s, engine. split; [reflexivity|]. split; [exact Hm|]. split; [lia|].
    intros n k Hk. exists k. split; [exact Hk|]. split; lia.
Qed.

Lemma string_of_list_ascii_inj (l l' : list ascii) :
  string_of_list_ascii l = string_of_list_ascii l' → l = l'.
Proof.
  intros Heq. rewrite <- (list_ascii_of_string_of_list_ascii l),
    <- (list_ascii_of_string_of_list_ascii l'), Heq. reflexivity.
Qed.

Lemma length_string_of_list_ascii (l : list ascii) :
  String.length (string_of_list_ascii l) = length l.
Proof. induction l as [|x l IH]; simpl; [reflexivity|]. rewrite IH. reflexivity. Qed.

(** Blocks of one length can be read back from their concatenation. *)
Lemma concat_map_blocks {A B} (f g : A → list B) (l : list A) (k : nat) :
  (∀ x, length (f x) = k) → (∀ x, length (g x) = k) →
  concat (map f l) = concat (map g l) → ∀ x, x ∈ l → f x = g x.
Proof.
  intros Hf Hg. induction l as [|y l IH]; intros Heq x Hx; [inversion Hx|].
  simpl in Heq. apply app_inj_1 in Heq as [Hy Heq]; [|rewrite Hf, Hg; reflexivity].
  apply elem_of_cons in Hx as [->|Hx]; [exact Hy|]. apply IH; assumption.
Qed.

Lemma digit_marker_number (x y : ascii) :
  x = Gomoku.player_markers 0 ∨ x = Gomoku.player_markers 1 ∨ x = Gomoku.player_markers 2 →
  y = Gomoku.player_markers 0 ∨ y = Gomoku.player_markers 1 ∨ y = Gomoku.player_markers 2 →
  Gomoku.digit (Gomoku.marker_number x) = Gomoku.digit (Gomoku.marker_number y) → x = y.
Proof.
  intros [-> |[-> | ->]] [-> |[-> | ->]]; vm_compute; intros Heq;
    reflexivity || discriminate.
Qed.

(** A board with its rows of full width is the table of its cells. *)
Lemma board_cells (n : nat) (b b' : list (list ascii)) :
  length b = n → Forall (λ row, length row = n) b →
  length b' = n → Forall (λ row, length row = n) b' →
  (∀ r c, (r < n)%nat → (c < n)%nat →
     Gomoku.cell b (Z.of_nat r) (Z.of_nat c) = Gomoku.cell b' (Z.of_nat r) (Z.of_nat c)) →
  b = b'.
Proof.
  intros Hb Hrows Hb' Hrows' Hcells. apply list_eq. intros r.
  destruct (le_lt_dec n r) as [Hge|Hlt].
  - rewrite (proj2 (lookup_ge_None b r)), (proj2 (lookup_ge_None b' r)) by lia. reflexivity.
  - destruct (lookup_lt_is_Some_2 b r) as [row Hrow]; [lia|].
    destruct (lookup_lt_is_Some_2 b' r) as [row' Hrow']; [lia|].
    rewrite Hrow, Hrow'. f_equal.
    pose proof (proj1 (Forall_lookup _ _) Hrows _ _ Hrow) as Hlen.
    pose proof (proj1 (Forall_lookup _ _) Hrows' _ _ Hrow') as Hlen'.
    cbv beta in Hlen, Hlen'.
    apply list_eq. intros c. destruct (le_lt_dec n c) as [Hgc|Hlc].
    + rewrite (proj2 (lookup_ge_None row c)), (proj2 (lookup_ge_None row' c)) by lia.
      reflexivity.
    + specialize (Hcells r c Hlt Hlc). unfold Gomoku.cell in Hcells.
      replace ((Z.of_nat r <? 0) || (Z.of_nat c <? 0)) with false in Hcells by lia.
      rewrite !Nat2Z.id, Hrow, Hrow' in Hcells.
      destruct (lookup_lt_is_Some_2 row c) as [x Hx]; [lia|].
      destruct (lookup_lt_is_Some_2 row' c) as [x' Hx']; [lia|].
      rewrite Hx, Hx' in Hcells |- *. simpl in Hcells. congruence.
Qed.

(** X20.  For a valid position of side [n], [str] writes [2 * n * n]
    characters, a digit and a comma for every cell; and two valid positions
    of the same side have the same [str] exactly when they have the same
    board: the text determines the board. *)
Theorem str_determines_board (n : Z) (s s' : Gomoku.State) :
  Gomoku_valid n s → Gomoku_valid n s' →
  String.length (Gomoku.str s) = (2 * (Z.to_nat n * Z.to_nat n))%nat
  ∧ (Gomoku.str s = Gomoku.str s' ↔ Gomoku.board s = Gomoku.board s').
Proof.
  intros Hv Hv'. unfold Gomoku.str.
  rewrite (gv_rows n s Hv), (gv_cols n s Hv), (gv_rows n s' Hv'), (gv_cols n s' Hv').
  set (k := Z.to_nat n).
  split; [|split].
  - rewrite length_string_of_list_ascii.
    rewrite (length_concat_map _ _ (2 * k)%nat).
    + rewrite length_seq. lia.
    + intros row. rewrite (length_concat_map _ _ 2%nat); [|reflexivity].
      rewrite length_seq. lia.
  - intros Heq. apply string_of_list_ascii_inj in Heq.
    apply (board_cells k);
      [apply (gv_height n s Hv)|apply (gv_width n s Hv)
      |apply (gv_height n s' Hv')|apply (gv_width n s' Hv')|].
    intros r c Hr Hc.
    apply (concat_map_blocks _ _ _ (2 * k)%nat) with (x := r) in Heq;
      [|intros row; rewrite (length_concat_map _ _ 2%nat);
        [rewrite length_seq; lia|reflexivity]..|apply elem_of_seq; lia].
    apply (concat_map_blocks _ _ _ 2%nat) with (x := c) in Heq as Hcell;
      [|reflexivity..|apply elem_of_seq; lia].
    injection Hcell as Hcell.
    apply digit_marker_number; [apply (gv_marks n s Hv)|apply (gv_marks n s' Hv')|exact Hcell].
  - intros ->. reflexivity.
Qed.

(** ** Runs on concrete positions *)

(** C1: counterexample.  On the full board of one cell, where [get_moves]
    is empty, [compute_move] runs its worker for three iterations and
    returns (0, 0), which is not [no_move]. *)
Lemma compute_move_final_position_counterexample :
  get_moves full_board = []
  ∧ (∃ roots merged,
       compute_move_run (H1 := openmp_build) 10 full_board
         (options_with 1 3 (-1)%float false) 42 (λ _, 0%float)
       = Done (Searched roots merged (0, 0))
       ∧ Forall (λ a, root_visits a = 3) roots ∧ length roots = 1%nat)
  ∧ compute_move (H1 := openmp_build) 10 full_board
      (options_with 1 3 (-1)%float false) 42 (λ _, 0%float)
    ≠ Done (no_move (State := Gomoku.State)).
Proof.
  split; [reflexivity|]. split.
  - eexists _, _. split; [vm_compute; reflexivity|].
    split; [repeat constructor|reflexivity].
  - vm_compute. discriminate.
Qed.

(** C2: counterexample.  Player 1 has five in a row and the game is over,
    yet [get_result 1] is 0.0, not 1.0, and [get_result 2] is 1.0 for the
    player who lost. *)
Lemma get_result_counterexample :
  Gomoku.has_moves top_row_won = false
  ∧ Gomoku.get_winner top_row_won = Gomoku.player_markers 1
  ∧ Gomoku.get_result top_row_won 1 = 0%float
  ∧ Gomoku.get_result top_row_won 1 ≠ 1%float
  ∧ Gomoku.get_result top_row_won 2 = 1%float.
Proof.
  repeat split; try (vm_compute; reflexivity).
  intros Heq. apply (f_equal Prim2SF) in Heq. vm_compute in Heq. discriminate.
Qed.

(** C3: counterexample.  Expanding the root of the empty board of side 3,
    where player 1 is to move and plays the move, makes a node that stores
    player 2. *)
Lemma expand_player_counterexample :
  ∃ a' node' state' engine' child,
    expand [Node_root (Gomoku.init 3)] 0%nat (Gomoku.init 3) (seed_engine 42)
    = Done (a', node', state', engine')
    ∧ a' !! node' = Some child
    ∧ Gomoku.player_to_move (Gomoku.init 3) = 1
    ∧ state' = Gomoku.do_move (Gomoku.init 3) (Node.move child)
    ∧ Node.player_to_move child = 2
    ∧ Node.player_to_move child ≠ Gomoku.player_to_move (Gomoku.init 3).
Proof.
  eexists _, _, _, _, _. split; [vm_compute; reflexivity|].
  split; [reflexivity|]. split; [reflexivity|]. split; [reflexivity|].
  split; [reflexivity|]. vm_compute. discriminate.
Qed.

(** C5: a run against it.  In a build with OpenMP, a verbose run with
    [max_iterations = 2] and [max_time = -1] reads the clock after its first
    iteration, finds the elapsed time not below [max_time], and leaves the
    loop: the root has one visit.  The same run without verbosity makes its
    two iterations. *)
Lemma compute_tree_verbose_stops_early :
  (∃ a, compute_tree_run (H1 := openmp_build) 50 (Gomoku.init 2)
          (options_with 1 2 (-1)%float true) 42 0%float = Done (a, 1)
        ∧ root_visits a = 1)
  ∧ (∃ a, compute_tree_run (H1 := openmp_build) 50 (Gomoku.init 2)
            (options_with 1 2 (-1)%float false) 42 0%float = Done (a, 2)
          ∧ root_visits a = 2).
Proof.
  split; eexists; (split; [vm_compute; reflexivity|reflexivity]).
Qed.

(** C9: counterexample.  With no thread, no iteration count and no time
    limit, [compute_move] returns a move, (0, 0), and no error; with one
    thread and the same limits it does not finish within a hundred
    steps. *)
Lemma compute_move_options_counterexample :
  compute_move (H1 := openmp_build) 10 (Gomoku.init 2)
    (options_with 0 (-1) (-1)%float false) 42 (λ _, 0%float) = Done (0, 0)
  ∧ compute_move (H1 := openmp_build) 100 (Gomoku.init 2)
      (options_with 1 (-1) (-1)%float false) 42 (λ _, 0%float) = OutOfFuel.
Proof. split; vm_compute; reflexivity. Qed.

(** ** The theorems at concrete inputs *)

(** C1 on the full board of one cell, two workers of three iterations. *)
Lemma compute_move_final_position_witness :
  ∃ roots merged,
    compute_move_run (H1 := openmp_build) 10 full_board
      (options_with 2 3 (-1)%float true) 42 (λ _, 0%float)
    = Done (Searched roots merged Move_default)
    ∧ compute_move (H1 := openmp_build) 10 full_board
        (options_with 2 3 (-1)%float true) 42 (λ _, 0%float) = Done Move_default
    ∧ length roots = Z.to_nat 2
    ∧ Forall (λ a, length a = 1%nat ∧ root_visits a = 3) roots
    ∧ m_visits merged = [] ∧ m_wins merged = [].
Proof.
  apply (compute_move_final_position (H1 := openmp_build) 10 full_board
           (options_with 2 3 (-1)%float true) 42 (λ _, 0%float)).
  - reflexivity.
  - unfold INT_MAX. simpl. lia.
  - reflexivity.
  - simpl. lia.
  - simpl. lia.
Defined.

(** C2 for player 1 on the board where player 1 has five in a row. *)
Lemma get_result_opponent_view_witness :
  (Gomoku.get_winner top_row_won = Gomoku.player_markers 1
   → Gomoku.get_result top_row_won 1 = 0%float)
  ∧ (Gomoku.get_winner top_row_won = Gomoku.player_markers (3 - 1)
     → Gomoku.get_result top_row_won 1 = 1%float)
  ∧ (Gomoku.get_winner top_row_won = Gomoku.player_markers 0
     → Gomoku.get_result top_row_won 1 = 0.5%float).
Proof. apply (get_result_opponent_view top_row_won 1). left. reflexivity. Defined.

(** C3 at the root of the empty board of side 3. *)
Lemma expand_stores_player_after_move_witness :
  ∃ a' state' engine' child,
    expand [Node_root (Gomoku.init 3)] 0%nat (Gomoku.init 3) (seed_engine 42 : Z)
    = Done (a', 1%nat, state', engine')
    ∧ a' !! 1%nat = Some child
    ∧ state' = Gomoku.do_move (Gomoku.init 3) (Node.move child)
    ∧ Node.player_to_move child = Gomoku.player_to_move state'
    ∧ Node.player_to_move child = 3 - Gomoku.player_to_move (Gomoku.init 3)
    ∧ ∀ fuel final a'',
        backpropagate fuel a' (Some 1%nat) final = Done a'' →
        a'' !! 1%nat
        = Some (update_node child (Gomoku.get_result final (Node.player_to_move child))).
Proof.
  apply (expand_stores_player_after_move [Node_root (Gomoku.init 3)] 0%nat
           (Node_root (Gomoku.init 3)) (Gomoku.init 3) (seed_engine 42 : Z)).
  - apply wf_tree_root.
  - reflexivity.
  - reflexivity.
Defined.

(** C4 on the empty board of one cell, whose only move is (0, 0). *)
Lemma compute_move_single_move_witness :
  compute_move_run (H1 := openmp_build) 10 (Gomoku.init 1)
    (options_with 2 100 (-1)%float false) 42 (λ _, 0%float) = Done (ShortCircuit (0, 0))
  ∧ compute_move (H1 := openmp_build) 10 (Gomoku.init 1)
      (options_with 2 100 (-1)%float false) 42 (λ _, 0%float) = Done (0, 0)
  ∧ compute_move (H1 := openmp_build) 0 (Gomoku.init 1)
      (options_with 2 100 (-1)%float false) 42 (λ _, 0%float) = Done (0, 0).
Proof.
  apply (compute_move_single_move (H1 := openmp_build) 10 (Gomoku.init 1)
           (options_with 2 100 (-1)%float false) 42 (λ _, 0%float) (0, 0)).
  reflexivity.
Defined.

(** C6 for two workers of six iterations on the empty board of side 2. *)
Lemma compute_move_merge_sums_witness :
  length [six_tree; six_tree] = Z.to_nat 2
  ∧ (∀ t a, [six_tree; six_tree] !! t = Some a →
       compute_tree (H1 := openmp_build) 50 (Gomoku.init 2)
         (set_verbose (options_with 2 6 (-1)%float true) false) 42 0%float = Done a)
  ∧ (∀ m, map_get Move_lt (m_visits six_merged) m 0
          = fold_left (λ s tree, s + sum_visits (with_move m (root_children tree)))
              [six_tree; six_tree] 0)
  ∧ (∀ m, map_get Move_lt (m_wins six_merged) m 0%float
          = sum_wins (all_with_move m [six_tree; six_tree]))
  ∧ m_games_played six_merged
    = fold_left (λ s tree, s + root_visits tree) [six_tree; six_tree] 0
  ∧ (∀ e, e ∈ m_visits six_merged → 1 ≤ e.2 < INT_MAX).
Proof.
  apply (compute_move_merge_sums (H1 := openmp_build) 50 (Gomoku.init 2)
           (options_with 2 6 (-1)%float true) 42 (λ _, 0%float)
           [six_tree; six_tree] six_merged (0, 0)).
  - vm_compute. reflexivity.
  - vm_compute. reflexivity.
Defined.

(** C7 on a map where the first and the last entry tie at 0.6. *)
Lemma select_best_first_greatest_witness :
  (∀ w v, expected_success_rate w v = ((w + 1) / (v + 2))%float)
  ∧ (∀ visits' wins', visits' = sample_visits → wins' = sample_wins →
       select_best (State := Gomoku.State) visits' wins'
       = select_best (State := Gomoku.State) sample_visits sample_wins)
  ∧ ∃ i itr,
      sample_visits !! i = Some itr
      ∧ select_best (State := Gomoku.State) sample_visits sample_wins = itr.1
      ∧ ∀ j itr', sample_visits !! j = Some itr' →
          (entry_rate (State := Gomoku.State) sample_wins itr
           <? entry_rate (State := Gomoku.State) sample_wins itr')%float = false
          ∧ ((j < i)%nat →
             (entry_rate (State := Gomoku.State) sample_wins itr'
              =? entry_rate (State := Gomoku.State) sample_wins itr)%float = false).
Proof.
  apply (select_best_first_greatest (State := Gomoku.State) sample_visits sample_wins
           ((0, 1), 5)).
  - apply list_elem_of_further, list_elem_of_here.
  - vm_compute. reflexivity.
Defined.

(** C8 at the root of the tree of six iterations. *)
Lemma select_child_UCT_first_greatest_witness :
  (∀ child : Node.t Gomoku.Move,
      UCT_score (H1 := openmp_build) six_root child
      = (Node.wins child / double_of_int (Node.visits child)
         + PrimFloat.sqrt (2 * approx_log (double_of_int (Node.visits six_root))
                           / double_of_int (Node.visits child)))%float)
  ∧ ∃ i c n,
      select_child_UCT (H1 := openmp_build) six_tree six_root = Done c
      ∧ Node.children six_root !! i = Some c
      ∧ six_tree !! c = Some n
      ∧ ∀ j c' n', Node.children six_root !! j = Some c' → six_tree !! c' = Some n' →
          (UCT_score (H1 := openmp_build) six_root n
           <? UCT_score (H1 := openmp_build) six_root n')%float = false
          ∧ ((j < i)%nat →
             (UCT_score (H1 := openmp_build) six_root n'
              =? UCT_score (H1 := openmp_build) six_root n)%float = false
             ∧ (is_number (UCT_score (H1 := openmp_build) six_root n') = true →
                is_number (UCT_score (H1 := openmp_build) six_root n) = true →
                (UCT_score (H1 := openmp_build) six_root n'
                 <? UCT_score (H1 := openmp_build) six_root n)%float = true)).
Proof.
  apply (select_child_UCT_first_greatest (H := openmp_build) six_tree six_root).
  - discriminate.
  - intros c Hc. simpl in Hc.
    repeat (apply elem_of_cons in Hc as [->|Hc]);
      try (eexists; split; reflexivity).
    inversion Hc.
Defined.

(** C9 on the empty board of side 2: no thread; a time limit without
    OpenMP; no limit at all. *)
Lemma compute_move_unchecked_options_witness :
  compute_move (H1 := openmp_build) 10 (Gomoku.init 2)
    (options_with 0 5 (-1)%float false) 42 (λ _, 0%float) = Done (0, 0)
  ∧ compute_move (H1 := plain_build) 10 (Gomoku.init 2)
      (options_with 2 5 1.5%float false) 42 (λ _, 0%float)
    = Throw "ComputeOptions::max_time requires OpenMP."
  ∧ compute_move (H1 := openmp_build) 10 (Gomoku.init 2)
      (options_with 2 (-1) (-1)%float false) 42 (λ _, 0%float) = OutOfFuel.
Proof.
  split; [|split].
  - destruct (compute_move_unchecked_options (H1 := openmp_build) 10 (Gomoku.init 2)
                (options_with 0 5 (-1)%float false) 42 (λ _, 0%float)) as (Ha & _).
    + vm_compute. discriminate.
    + apply Ha. simpl. lia.
  - destruct (compute_move_unchecked_options (H1 := plain_build) 10 (Gomoku.init 2)
                (options_with 2 5 1.5%float false) 42 (λ _, 0%float)) as (_ & Hb & _).
    + vm_compute. discriminate.
    + apply Hb; [simpl; lia|reflexivity|reflexivity].
  - destruct (compute_move_unchecked_options (H1 := openmp_build) 10 (Gomoku.init 2)
                (options_with 2 (-1) (-1)%float false) 42 (λ _, 0%float)) as (_ & _ & Hc).
    + vm_compute. discriminate.
    + apply Hc; [simpl; lia|simpl; lia|reflexivity].
Defined.

(** C10 on the tree of six iterations. *)
Lemma compute_tree_children_account_witness :
  sum_visits (root_children six_tree) = root_visits six_tree.
Proof.
  apply (compute_tree_children_account (H1 := openmp_build) 50 (Gomoku.init 2)
           (options_with 1 6 (-1)%float false) 42 0%float six_tree).
  - vm_compute. discriminate.
  - vm_compute. reflexivity.
Defined.

(** ** The further theorems at concrete inputs *)

Lemma six_tree_run :
  compute_tree (H1 := openmp_build) 50 (Gomoku.init 2) six_options 42 0%float = Done six_tree.
Proof. vm_compute. reflexivity. Qed.

Lemma six_tree_wf : wf_tree six_tree.
Proof. apply (compute_tree_looped _ _ _ _ _ _ six_tree_run). Qed.

Lemma six_search :
  compute_move_run (H1 := openmp_build) 50 (Gomoku.init 2)
    (options_with 2 6 (-1)%float true) 42 (λ _, 0%float)
  = Done (Searched [six_tree; six_tree] six_merged (0, 0)).
Proof. vm_compute. reflexivity. Qed.

Lemma two_moves_played : played 2 2 two_moves.
Proof.
  unfold two_moves. apply played_move; [apply played_move; [apply played_init|]|];
    vm_compute; repeat (apply list_elem_of_here || apply list_elem_of_further).
Qed.

(** X1 for six iterations on the empty board of side 2. *)
Lemma compute_tree_iteration_count_witness :
  ∃ a, compute_tree_run (H1 := openmp_build) 50 (Gomoku.init 2) six_options 42 0%float
       = Done (a, 6)
       ∧ compute_tree (H1 := openmp_build) 50 (Gomoku.init 2) six_options 42 0%float = Done a
       ∧ root_visits a = 6
       ∧ (1 ≤ length a ≤ Z.to_nat 6 + 1)%nat.
Proof.
  apply (compute_tree_iteration_count (H1 := openmp_build) 50 (Gomoku.init 2) six_options 42
           0%float).
  - left. reflexivity.
  - reflexivity.
  - unfold INT_MAX. simpl. lia.
  - simpl. lia.
  - simpl. lia.
Defined.

(** X2 on the tree of six iterations. *)
Lemma select_leaf_reaches_frontier_witness :
  ∃ x st n ms,
    select_leaf (H1 := openmp_build) 10 six_tree 0%nat (Gomoku.init 2) = Done (x, st)
    ∧ six_tree !! x = Some n
    ∧ (Node.moves n ≠ [] ∨ Node.children n = [])
    ∧ (∀ i ni, on_path six_tree x i → i ≠ x → six_tree !! i = Some ni →
         Node.moves ni = [] ∧ Node.children ni ≠ [])
    ∧ path_moves six_tree x ms
    ∧ st = fold_left do_move ms (Gomoku.init 2).
Proof.
  apply (select_leaf_reaches_frontier (H1 := openmp_build) 10 (Gomoku.init 2) six_tree).
  - apply six_tree_wf.
  - simpl. lia.
Defined.

(** X3 at the root of the empty board of side 2, for the move (0, 0). *)
Lemma add_child_moves_to_children_witness :
  ((0, 0) ∈ Node.moves (Node_root (Gomoku.init 2)) →
   ∃ moves' a',
     add_child [Node_root (Gomoku.init 2)] 0%nat (0, 0) (Gomoku.do_move (Gomoku.init 2) (0, 0))
     = Done (a', 1%nat)
     ∧ (∃ pre post, Node.moves (Node_root (Gomoku.init 2)) = pre ++ ((0, 0) :: post)
                     ∧ ((0, 0) ∉ pre) ∧ moves' = pre ++ post)
     ∧ length a' = 2%nat
     ∧ a' !! 0%nat
       = Some (Node.mk Gomoku.no_move None 1 0%float 0 moves' ([] ++ [1%nat]))
     ∧ a' !! 1%nat
       = Some (Node.mk (0, 0) (Some 0%nat) 2 0%float 0
                 (get_moves (Gomoku.do_move (Gomoku.init 2) (0, 0))) [])
     ∧ (∀ i, i ≠ 0%nat → (i < 1)%nat →
          a' !! i = [Node_root (Gomoku.init 2)] !! i)
     ∧ wf_tree a')
  ∧ ((0, 0) ∉ Node.moves (Node_root (Gomoku.init 2)) →
     add_child [Node_root (Gomoku.init 2)] 0%nat (0, 0) (Gomoku.do_move (Gomoku.init 2) (0, 0))
     = Fault).
Proof.
  refine (add_child_moves_to_children [Node_root (Gomoku.init 2)] 0%nat
            (Node_root (Gomoku.init 2)) (0, 0) (Gomoku.do_move (Gomoku.init 2) (0, 0)) _ _).
  - apply wf_tree_root.
  - reflexivity.
Defined.

(** X4 from the fourth node of the tree of six iterations, after a
    playout that ended on the full board of one cell. *)
Lemma backpropagate_updates_walk_witness :
  ∃ a', backpropagate 10 six_tree (Some 3%nat) full_board = Done a'
    ∧ length a' = length six_tree
    ∧ on_path six_tree 3 3 ∧ on_path six_tree 3 0
    ∧ (∀ i n, six_tree !! i = Some n → on_path six_tree 3 i →
         a' !! i = Some (update_node n (get_result full_board (Node.player_to_move n)))
         ∧ Node.visits (update_node n (get_result full_board (Node.player_to_move n)))
           = Node.visits n + 1)
    ∧ (∀ i n, six_tree !! i = Some n → ¬ on_path six_tree 3 i → a' !! i = Some n).
Proof.
  apply (backpropagate_updates_walk 10 six_tree 3 full_board).
  - apply six_tree_wf.
  - simpl. lia.
  - lia.
Defined.

(** X5 on the tree of six iterations. *)
Lemma compute_tree_well_formed_witness :
  wf_tree six_tree
  ∧ (∀ i, (i < length six_tree)%nat → on_path six_tree i 0%nat)
  ∧ (1 ≤ length six_tree)%nat ∧ Z.of_nat (length six_tree) ≤ 1 + root_visits six_tree.
Proof.
  apply (compute_tree_well_formed (H1 := openmp_build) 50 (Gomoku.init 2) six_options 42
           0%float six_tree).
  apply six_tree_run.
Defined.

(** X6 at the first child of the root of the tree of six iterations. *)
Lemma compute_tree_visits_accounted_witness :
  ((0 < 1)%nat → 1 ≤ Node.visits six_child)
  ∧ (Node.moves six_child ≠ [] ∨ Node.children six_child ≠ [] →
     Node.visits six_child
     = (if decide (1%nat = 0%nat) then 0 else 1)
       + total (map (visits_at six_tree) (Node.children six_child)))
  ∧ (∀ c, c ∈ Node.children six_child → 1 ≤ visits_at six_tree c).
Proof.
  apply (compute_tree_visits_accounted (H1 := openmp_build) 50 (Gomoku.init 2) six_options 42
           0%float six_tree six_tree_run 1%nat six_child).
  reflexivity.
Defined.

(** X7 on the tree of six iterations. *)
Lemma compute_tree_root_moves_witness :
  ∃ root, six_tree !! 0%nat = Some root
    ∧ Node.moves root ++ map Node.move (root_children six_tree)
      ≡ₚ get_moves (Gomoku.init 2)
    ∧ length (root_children six_tree) = length (Node.children root)
    ∧ (∀ child, child ∈ root_children six_tree →
         Node.move child ∈ get_moves (Gomoku.init 2))
    ∧ (NoDup (get_moves (Gomoku.init 2)) →
       NoDup (map Node.move (root_children six_tree))
       ∧ ∀ child, child ∈ root_children six_tree → Node.move child ∉ Node.moves root).
Proof.
  apply (compute_tree_root_moves (H1 := openmp_build) 50 (Gomoku.init 2) six_options 42
           0%float six_tree).
  apply six_tree_run.
Defined.

(** X8 at the first child of the root of the tree of six iterations. *)
Lemma compute_tree_game_tree_witness :
  ∃ ms, path_moves six_tree 1 ms
    ∧ (∀ ms', path_moves six_tree 1 ms' → ms' = ms)
    ∧ Node.player_to_move six_child
      = player_to_move (fold_left do_move ms (Gomoku.init 2))
    ∧ Node.moves six_child ++ omap (λ c, Node.move <$> six_tree !! c) (Node.children six_child)
      ≡ₚ get_moves (fold_left do_move ms (Gomoku.init 2))
    ∧ (∀ c cn, c ∈ Node.children six_child → six_tree !! c = Some cn →
         Node.move cn ∈ get_moves (fold_left do_move ms (Gomoku.init 2))
         ∧ path_moves six_tree c (ms ++ [Node.move cn])).
Proof.
  apply (compute_tree_game_tree (H1 := openmp_build) 50 (Gomoku.init 2) six_options 42
           0%float six_tree six_tree_run 1%nat six_child).
  reflexivity.
Defined.

(** X9 at the root of the tree of six iterations. *)
Lemma best_child_first_most_witness :
  ∃ i c, best_child six_tree six_root = Done c
    ∧ Node.children six_root !! i = Some c
    ∧ (∀ j c', Node.children six_root !! j = Some c' →
         visits_at six_tree c' ≤ visits_at six_tree c)
    ∧ (∀ j c', Node.children six_root !! j = Some c' → (j < i)%nat →
         visits_at six_tree c' < visits_at six_tree c).
Proof.
  apply (best_child_first_most six_tree six_root).
  - discriminate.
  - intros c Hc. simpl in Hc.
    repeat (apply elem_of_cons in Hc as [->|Hc]; [eexists; reflexivity|]).
    inversion Hc.
Defined.

(** X10 for two workers of six iterations on the empty board of side 2. *)
Lemma compute_move_workers_agree_witness :
  [six_tree; six_tree] = replicate (Z.to_nat 2) six_tree
  ∧ m_games_played six_merged = 2 * root_visits six_tree
  ∧ 2 * root_visits six_tree < INT_MAX
  ∧ ∀ m, map_get Move_lt (m_visits six_merged) m 0
         = 2 * sum_visits (with_move m (root_children six_tree)).
Proof.
  apply (compute_move_workers_agree (H1 := openmp_build) 50 (Gomoku.init 2)
           (options_with 2 6 (-1)%float true) 42 (λ _, 0%float)
           [six_tree; six_tree] six_merged (0, 0)).
  - reflexivity.
  - apply six_search.
  - vm_compute. reflexivity.
  - apply list_elem_of_here.
Defined.

(** X11 for the same search. *)
Lemma compute_move_visits_total_witness :
  total (map snd (m_visits six_merged)) = m_games_played six_merged
  ∧ m_games_played six_merged = total (map root_visits [six_tree; six_tree])
  ∧ m_games_played six_merged < INT_MAX.
Proof.
  apply (compute_move_visits_total (H1 := openmp_build) 50 (Gomoku.init 2)
           (options_with 2 6 (-1)%float true) 42 (λ _, 0%float)
           [six_tree; six_tree] six_merged (0, 0)).
  - vm_compute. discriminate.
  - apply six_search.
  - vm_compute. reflexivity.
Defined.

(** X12 for the same search. *)
Lemma compute_move_legal_or_default_witness :
  keys_sorted Move_lt (m_visits six_merged)
  ∧ map fst (m_wins six_merged) = map fst (m_visits six_merged)
  ∧ (∀ e, e ∈ m_visits six_merged
          → e.1 ∈ get_moves (Gomoku.init 2) ∧ 1 ≤ e.2 < INT_MAX)
  ∧ ((0, 0) ∈ map fst (m_visits six_merged) ∨ (0, 0) = Move_default (State := Gomoku.State))
  ∧ ((0, 0) ∈ get_moves (Gomoku.init 2) ∨ (0, 0) = Move_default (State := Gomoku.State)).
Proof.
  apply (compute_move_legal_or_default (H1 := openmp_build) 50 (Gomoku.init 2)
           (options_with 2 6 (-1)%float true) 42 (λ _, 0%float)
           [six_tree; six_tree] six_merged (0, 0)).
  - apply six_search.
  - vm_compute. reflexivity.
Defined.

(** X13 for two workers of six iterations on the empty board of side 2. *)
Lemma compute_move_returns_witness :
  ∃ r, compute_move_run (H1 := openmp_build) 50 (Gomoku.init 2)
         (options_with 2 6 (-1)%float true) 42 (λ _, 0%float) = Done r
    ∧ compute_move (H1 := openmp_build) 50 (Gomoku.init 2)
        (options_with 2 6 (-1)%float true) 42 (λ _, 0%float) = Done (returned_move r)
    ∧ (returned_move r ∈ get_moves (Gomoku.init 2)
       ∨ returned_move r = Move_default (State := Gomoku.State))
    ∧ ∀ roots merged best_move, r = Searched roots merged best_move →
        m_games_played merged = Z.max 0 2 * 6
        ∧ ∀ e, e ∈ m_visits merged → 1 ≤ e.2 ≤ INT_MAX.
Proof.
  apply (compute_move_returns (H1 := openmp_build) 50 (Gomoku.init 2)
           (options_with 2 6 (-1)%float true) 42 (λ _, 0%float)).
  - reflexivity.
  - unfold INT_MAX. simpl. lia.
  - unfold INT_MAX. simpl. lia.
  - simpl. lia.
  - simpl. lia.
Defined.

(** X14 after two moves on the board of side 2. *)
Lemma played_positions_valid_witness :
  Gomoku_valid 2 two_moves
  ∧ (length (Gomoku.empty_places two_moves) + 2 = Z.to_nat 2 * Z.to_nat 2)%nat
  ∧ (2 ≤ Z.to_nat 2 * Z.to_nat 2)%nat
  ∧ Gomoku.player_to_move two_moves = (if Nat.even 2 then 1 else 2)
  ∧ (2%nat = (Z.to_nat 2 * Z.to_nat 2)%nat → Gomoku.has_moves two_moves = false).
Proof.
  apply (played_positions_valid 2 2 two_moves).
  - lia.
  - apply two_moves_played.
Defined.

(** X15 on the board where player 1 has five in the top row. *)
Lemma get_winner_five_in_line_witness :
  (five_through_last top_row_won → Gomoku.get_winner top_row_won = last_piece top_row_won)
  ∧ (¬ five_through_last top_row_won
     → Gomoku.get_winner top_row_won = Gomoku.player_markers 0).
Proof.
  apply (get_winner_five_in_line top_row_won).
  unfold on_board. simpl. lia.
Defined.

(** X16 after two moves on the board of side 2. *)
Lemma played_winner_moved_last_witness :
  (Gomoku.get_winner two_moves = Gomoku.player_markers 0
   ∨ Gomoku.get_winner two_moves
     = Gomoku.player_markers (3 - Gomoku.player_to_move two_moves))
  ∧ (Gomoku.get_result two_moves (Gomoku.player_to_move two_moves) = 0.5%float
     ∨ Gomoku.get_result two_moves (Gomoku.player_to_move two_moves) = 1%float)
  ∧ (Gomoku.get_result two_moves 1 + Gomoku.get_result two_moves 2 = 1)%float.
Proof.
  apply (played_winner_moved_last 2 2 two_moves).
  - lia.
  - apply two_moves_played.
Defined.

(** X18 from the empty board of side 2. *)
Lemma playout_ends_witness :
  ∃ s' engine',
    playout 10 (Gomoku.init 2) (seed_engine 42 : Z) = Done (s', engine')
    ∧ Gomoku.has_moves s' = false
    ∧ (length (Gomoku.empty_places s') ≤ length (Gomoku.empty_places (Gomoku.init 2)))%nat
    ∧ ∀ n k, played n k (Gomoku.init 2) →
        ∃ k', played n k' s' ∧ (k ≤ k')%nat
              ∧ (k' - k = length (Gomoku.empty_places (Gomoku.init 2))
                          - length (Gomoku.empty_places s'))%nat.
Proof.
  apply (playout_ends 10 (Gomoku.init 2) (seed_engine 42 : Z)).
  simpl. lia.
Defined.

(** X19 with a limit of half a second on the clock that advances a quarter
    of a second at every reading. *)
Lemma compute_tree_time_limit_witness :
  ∃ a, compute_tree_run (H1 := openmp_build) 50 (Gomoku.init 2)
         (options_with 1 100 0.5%float false) 42 0%float = Done (a, Z.of_nat 2)
    ∧ compute_tree (H1 := openmp_build) 50 (Gomoku.init 2)
        (options_with 1 100 0.5%float false) 42 0%float = Done a
    ∧ root_visits a = Z.of_nat 2.
Proof.
  apply (compute_tree_time_limit (H1 := openmp_build) 50 (Gomoku.init 2)
           (options_with 1 100 0.5%float false) 42 0%float 2).
  - reflexivity.
  - reflexivity.
  - lia.
  - unfold INT_MAX. lia.
  - intros i Hi. assert (i = 1%nat) as -> by lia. reflexivity.
  - reflexivity.
  - right. simpl. lia.
  - lia.
  - simpl. lia.
Defined.

(** X20 for the empty board of side 2 and the board after two moves. *)
Lemma str_determines_board_witness :
  String.length (Gomoku.str two_moves) = (2 * (Z.to_nat 2 * Z.to_nat 2))%nat
  ∧ (Gomoku.str two_moves = Gomoku.str (Gomoku.init 2)
     ↔ Gomoku.board two_moves = Gomoku.board (Gomoku.init 2)).
Proof.
  apply (str_determines_board 2 two_moves (Gomoku.init 2)).
  - apply (played_valid 2 2 two_moves); [lia|apply two_moves_played].
  - apply Gomoku_valid_init. lia.
Defined.
